(** * bpro/shape.py: shapes of the procedural modelling core

    A shallow embedding of [bpro/shape.py] (functions [getInitialShape],
    [Shape2d.extrude], [Shape2d.getMatrix], [Shape2d.getNormal],
    [Rectangle.split], [Rectangle.createSplitShape], [Shape3d.comp],
    [Shape3d.getRotationMatrix]) together with the part of the mesh kernel
    ([bmesh]) and of the vector library ([mathutils]) these functions call.

    Conventions.
    - Python floats are modelled by rationals [Q]; comparisons are the exact
      order of [Q], arithmetic is exact.
    - Mesh elements are references into the mesh: a vertex is its index, a
      face is its index, a loop is the pair (face, vertex it starts at), an
      edge is the unordered pair of its end vertices.
    - The mutable mesh ([context.bm]) is passed explicitly; a call that can
      raise returns a [result]. *)

From Stdlib Require Import QArith Qabs Lqa.
From stdpp Require Import base option list gmap.

Open Scope Q_scope.
Open Scope nat_scope.

(** ** Python outcomes *)

Inductive PyError :=
| IndexError | ValueError | ReferenceError | AttributeError | NameError.

(** [Ok a]: normal return; [Raise e]: the exception [e] propagates to the
    caller; [Fuel]: the bound on the iterations of a [while True] loop was
    reached by the model (no Python behaviour corresponds to it). *)
Inductive result (A : Type) :=
| Ok (a : A)
| Raise (e : PyError)
| Fuel.
Arguments Ok {A} a.
Arguments Raise {A} e.
Arguments Fuel {A}.

#[global] Instance result_ret : MRet result := @Ok.
#[global] Instance result_bind : MBind result := fun A B f m =>
  match m with Ok a => f a | Raise e => Raise e | Fuel => Fuel end.

(** [l[0]] on a Python sequence *)
Definition item0 {A} (l : list A) : result A :=
  match l with x :: _ => Ok x | [] => Raise IndexError end.

(** Python [a > b] and [a < b] on floats *)
Definition Qltb (a b : Q) : bool := (Qnum a * QDen b <? Qnum b * QDen a)%Z.
Definition Qgtb (a b : Q) : bool := Qltb b a.

(** ** mathutils: vectors and 4x4 matrices *)

Module mathutils.

Record Vector := vec { vx : Q; vy : Q; vz : Q }.

Definition zero : Vector := vec 0 0 0.
Definition add (a b : Vector) : Vector :=
  vec (vx a + vx b) (vy a + vy b) (vz a + vz b).
Definition sub (a b : Vector) : Vector :=
  vec (vx a - vx b) (vy a - vy b) (vz a - vz b).
Definition neg (a : Vector) : Vector := vec (- vx a) (- vy a) (- vz a).
(** [s * v] for a float [s] *)
Definition scale (s : Q) (a : Vector) : Vector :=
  vec (s * vx a) (s * vy a) (s * vz a).
Definition cross (a b : Vector) : Vector :=
  vec (vy a * vz b - vz a * vy b)
      (vz a * vx b - vx a * vz b)
      (vx a * vy b - vy a * vx b).

(** componentwise equality of rationals *)
Definition veq (a b : Vector) : Prop :=
  vx a == vx b /\ vy a == vy b /\ vz a == vz b.

Record Row := row { c0 : Q; c1 : Q; c2 : Q; c3 : Q }.
Record Matrix := mat { r0 : Row; r1 : Row; r2 : Row; r3 : Row }.

Definition dot (a b : Row) : Q :=
  c0 a * c0 b + c1 a * c1 b + c2 a * c2 b + c3 a * c3 b.
Definition col (j : Row -> Q) (m : Matrix) : Row :=
  row (j (r0 m)) (j (r1 m)) (j (r2 m)) (j (r3 m)).
Definition mulrow (a : Row) (m : Matrix) : Row :=
  row (dot a (col c0 m)) (dot a (col c1 m)) (dot a (col c2 m)) (dot a (col c3 m)).

(** [Matrix * Matrix] *)
Definition mul (a b : Matrix) : Matrix :=
  mat (mulrow (r0 a) b) (mulrow (r1 a) b) (mulrow (r2 a) b) (mulrow (r3 a) b).

(** [Matrix * Vector] for a 4x4 matrix and a 3D vector: the vector is
    extended by w = 1 and the first three components are returned. *)
Definition mulvec (m : Matrix) (v : Vector) : Vector :=
  let w := row (vx v) (vy v) (vz v) 1 in
  vec (dot (r0 m) w) (dot (r1 m) w) (dot (r2 m) w).

(** [Matrix.Translation(v)] *)
Definition Translation (v : Vector) : Matrix :=
  mat (row 1 0 0 (vx v)) (row 0 1 0 (vy v)) (row 0 0 1 (vz v)) (row 0 0 0 1).

(** a matrix without translation part *)
Definition linear (m : Matrix) : Prop :=
  c3 (r0 m) == 0 /\ c3 (r1 m) == 0 /\ c3 (r2 m) == 0.

End mathutils.

Import mathutils.

(** ** bmesh: the mesh kernel *)

Module bmesh.

(** A face is the cycle of its vertices (its loops in boundary order, the
    first one being [face.loops[0]]) and its stored normal. *)
Record BMFace := mkFace { f_verts : list nat; f_normal : Vector }.

(** [m_verts]: coordinates of the vertices; [m_faces]: the faces, [None]
    for a face that was removed from the mesh. *)
Record BMesh := mkMesh { m_verts : list Vector; m_faces : list (option BMFace) }.

Definition BMLoop : Type := nat * nat.
Definition BMEdge : Type := nat * nat.

Inductive BMElem := BMVert (v : nat) | BMEdge_ (e : BMEdge) | BMFace_ (f : nat).

Definition mk_edge (a b : nat) : BMEdge := (a `min` b, a `max` b).

(** access to a removed element raises [ReferenceError] *)
Definition get_face (bm : BMesh) (f : nat) : result BMFace :=
  match m_faces bm !! f with
  | Some (Some x) => Ok x
  | _ => Raise ReferenceError
  end.

(** [vert.co] *)
Definition co (bm : BMesh) (v : nat) : result Vector :=
  match m_verts bm !! v with
  | Some c => Ok c
  | None => Raise ReferenceError
  end.

(** index following [i] on a cycle of length [n] *)
Definition cnext (n i : nat) : nat := if decide (S i = n) then 0 else S i.

(** the vertex following [v] on the cycle [vs] *)
Definition cycle_next (vs : list nat) (v : nat) : option nat :=
  match list_find (fun x => x = v) vs with
  | Some (i, _) => vs !! cnext (length vs) i
  | None => None
  end.

(** a loop is usable when its face is in the mesh and holds its vertex *)
Definition check_loop (bm : BMesh) (l : BMLoop) : result BMFace :=
  f ← get_face bm l.1;
  if decide (l.2 ∈ f_verts f) then Ok f else Raise ReferenceError.

(** [loop.face] *)
Definition loop_face (bm : BMesh) (l : BMLoop) : result nat :=
  _ ← check_loop bm l; Ok l.1.

(** [loop.vert] *)
Definition loop_vert (bm : BMesh) (l : BMLoop) : result nat :=
  _ ← check_loop bm l; Ok l.2.

(** [loop.link_loop_next] *)
Definition link_loop_next (bm : BMesh) (l : BMLoop) : result BMLoop :=
  f ← get_face bm l.1;
  match cycle_next (f_verts f) l.2 with
  | Some w => Ok (l.1, w)
  | None => Raise ReferenceError
  end.

(** [loop.edge]: the edge from the loop's vertex to the next one *)
Definition loop_edge (bm : BMesh) (l : BMLoop) : result BMEdge :=
  l' ← link_loop_next bm l; Ok (mk_edge l.2 l'.2).

(** the loops of face [i] that run along edge [e] *)
Definition face_loops_on (e : BMEdge) (i : nat) (f : BMFace) : list BMLoop :=
  (fun v => (i, v)) <$>
    filter (fun v => mk_edge v <$> cycle_next (f_verts f) v = Some e) (f_verts f).

(** the loops around an edge in the order in which their faces were
    created (the faces of a mesh are numbered in that order) *)
Definition edge_loops (bm : BMesh) (e : BMEdge) : list BMLoop :=
  mjoin (imap (fun i o => match o with
                          | Some f => face_loops_on e i f
                          | None => []
                          end) (m_faces bm)).

(** [edge.link_loops]: all loops around the edge, in the order of the
    radial cycle from the loop the edge points to. The kernel inserts the
    loop of a new face behind the loop the edge points to and then makes
    the edge point to the new loop ([bmesh_radial_loop_append]): the loop
    of the face created last comes first, and the loops of the older
    faces follow in the order of their creation. *)
Definition edge_link_loops (bm : BMesh) (e : BMEdge) : list BMLoop :=
  let loops := edge_loops bm e in
  rotate (length loops - 1) loops.

(** [edge.link_faces] *)
Definition edge_link_faces (bm : BMesh) (e : BMEdge) : list nat :=
  fst <$> edge_link_loops bm e.

(** [loop.link_loops]: the other loops around the loop's edge, starting
    after the loop itself *)
Definition loop_link_loops (bm : BMesh) (l : BMLoop) : result (list BMLoop) :=
  e ← loop_edge bm l;
  let ls := edge_link_loops bm e in
  match list_find (fun x => x = l) ls with
  | Some (i, _) => Ok (drop (S i) ls ++ take i ls)
  | None => Raise ReferenceError
  end.

(** [face.loops[0]] *)
Definition face_loops_0 (bm : BMesh) (f : nat) : result BMLoop :=
  x ← get_face bm f; v ← item0 (f_verts x); Ok (f, v).

(** [face.normal] *)
Definition face_normal (bm : BMesh) (f : nat) : result Vector :=
  x ← get_face bm f; Ok (f_normal x).

(** [bm.faces[0]]: the first face that is in the mesh *)
Definition faces_0 (bm : BMesh) : result nat :=
  match list_find (fun o : option BMFace => is_Some o) (m_faces bm) with
  | Some (i, _) => Ok i
  | None => Raise IndexError
  end.

(** reversal of a face: the first loop stays, the direction of the cycle
    is reversed (every loop keeps its vertex), the normal is negated *)
Definition flip (f : BMFace) : BMFace :=
  mkFace (match f_verts f with [] => [] | v :: r => v :: reverse r end)
         (neg (f_normal f)).

Definition set_face (bm : BMesh) (i : nat) (o : option BMFace) : BMesh :=
  mkMesh (m_verts bm) (<[i := o]> (m_faces bm)).

(** [bm.verts.new(co)] *)
Definition verts_new (bm : BMesh) (c : Vector) : BMesh * nat :=
  (mkMesh (m_verts bm ++ [c]) (m_faces bm), length (m_verts bm)).

(** a face on exactly the vertices [vs] is in the mesh *)
Definition face_exists (bm : BMesh) (vs : list nat) : bool :=
  existsb (fun o => match o with
                    | Some f =>
                        bool_decide (length (f_verts f) = length vs)
                        && bool_decide (vs ⊆ f_verts f)
                        && bool_decide (f_verts f ⊆ vs)
                    | None => false
                    end) (m_faces bm).

(** [bm.faces.new(verts)]: raises [ValueError] for fewer than three
    vertices, for a vertex used twice and for a face that exists already;
    the new face has a zero normal *)
Definition faces_new (bm : BMesh) (vs : list nat) : result (BMesh * nat) :=
  if decide (length vs < 3) then Raise ValueError
  else if decide (Forall (fun v => v < length (m_verts bm)) vs) then
    if decide (NoDup vs) then
      if face_exists bm vs then Raise ValueError
      else Ok (mkMesh (m_verts bm) (m_faces bm ++ [Some (mkFace vs zero)]),
               length (m_faces bm))
    else Raise ValueError
  else Raise ReferenceError.

(** *** The operators of [bmesh.ops]

    Every operator of [bmesh.ops] that shape.py calls ends with the
    recalculation of the normals of all the faces of the mesh from the
    positions of their vertices ([BM_mesh_normals_update]): a normal
    stored before the call is lost, also on the faces the operator did
    not touch. *)

(** one term of Newell's sum, for two consecutive positions *)
Definition newell_cross (a b : Vector) : Vector :=
  vec ((vy a - vy b) * (vz a + vz b))
      ((vz a - vz b) * (vx a + vx b))
      ((vx a - vx b) * (vy a + vy b)).

(** [BM_face_calc_normal] before the normalisation, on the positions of
    the vertices of a face in the order of its boundary: the cross product
    of two edges for a triangle, of the diagonals for a quadrilateral,
    Newell's sum otherwise *)
Definition face_normal_vector (cs : list Vector) : Vector :=
  match cs with
  | [v1; v2; v3] => cross (sub v1 v2) (sub v2 v3)
  | [v1; v2; v3; v4] => cross (sub v1 v3) (sub v2 v4)
  | _ => fold_left add (zip_with newell_cross (rotate (length cs - 1) cs) cs) zero
  end.

(** the positions of the vertices [vs] *)
Definition positions (bm : BMesh) (vs : list nat) : list Vector :=
  (fun v => default zero (m_verts bm !! v)) <$> vs.

(** the wall between the base edge [i] and the cap edge [i]; it runs along
    the base edge in the direction of the cap *)
Definition side_face (vs : list nat) (nv : nat) (i v : nat) : BMFace :=
  let n := length vs in
  mkFace [v; default v (vs !! cnext n i); nv + cnext n i; nv + i] zero.

Section ops.

(** the normalisation of a vector *)
Variable normalize : Vector -> Vector.

(** the normal of a face on the vertices [vs], as the kernel calculates
    it *)
Definition calc_normal (bm : BMesh) (vs : list nat) : Vector :=
  normalize (face_normal_vector (positions bm vs)).

(** [BM_mesh_normals_update] *)
Definition normals_update (bm : BMesh) : BMesh :=
  mkMesh (m_verts bm)
         ((fun o : option BMFace =>
             (fun f => mkFace (f_verts f) (calc_normal bm (f_verts f))) <$> o)
            <$> m_faces bm).

(** [bmesh.ops.reverse_faces(bm, faces=(face,))] *)
Definition reverse_faces (bm : BMesh) (f : nat) : result BMesh :=
  x ← get_face bm f; Ok (normals_update (set_face bm f (Some (flip x)))).

(** [bmesh.ops.translate(bm, verts=vs, vec=d)] *)
Definition translate (bm : BMesh) (vs : list nat) (d : Vector) : BMesh :=
  normals_update
    (mkMesh (imap (fun i c => if decide (i ∈ vs) then add c d else c) (m_verts bm))
            (m_faces bm)).

(** [bmesh.ops.extrude_face_region(bm, geom=(face,))] for one face.
    The face is duplicated (new vertices at the same positions); a wall
    is created on every edge of the face; the face itself stays in the
    mesh and is reversed, whether it borders other faces or not. The value
    is the mesh and the output slot ["geom"]: the vertices, edges and face
    of the copy. *)
Definition extrude_face_region (bm : BMesh) (fi : nat)
  : result (BMesh * list BMElem) :=
  f ← get_face bm fi;
  cs ← mapM (fun v => match m_verts bm !! v with
                      | Some c => Ok c | None => Raise ReferenceError end)
            (f_verts f);
  let vs := f_verts f in
  let n := length vs in
  let nv := length (m_verts bm) in
  let nf := length (m_faces bm) in
  let cap := mkFace (seq nv n) (f_normal f) in
  Ok (normals_update
        (mkMesh (m_verts bm ++ cs)
                (<[fi := Some (flip f)]> (m_faces bm) ++ Some cap
                   :: imap (fun i v => Some (side_face vs nv i v)) vs)),
      (BMVert <$> seq nv n)
        ++ (BMEdge_ <$> imap (fun i _ => mk_edge (nv + i) (nv + cnext n i)) vs)
        ++ [BMFace_ nf]).

End ops.

End bmesh.

Import bmesh.

(** ** The names imported by shape.py *)

(** [from pro import x, y, z], the selectors and [context] *)
Module pro.

Inductive Axis := x | y | z.

Inductive Selector := front | back | left | right | top | bottom | side | all.

(** [context.bm] and [context.facesForRemoval] *)
Record Context := mkContext { bm : BMesh; facesForRemoval : list nat }.

End pro.

#[global] Instance Axis_eq_dec : EqDecision pro.Axis.
Proof. solve_decision. Defined.

#[global] Instance Selector_eq_dec : EqDecision pro.Selector.
Proof. solve_decision. Defined.

Definition Selector_code (s : pro.Selector) : nat :=
  match s with
  | pro.front => 0 | pro.back => 1 | pro.left => 2 | pro.right => 3
  | pro.top => 4 | pro.bottom => 5 | pro.side => 6 | pro.all => 7
  end.

Definition Selector_of_code (n : nat) : option pro.Selector :=
  match n with
  | 0 => Some pro.front | 1 => Some pro.back | 2 => Some pro.left
  | 3 => Some pro.right | 4 => Some pro.top | 5 => Some pro.bottom
  | 6 => Some pro.side | 7 => Some pro.all | _ => None
  end.

#[global] Program Instance Selector_countable : Countable pro.Selector :=
  inj_countable Selector_code Selector_of_code _.
Next Obligation. by intros []. Qed.

(** What shape.py takes from [pro.op_split] and [.utils], and the two
    operations of [mathutils] that leave the rationals: these are the
    parameters of the development. The selectors are taken to be true
    values ([if shapeType:] only tests for [None]). *)
Class Imports := {
  (** an operand of a split: one size together with its rule *)
  Part : Type;
  Rule : Type;
  (** [calculateSplit(parts, length)]: a list of [[cutValue, rule]] *)
  calculateSplit : list Part -> Q -> list (Q * Rule);
  verticalNormalThreshold : Q;
  zAxis : Vector;
  rotation_zNormal_xHorizontal : BMesh -> BMLoop -> Vector -> result Matrix;
  (** [Vector.length] *)
  Vector_length : Vector -> Q;
  (** the value of a vector after [Vector.normalize()]; the kernel
      normalises the normals it calculates in the same way *)
  Vector_normalize : Vector -> Vector
}.

(** ** shape.py *)

(** normal threshold for the [Shape3d.comp] method to classify if the face
    is horizontal or vertical *)
Definition horizontalFaceThreshold : Q := 70711 # 100000.

Inductive ShapeClass := Shape2dClass | RectangleClass.

(** An instance of [Shape2d] or of its subclass [Rectangle]. [origin] is
    [firstLoop.vert.co], a view on the coordinates of that vertex: the
    field keeps the vertex. *)
Record Shape2d := mkShape2d {
  cls : ShapeClass;
  face : nat;
  firstLoop : BMLoop;
  origin : nat;
  matrix : option Matrix
}.

(** An instance of [Shape3d]. [firstLoop3] and [origin3] are its
    attributes [firstLoop] and [origin]; the names differ from those of
    [Shape2d] only because both records share one name space. *)
Record Shape3d := mkShape3d {
  shapes : list Shape2d;
  firstLoop3 : BMLoop;
  origin3 : nat;
  rotationMatrix : option Matrix
}.

(** a slot 0 of an entry of the list of cuts: the float put there by
    [calculateSplit] or the shape assigned to it *)
Inductive CutSlot := CutValue (q : Q) | CutShape (s : Shape2d).

(** [l[i]] *)
Definition item {A} (l : list A) (i : nat) : result A :=
  match l !! i with Some a => Ok a | None => Raise IndexError end.

(** Modelled from the spec: [getEndVertex] of [.utils], the interface
    [endVertex(ref)] of a boundary reference: the vertex at which the
    directed boundary position ends, that is the start of the next one. *)
Definition getEndVertex (bm : BMesh) (loop : BMLoop) : result nat :=
  l ← link_loop_next bm loop; loop_vert bm l.

Module Shape3d.
Section defs.
Context `{Imports}.

(** [__init__(self, shapes, firstLoop)] *)
Definition __init__ (bm : BMesh) (shapes : list Shape2d)
    (firstLoop : BMLoop) : result Shape3d :=
  v ← loop_vert bm firstLoop;
  _ ← co bm v;
  Ok (mkShape3d shapes firstLoop v None).

(** [getRotationMatrix(self)]: the matrix and the shape with the matrix
    kept *)
Definition getRotationMatrix (bm : BMesh) (self : Shape3d)
  : result (Shape3d * Matrix) :=
  match rotationMatrix self with
  | Some m => Ok (self, m)
  | None =>
      m ← rotation_zNormal_xHorizontal bm (firstLoop3 self) zAxis;
      Ok (mkShape3d (shapes self) (firstLoop3 self) (origin3 self) (Some m), m)
  end.

(** lines 197-206: [(shapeType, isVertical)] for a normal in the
    coordinate system of the 3D shape *)
Definition classify (normal : Vector) : pro.Selector * bool :=
  if Qgtb (Qabs (vz normal)) horizontalFaceThreshold then
    (if Qgtb (vz normal) 0 then pro.top else pro.bottom, false)
  else
    (if Qgtb (Qabs (vx normal)) (Qabs (vy normal))
     then (if Qgtb (vx normal) 0 then pro.front else pro.back)
     else (if Qgtb (vy normal) 0 then pro.right else pro.left), true).

(** lines 208-214: the final [shapeType], [None] for Python's [None] *)
Definition select (parts : list pro.Selector) (shapeType : pro.Selector)
    (isVertical : bool) : option pro.Selector :=
  if decide (shapeType ∈ parts) then Some shapeType
  else if bool_decide (pro.side ∈ parts) && isVertical then Some pro.side
  else if decide (pro.all ∈ parts) then Some pro.all
  else None.

(** lines 216-219 *)
Definition append (res : gmap pro.Selector (list Shape2d))
    (shapeType : option pro.Selector) (shape : Shape2d)
  : gmap pro.Selector (list Shape2d) :=
  match shapeType with
  | Some t =>
      let res := if decide (is_Some (res !! t)) then res else <[t := []]> res in
      <[t := default [] (res !! t) ++ [shape]]> res
  | None => res
  end.

(** lines 193-219: the [for] loop over [self.shapes] *)
Fixpoint comp_loop (bm : BMesh) (rotationMatrix : Matrix)
    (parts : list pro.Selector) (shapes : list Shape2d)
    (res : gmap pro.Selector (list Shape2d))
  : result (gmap pro.Selector (list Shape2d)) :=
  match shapes with
  | [] => Ok res
  | shape :: rest =>
      n ← face_normal bm (face shape);
      let normal := mulvec rotationMatrix n in
      let '(shapeType, isVertical) := classify normal in
      comp_loop bm rotationMatrix parts rest
                (append res (select parts shapeType isVertical) shape)
  end.

(** [comp(self, parts)]: the dictionary, and the shape with its rotation
    matrix kept *)
Definition comp (bm : BMesh) (self : Shape3d) (parts : list pro.Selector)
  : result (Shape3d * gmap pro.Selector (list Shape2d)) :=
  '(self, rotationMatrix) ← getRotationMatrix bm self;
  res ← comp_loop bm rotationMatrix parts (shapes self) ∅;
  Ok (self, res).

End defs.
End Shape3d.

Module Shape2d.
Section defs.
Context `{Imports}.

(** [__init__(self, firstLoop)] of [Shape2d], and of [Rectangle] which
    only calls it; [c] is the class that is instantiated *)
Definition __init__ (c : ShapeClass) (bm : BMesh) (firstLoop : BMLoop)
  : result Shape2d :=
  f ← loop_face bm firstLoop;
  v ← loop_vert bm firstLoop;
  _ ← co bm v;
  Ok (mkShape2d c f firstLoop v None).

(** lines 43-45: the first [BMFace] of [geom["geom"]]; without one the
    variable is left on an element that has no [verts] or no [normal],
    or is unbound *)
Fixpoint first_face (geom : list BMElem) : result nat :=
  match geom with
  | [] => Raise NameError
  | BMFace_ f :: _ => Ok f
  | [_] => Raise AttributeError
  | _ :: rest => first_face rest
  end.

(** lines 57-61: the values of [loop] and [oppositeLoop] when the [for]
    loop is left; [last] holds them after the iterations done so far *)
Fixpoint find_loop (bm : BMesh) (extrudedFace : nat) (loops : list BMLoop)
    (last : option (BMLoop * BMLoop)) : result (BMLoop * BMLoop) :=
  match loops with
  | [] => match last with Some p => Ok p | None => Raise NameError end
  | loop :: rest =>
      l ← link_loop_next bm loop;
      oppositeLoop ← link_loop_next bm l;
      e ← loop_edge bm oppositeLoop;
      let oppositeEdgeFaces := edge_link_faces bm e in
      f0 ← item oppositeEdgeFaces 0;
      if decide (f0 = extrudedFace) then Ok (loop, oppositeLoop)
      else
        f1 ← item oppositeEdgeFaces 1;
        if decide (f1 = extrudedFace) then Ok (loop, oppositeLoop)
        else find_loop bm extrudedFace rest (Some (loop, oppositeLoop))
  end.

(** lines 69-74: the [while True] loop, at most [fuel] iterations *)
Fixpoint walk (fuel : nat) (bm : BMesh) (firstLoop loop : BMLoop)
    (shapes : list Shape2d) : result (list Shape2d) :=
  match fuel with
  | 0 => Fuel
  | S fuel =>
      r ← __init__ RectangleClass bm loop;
      let shapes := shapes ++ [r] in
      l ← link_loop_next bm loop;
      ls ← loop_link_loops bm l;
      l ← item0 ls;
      loop ← link_loop_next bm l;
      if decide (loop = firstLoop) then Ok shapes
      else walk fuel bm firstLoop loop shapes
  end.

(** lines 51-61: the side loop on the first edge and the loop opposite to
    it, in the mesh after the extrusion *)
Definition side_loops (bm : BMesh) (self : Shape2d) (extrudedFace : nat)
  : result (BMLoop * BMLoop) :=
  edge ← loop_edge bm (firstLoop self);
  let loops := edge_link_loops bm edge in
  find_loop bm extrudedFace loops None.

(** lines 40-49: the extrude operator and the translation of the
    extruded face along its normal *)
Definition extruded (bm : BMesh) (self : Shape2d) (depth : Q)
  : result (BMesh * nat) :=
  let originalFace := face self in
  '(bm, geom) ← extrude_face_region Vector_normalize bm originalFace;
  extrudedFace ← first_face geom;
  x ← get_face bm extrudedFace;
  Ok (translate Vector_normalize bm (f_verts x) (scale depth (f_normal x)),
      extrudedFace).

(** [extrude(self, depth)] *)
Definition extrude (fuel : nat) (ctx : pro.Context) (self : Shape2d)
    (depth : Q) : result (pro.Context * Shape3d) :=
  '(bm, extrudedFace) ← extruded (pro.bm ctx) self depth;
  '(loop, oppositeLoop) ← side_loops bm self extrudedFace;
  ls ← loop_link_loops bm oppositeLoop;
  l ← item0 ls;
  s ← __init__ Shape2dClass bm l;
  let shapes := [self; s] in
  let firstLoop_ := loop in
  n ← face_normal bm extrudedFace;
  shapes ← (if Qgtb (vz n) verticalNormalThreshold
            then walk fuel bm firstLoop_ loop shapes
            else Ok shapes);
  r ← Shape3d.__init__ bm shapes (firstLoop self);
  Ok (pro.mkContext bm (pro.facesForRemoval ctx), r).

(** [getNormal(self)] *)
Definition getNormal (bm : BMesh) (self : Shape2d) : result Vector :=
  let loop := firstLoop self in
  e ← getEndVertex bm loop; ce ← co bm e;
  v ← loop_vert bm loop; cv ← co bm v;
  let v1 := sub ce cv in
  loop ← link_loop_next bm loop;
  e ← getEndVertex bm loop; ce ← co bm e;
  v ← loop_vert bm loop; cv ← co bm v;
  let v2 := sub ce cv in
  let normal := cross v1 v2 in
  Ok (Vector_normalize normal).

(** [getMatrix(self)]: the matrix and the shape with the matrix kept *)
Definition getMatrix (bm : BMesh) (self : Shape2d)
  : result (Shape2d * Matrix) :=
  match matrix self with
  | Some m => Ok (self, m)
  | None =>
      o ← co bm (origin self);
      let translationMatrix := Translation (neg o) in
      normal ← getNormal bm self;
      rotationMatrix ← rotation_zNormal_xHorizontal bm (firstLoop self) normal;
      let m := mul rotationMatrix translationMatrix in
      Ok (mkShape2d (cls self) (face self) (firstLoop self) (origin self)
                    (Some m), m)
  end.

End defs.
End Shape2d.

Section initial.
Context `{Imports}.

(** [getInitialShape(bm)] *)
Definition getInitialShape (bm : BMesh) : result (BMesh * Shape2d) :=
  face ← faces_0 bm;
  n ← face_normal bm face;
  bm ← (if Qltb (vz n) 0 then reverse_faces Vector_normalize bm face else Ok bm);
  l ← face_loops_0 bm face;
  s ← Shape2d.__init__ Shape2dClass bm l;
  Ok (bm, s).

End initial.

Module Rectangle.
Section defs.
Context `{Imports}.

(** [createSplitShape(self, bm, verts)] *)
Definition createSplitShape (bm : BMesh) (verts : list nat)
  : result (BMesh * Shape2d) :=
  '(bm, face) ← faces_new bm verts;
  l ← face_loops_0 bm face;
  s ← Shape2d.__init__ RectangleClass bm l;
  Ok (bm, s).

(** lines 145-156: the [for] loop over the cuts before the last one; the
    value is the mesh, [(prevVert1, prevVert2)] and the entries with the
    shape in slot 0 *)
Fixpoint cut_loop (direction : pro.Axis) (bm : BMesh) (origin1 origin2 : nat)
    (vec1 vec2 : Vector) (prevVert1 prevVert2 : nat) (cuts : list (Q * Rule))
  : result (BMesh * (nat * nat) * list (CutSlot * Rule)) :=
  match cuts with
  | [] => Ok (bm, (prevVert1, prevVert2), [])
  | cut :: rest =>
      let cutValue := cut.1 in
      o1 ← co bm origin1;
      let v1 := add o1 (scale cutValue vec1) in
      o2 ← co bm origin2;
      let v2 := add o2 (scale cutValue vec2) in
      let '(bm, v1) := verts_new bm v1 in
      let '(bm, v2) := verts_new bm v2 in
      let verts := if decide (direction = pro.x)
                   then [prevVert1; v1; v2; prevVert2]
                   else [prevVert2; prevVert1; v1; v2] in
      '(bm, s) ← createSplitShape bm verts;
      '(bm, prev, out) ← cut_loop direction bm origin1 origin2 vec1 vec2 v1 v2 rest;
      Ok (bm, prev, (CutShape s, cut.2) :: out)
  end.

(** line 121: the loop along the direction of the split *)
Definition referenceLoop (bm : BMesh) (self : Shape2d) (direction : pro.Axis)
  : result BMLoop :=
  if decide (direction = pro.x) then Ok (firstLoop self)
  else link_loop_next bm (firstLoop self).

(** lines 123-124: the cuts that [calculateSplit] returns for the length
    of the edge of the reference loop *)
Definition cuts (bm : BMesh) (referenceLoop : BMLoop) (parts : list Part)
  : result (list (Q * Rule)) :=
  v ← loop_edge bm referenceLoop;
  c1 ← co bm v.2; c0 ← co bm v.1;
  Ok (calculateSplit parts (Vector_length (sub c1 c0))).

(** [split(self, direction, parts)]; a [Shape2d] that is not a
    [Rectangle] has no such method *)
Definition split (ctx : pro.Context) (self : Shape2d) (direction : pro.Axis)
    (parts : list Part) : result (pro.Context * list (CutSlot * Rule)) :=
  _ ← (if cls self is RectangleClass then Ok () else Raise AttributeError);
  let bm := pro.bm ctx in
  referenceLoop ← referenceLoop bm self direction;
  cuts ← cuts bm referenceLoop parts;
  l ← link_loop_next bm referenceLoop;
  oppositeLoop ← link_loop_next bm l;
  origin1 ← loop_vert bm referenceLoop;
  origin2 ← getEndVertex bm oppositeLoop;
  end1 ← getEndVertex bm referenceLoop;
  end2 ← loop_vert bm oppositeLoop;
  ce ← co bm end1; cb ← co bm origin1;
  let vec1 := sub ce cb in
  ce ← co bm end2; cb ← co bm origin2;
  let vec2 := sub ce cb in
  '(bm, (prevVert1, prevVert2), out) ←
    cut_loop direction bm origin1 origin2 vec1 vec2 origin1 origin2
             (take (length cuts - 1) cuts);
  let verts := if decide (direction = pro.x)
               then [prevVert1; end1; end2; prevVert2]
               else [prevVert2; prevVert1; end1; end2] in
  '(bm, s) ← createSplitShape bm verts;
  r ← match last cuts with
      | Some cut => Ok (CutShape s, cut.2)
      | None => Raise IndexError
      end;
  Ok (pro.mkContext bm (pro.facesForRemoval ctx ++ [face self]), out ++ [r]).

End defs.
End Rectangle.

(** ** Sample values

    An instance of the imports and a few meshes on which the definitions
    are evaluated. *)

Module sample.

(** Modelled from the spec: [calculateSplit] of [pro.op_split] for
    proportional sizes: the cut parameters are the running sums of the
    sizes divided by their total, the last one being 1
    (sizes [1, 2, 1] give [0.25, 0.75, 1.0]). *)
Fixpoint running (total acc : Q) (parts : list (Q * nat)) : list (Q * nat) :=
  match parts with
  | [] => []
  | p :: rest =>
      let acc := Qred (acc + p.1) in
      (Qred (acc / total), p.2) :: running total acc rest
  end.

Definition proportional (parts : list (Q * nat)) (length : Q) : list (Q * nat) :=
  running (foldr (fun p s => Qred (p.1 + s)) 0%Q parts) 0 parts.

Definition identity : Matrix :=
  mat (row 1 0 0 0) (row 0 1 0 0) (row 0 0 1 0) (row 0 0 0 1).

Definition sgn (q : Q) : Q := if Qltb 0 q then 1 else if Qltb q 0 then -1 else 0.

(** the square root of a rational that is the square of a rational, and
    0 for another one *)
Definition root (q : Q) : Q :=
  let r := Qred q in
  let a := Z.sqrt (Qnum r) in
  let b := Z.sqrt (Zpos (Qden r)) in
  if ((a * a =? Qnum r) && (b * b =? Zpos (Qden r)))%Z
  then Qred (a # Z.to_pos b) else 0.

(** a vector divided by its length when the length is rational; the
    signs of the components otherwise *)
Definition normalize (v : Vector) : Vector :=
  let l := root (vx v * vx v + vy v * vy v + vz v * vz v) in
  if Qltb 0 l then vec (Qred (vx v / l)) (Qred (vy v / l)) (Qred (vz v / l))
  else vec (sgn (vx v)) (sgn (vy v)) (sgn (vz v)).

(** The threshold is the one of the spec (the square root of 0.5, as in
    [horizontalFaceThreshold]). The length is exact on vectors parallel to
    an axis and the normalisation on vectors of rational length, which are
    the only ones of the meshes below; the rotation is that of a face whose
    first edge runs along x and whose normal is z. *)
Definition imports : Imports := {|
  Part := Q * nat;
  Rule := nat;
  calculateSplit := proportional;
  verticalNormalThreshold := 70711 # 100000;
  zAxis := vec 0 0 1;
  rotation_zNormal_xHorizontal := fun _ _ _ => Ok identity;
  Vector_length := fun v => (Qabs (vx v) + Qabs (vy v) + Qabs (vz v))%Q;
  Vector_normalize := normalize
|}.

Definition corners : list Vector :=
  [vec 0 0 0; vec 10 0 0; vec 10 4 0; vec 0 4 0].

(** a rectangle 10 by 4 in the plane z = 0, facing up *)
Definition lot : BMesh :=
  mkMesh corners [Some (mkFace [0; 1; 2; 3] (vec 0 0 1))].

(** the same rectangle facing down *)
Definition lot_down : BMesh :=
  mkMesh corners [Some (mkFace [0; 3; 2; 1] (vec 0 0 (-1)))].

(** a rectangle 10 by 5 on a slope, with its stored normal
    (0, -0.8, 0.6) of unit length *)
Definition slope : BMesh :=
  mkMesh [vec 0 0 0; vec 10 0 0; vec 10 3 4; vec 0 3 4]
         [Some (mkFace [0; 1; 2; 3] (vec 0 (-(4 # 5)) (3 # 5)))].

(** a pentagon *)
Definition pentagon : BMesh :=
  mkMesh [vec 0 0 0; vec 10 0 0; vec 10 4 0; vec 5 6 0; vec 0 4 0]
         [Some (mkFace [0; 1; 2; 3; 4] (vec 0 0 1))].

(** a triangle *)
Definition triangle : BMesh :=
  mkMesh [vec 0 0 0; vec 10 0 0; vec 0 4 0]
         [Some (mkFace [0; 1; 2] (vec 0 0 1))].

(** three faces at the corner (10, 4, 3) of a box, with their stored
    normals: the top, the wall that faces +x, and a cut-off corner whose
    stored normal has |x| = |y| and |z| equal to [horizontalFaceThreshold] *)
Definition corner : BMesh :=
  mkMesh [vec 0 0 3; vec 10 0 3; vec 10 4 3; vec 0 4 3; vec 10 0 0; vec 10 4 0;
          vec 13 3 0]
         [Some (mkFace [0; 1; 2; 3] (vec 0 0 1));
          Some (mkFace [4; 5; 2; 1] (vec 1 0 0));
          Some (mkFace [1; 6; 2] (vec (1 # 2) (1 # 2) (70711 # 100000)))].

Definition ctx (bm : BMesh) : pro.Context := pro.mkContext bm [].

Definition shape (c : ShapeClass) (f v : nat) : Shape2d :=
  mkShape2d c f (f, v) v None.

(** the three faces of [corner] as one 3D shape *)
Definition corner3d : Shape3d :=
  mkShape3d [shape Shape2dClass 0 0; shape RectangleClass 1 4;
             shape Shape2dClass 2 1] (0, 0) 0 None.

End sample.

(** ** Vocabulary of the statements *)

(** [(shapeType, isVertical)] of a constituent shape before the requested
    selectors are looked at, for the rotation matrix [R] *)
Definition tentative (bm : BMesh) (R : Matrix) (s : Shape2d)
  : option (pro.Selector * bool) :=
  match face_normal bm (face s) with
  | Ok n => Some (Shape3d.classify (mulvec R n))
  | _ => None
  end.

(** the key under which [comp] files a constituent shape, [None] when the
    shape is left out *)
Definition key (bm : BMesh) (R : Matrix) (parts : list pro.Selector)
    (s : Shape2d) : option pro.Selector :=
  match tentative bm R s with
  | Some (t, v) => Shape3d.select parts t v
  | None => None
  end.

(** the invariant of the kernel on faces: a face has at least three
    vertices, all different and all of the mesh *)
Definition wf (bm : BMesh) : Prop :=
  forall i f, m_faces bm !! i = Some (Some f) ->
    NoDup (f_verts f) /\ 3 <= length (f_verts f) /\
    Forall (fun v => v < length (m_verts bm)) (f_verts f).

(** [b] follows [a] on the cycle [vs] *)
Definition dedge (vs : list nat) (a b : nat) : Prop :=
  exists i, vs !! i = Some a /\ vs !! cnext (length vs) i = Some b.

(** [r] positions of a cycle of length [n] in the order of the boundary,
    from position [j] on *)
Fixpoint cfrom (n j r : nat) : list nat :=
  match r with
  | 0 => []
  | S r => j :: cfrom n (cnext n j) r
  end.

(** the wall on the base edge [j] of a face with the vertices [vs], as
    [extrude] wraps it when [nf] faces were in the mesh before: a
    [Rectangle] on the loop of the wall that runs along the base edge *)
Definition wall (vs : list nat) (nf j : nat) : Shape2d :=
  let w := default 0 (vs !! j) in
  mkShape2d RectangleClass (nf + 1 + j) (nf + 1 + j, w) w None.

(** the faces of the mesh after the extrusion of the face [fi], up to
    their normals: the face reversed, the cap and the walls *)
Definition extruded_faces (bm : BMesh) (fi : nat) (f : BMFace)
  : list (option BMFace) :=
  <[fi := Some (flip f)]> (m_faces bm)
    ++ Some (mkFace (seq (length (m_verts bm)) (length (f_verts f))) (f_normal f))
    :: imap (fun i v => Some (side_face (f_verts f) (length (m_verts bm)) i v))
            (f_verts f).

(** a boolean form of [wf] *)
Definition wfb (bm : BMesh) : bool :=
  forallb (fun o => match o with
                    | Some f =>
                        bool_decide (NoDup (f_verts f))
                        && bool_decide (3 <= length (f_verts f))
                        && forallb (fun v => v <? length (m_verts bm)) (f_verts f)
                    | None => true
                    end) (m_faces bm).

(** the call raises an exception *)
Definition raises {A} (r : result A) : Prop := exists e, r = Raise e.

(** the positions of the vertices that [split] creates for a list of
    cuts: for each cut one on the reference edge, which starts at [o1] and
    spans [vec1], and one on the opposite edge *)
Definition cut_verts {R} (o1 o2 vec1 vec2 : Vector) (cuts : list (Q * R))
  : list Vector :=
  cuts ≫= fun cut => [add o1 (scale cut.1 vec1); add o2 (scale cut.1 vec2)].

(** the entries [out] hold the cut parameters [ps] in their slot 0 *)
Definition holds_parameters {R} (out : list (CutSlot * R)) (ps : list Q) : Prop :=
  Forall2 (fun e p => e.1 = CutValue p) out ps.

Definition increasing (ps : list Q) : Prop :=
  forall i j p q, ps !! i = Some p -> ps !! j = Some q -> i < j -> (p < q)%Q.

(** a list of [n] entries that hold cut parameters, strictly increasing
    and ending with 1 *)
Definition parameter_entries {R} (n : nat) (out : list (CutSlot * R)) : Prop :=
  length out = n /\
  exists ps, holds_parameters out ps /\ increasing ps /\
             exists p, last ps = Some p /\ p == 1.

(** the loop of face [j] at vertex [a] runs to vertex [b] *)
Definition loop_runs (bm : BMesh) (j a b : nat) : Prop :=
  exists g, m_faces bm !! j = Some (Some g) /\ dedge (f_verts g) a b.

(** the boundaries of the faces of a mesh, without the stored normals *)
Definition cycles (fs : list (option BMFace)) : list (option (list nat)) :=
  (fun o : option BMFace => f_verts <$> o) <$> fs.

(** every face of the mesh stores the normal that the kernel calculates
    from the positions of its vertices *)
Definition normals_updated `{Imports} (bm : BMesh) : Prop :=
  forall j g, m_faces bm !! j = Some (Some g) ->
    f_normal g = calc_normal Vector_normalize bm (f_verts g).

(** the normal of the extruded face that line 49 reads: the kernel has
    calculated it on the copy of the face, which lies on the face *)
Definition extruded_normal `{Imports} (bm : BMesh) (f : BMFace) : Vector :=
  calc_normal Vector_normalize bm (f_verts f).

(** the positions of the vertices of the cap after the translation of
    line 49 *)
Definition cap_positions `{Imports} (bm : BMesh) (f : BMFace) (depth : Q)
  : list Vector :=
  (fun c => add c (scale depth (extruded_normal bm f))) <$> positions bm (f_verts f).

(** the normal of the cap that line 67 reads: the kernel has calculated
    it again after the translation *)
Definition cap_normal `{Imports} (bm : BMesh) (f : BMFace) (depth : Q) : Vector :=
  Vector_normalize (face_normal_vector (cap_positions bm f depth)).

(** ** Vocabulary of the geometry *)

(** the effect of a translation by [d] on one term of Newell's sum, for
    an edge of direction [t] *)
Definition twist (d t : Vector) : Vector :=
  vec (2 * vz d * vy t) (2 * vx d * vz t) (2 * vy d * vx t).

(** the sum of a list of vectors *)
Definition vsum (l : list Vector) : Vector := fold_left add l zero.

(** Newell's sum along a path of positions *)
Fixpoint psum (l : list Vector) : Vector :=
  match l with
  | a :: (b :: _) as r => add (newell_cross a b) (psum r)
  | _ => zero
  end.

(** Newell's sum around a boundary, as [face_normal_vector] has it *)
Definition newell_sum (cs : list Vector) : Vector :=
  fold_left add (zip_with newell_cross (rotate (length cs - 1) cs) cs) zero.

(** the mesh that [getInitialShape] leaves *)
Definition initial_mesh `{Imports} (bm : BMesh) (f : nat) (x : BMFace) : BMesh :=
  if Qltb (vz (f_normal x)) 0
  then normals_update Vector_normalize (set_face bm f (Some (flip x)))
  else bm.

(** ** Vocabulary of the further properties *)

(** every selector of [pro] *)
Definition selectors : list pro.Selector :=
  [pro.front; pro.back; pro.left; pro.right; pro.top; pro.bottom;
   pro.side; pro.all].

(** the selector of the opposite direction *)
Definition opposite (s : pro.Selector) : pro.Selector :=
  match s with
  | pro.front => pro.back | pro.back => pro.front
  | pro.left => pro.right | pro.right => pro.left
  | pro.top => pro.bottom | pro.bottom => pro.top
  | pro.side => pro.side | pro.all => pro.all
  end.

(** the number of the filed shapes that satisfy [P], counted over all the
    buckets of a dictionary returned by [comp] *)
Definition filed_with (P : Shape2d -> bool) (res : gmap pro.Selector (list Shape2d))
  : nat :=
  sum_list ((fun k => length (filter (fun s => P s = true) (default [] (res !! k))))
              <$> selectors).

(** [split] into [n] cuts on a mesh that had [nv] vertices: the vertex at
    position [t] of an edge that runs from [origin] to [end_]; [side] is 0
    for the reference edge and 1 for the opposite edge. Position 0 is the
    origin of the edge, position [n] its end, a position [t] in between is
    the vertex created for the cut [t - 1]. *)
Definition cut_vertex (nv origin end_ side n t : nat) : nat :=
  if decide (t = 0) then origin
  else if decide (n <= t) then end_
  else nv + 2 * (t - 1) + side.

(** the boundary of the face that [split] creates for the cut [t]
    (lines 152 and 158) *)
Definition tile (direction : pro.Axis) (nv o1 e1 o2 e2 n t : nat) : list nat :=
  let a := cut_vertex nv o1 e1 0 n in
  let b := cut_vertex nv o2 e2 1 n in
  if decide (direction = pro.x) then [a t; a (S t); b (S t); b t]
  else [b t; a t; a (S t); b (S t)].

(** the four vertices [(origin1, end1, end2, origin2)] that [split] takes
    from a boundary that runs v0, v1, v2, v3, v4 from the first loop on *)
Definition split_corners (direction : pro.Axis) (v0 v1 v2 v3 v4 : nat)
  : nat * nat * nat * nat :=
  if decide (direction = pro.x) then (v0, v1, v2, v3) else (v1, v2, v3, v4).

(** further sample values *)
Module more.

(** a mesh without a face *)
Definition empty : BMesh := mkMesh [] [].

(** [sample.corner] after its wall was removed from the mesh *)
Definition corner_removed : BMesh := set_face sample.corner 1 None.

(** the rectangle [sample.lot] together with the two faces of a split in
    the middle of its first edge, as [bm.faces.new] leaves them: with a
    zero normal *)
Definition halves : BMesh :=
  mkMesh (sample.corners ++ [vec 5 0 0; vec 5 4 0])
         [Some (mkFace [0; 1; 2; 3] (vec 0 0 1));
          Some (mkFace [0; 4; 5; 3] zero);
          Some (mkFace [4; 1; 2; 5] zero)].

Definition halves3d : Shape3d :=
  mkShape3d [sample.shape RectangleClass 1 0; sample.shape RectangleClass 2 4]
            (0, 0) 0 None.

(** the bottom and the top of a slab of height 3 on [sample.lot] *)
Definition slab : BMesh :=
  mkMesh (sample.corners ++ [vec 0 0 3; vec 10 0 3; vec 10 4 3; vec 0 4 3])
         [Some (mkFace [0; 3; 2; 1] (vec 0 0 (-1)));
          Some (mkFace [4; 5; 6; 7] (vec 0 0 1))].

Definition slab3d : Shape3d :=
  mkShape3d [sample.shape Shape2dClass 0 0; sample.shape Shape2dClass 1 4]
            (0, 0) 0 None.

(** the rectangle [sample.lot], counter-clockwise seen from above, with a
    stored normal that points down: the stored normal is out of date *)
Definition stale : BMesh :=
  mkMesh sample.corners [Some (mkFace [0; 1; 2; 3] (vec 0 0 (-1)))].

(** the rectangle [sample.lot] with a zero normal, as [bm.faces.new]
    leaves a face *)
Definition blank : BMesh :=
  mkMesh sample.corners [Some (mkFace [0; 1; 2; 3] zero)].

(** the triangle [sample.triangle] facing down *)
Definition triangle_down : BMesh :=
  mkMesh [vec 0 0 0; vec 10 0 0; vec 0 4 0]
         [Some (mkFace [0; 2; 1] (vec 0 0 (-1)))].

(** the pentagon [sample.pentagon] facing down *)
Definition pentagon_down : BMesh :=
  mkMesh [vec 0 0 0; vec 10 0 0; vec 10 4 0; vec 5 6 0; vec 0 4 0]
         [Some (mkFace [0; 4; 3; 2; 1] (vec 0 0 (-1)))].

(** the sizes 1, 2, 1 with the rules 7, 8, 9 *)
Definition sizes : list (Q * nat) := [(1%Q, 7); (2%Q, 8); (1%Q, 9)].

End more.

(** * Properties *)

Lemma Qltb_lt (a b : Q) : Qltb a b = true <-> (a < b)%Q.
Proof. unfold Qltb, Qlt. apply Z.ltb_lt. Qed.

Lemma Qltb_ge (a b : Q) : Qltb a b = false <-> (b <= a)%Q.
Proof. unfold Qltb, Qle. apply Z.ltb_ge. Qed.

Lemma Qgtb_gt (a b : Q) : Qgtb a b = true <-> (b < a)%Q.
Proof. apply Qltb_lt. Qed.

Lemma Qgtb_le (a b : Q) : Qgtb a b = false <-> (a <= b)%Q.
Proof. apply Qltb_ge. Qed.

Lemma bind_Ok {A B} (m : result A) (f : A -> result B) (a : A) :
  m = Ok a -> m ≫= f = f a.
Proof. by intros ->. Qed.

Section comp.
Context `{Imports}.

Lemma append_lookup res o s k :
  Shape3d.append res o s !! k =
    if decide (o = Some k) then Some (default [] (res !! k) ++ [s]) else res !! k.
Proof.
  unfold Shape3d.append. destruct o as [t|]; [|by rewrite decide_False].
  destruct (decide (Some t = Some k)) as [[= ->]|Hne].
  - rewrite lookup_insert_eq.
    case_decide as Hs; [done|].
    rewrite lookup_insert_eq.
    apply eq_None_not_Some in Hs. by rewrite Hs.
  - rewrite lookup_insert_ne by congruence.
    case_decide; [done|]. rewrite lookup_insert_ne; [done|congruence].
Qed.

Lemma comp_loop_spec bm R parts l res :
  Forall (fun s => exists n, face_normal bm (face s) = Ok n) l ->
  exists res', Shape3d.comp_loop bm R parts l res = Ok res' /\
    forall k, res' !! k =
      match filter (fun s => key bm R parts s = Some k) l with
      | [] => res !! k
      | b => Some (default [] (res !! k) ++ b)
      end.
Proof.
  intros Hl. revert res. induction Hl as [|s l [n Hn] _ IH]; intros res.
  - exists res. done.
  - simpl. rewrite Hn. simpl.
    destruct (Shape3d.classify (mulvec R n)) as [t v] eqn:Hc.
    destruct (IH (Shape3d.append res (Shape3d.select parts t v) s)) as (res' & -> & Hres').
    exists res'. split; [done|]. intros k. rewrite Hres', append_lookup.
    rewrite filter_cons.
    assert (key bm R parts s = Shape3d.select parts t v) as Hk.
    { unfold key, tentative. by rewrite Hn, Hc. }
    rewrite Hk.
    destruct (decide (Shape3d.select parts t v = Some k)) as [_|_].
    + simpl. destruct (filter _ l); simpl; [done|]. by rewrite <- app_assoc.
    + done.
Qed.


Lemma select_elem parts t v k : Shape3d.select parts t v = Some k -> k ∈ parts.
Proof.
  unfold Shape3d.select. intros Hs.
  repeat (case_decide || case_bool_decide || simplify_eq/= || done).
  all: destruct v; simplify_eq/=; done.
Qed.

Lemma classify_tentative n :
  (Shape3d.classify n).1 <> pro.side /\ (Shape3d.classify n).1 <> pro.all.
Proof. unfold Shape3d.classify. by repeat case_match. Qed.

Lemma getRotationMatrix_shapes bm self self' R :
  Shape3d.getRotationMatrix bm self = Ok (self', R) -> shapes self' = shapes self.
Proof.
  unfold Shape3d.getRotationMatrix. destruct (rotationMatrix self).
  - by intros [= <- _].
  - destruct (rotation_zNormal_xHorizontal _ _ _); simpl; [|done..].
    by intros [= <- _].
Qed.

(** C7. In [comp] a constituent shape whose tentative selector is not
    requested is filed under [side] when it is vertical and [side] is
    requested, else under [all] when [all] is requested, and is left out
    otherwise without an error. The bucket of a key holds the constituent
    shapes filed under it, in their order; with the selectors [{all}] the
    only bucket is the one of [all] and it is the list of the constituent
    shapes; every key of the dictionary is a requested selector and its
    bucket holds a shape. *)
Theorem comp_fallback_buckets bm self self' R parts :
  Forall (fun s => exists n, face_normal bm (face s) = Ok n) (shapes self) ->
  Shape3d.getRotationMatrix bm self = Ok (self', R) ->
  exists res, Shape3d.comp bm self parts = Ok (self', res) /\
    (forall s t v, s ∈ shapes self -> tentative bm R s = Some (t, v) ->
       t ∉ parts ->
       (v = true -> pro.side ∈ parts ->
          exists l, res !! pro.side = Some l /\ s ∈ l) /\
       (~ (v = true /\ pro.side ∈ parts) -> pro.all ∈ parts ->
          exists l, res !! pro.all = Some l /\ s ∈ l) /\
       (~ (v = true /\ pro.side ∈ parts) -> pro.all ∉ parts ->
          forall k l, res !! k = Some l -> s ∉ l)) /\
    (forall k, res !! k =
       match filter (fun s => key bm R parts s = Some k) (shapes self) with
       | [] => None
       | b => Some b
       end) /\
    (parts = [pro.all] ->
       res = match shapes self with
             | [] => ∅
             | b => {[ pro.all := b ]}
             end) /\
    (forall k l, res !! k = Some l ->
       k ∈ parts /\ exists s, s ∈ shapes self /\ s ∈ l /\ key bm R parts s = Some k).
Proof.
  intros Hl HR. pose proof (getRotationMatrix_shapes _ _ _ _ HR) as Hsh.
  unfold Shape3d.comp. rewrite HR. simpl. rewrite Hsh.
  destruct (comp_loop_spec bm R parts (shapes self) ∅ Hl) as (res & -> & Hres).
  exists res. split; [done|].
  assert (forall k, res !! k =
       match filter (fun s => key bm R parts s = Some k) (shapes self) with
       | [] => None
       | b => Some b
       end) as Hb.
  { intros k. rewrite Hres, lookup_empty. by destruct (filter _ _). }
  assert (forall s k, s ∈ shapes self -> key bm R parts s = Some k ->
            exists l, res !! k = Some l /\ s ∈ l) as Hin.
  { intros s k Hs Hk. rewrite Hb.
    assert (s ∈ filter (fun s => key bm R parts s = Some k) (shapes self)) as Hf
      by by apply list_elem_of_filter.
    destruct (filter _ _) as [|a b]; [by apply not_elem_of_nil in Hf|eauto]. }
  assert (forall k l, res !! k = Some l ->
            forall s, s ∈ l <-> key bm R parts s = Some k /\ s ∈ shapes self) as Hout.
  { intros k l Hk s. rewrite Hb in Hk.
    rewrite <- (list_elem_of_filter (fun s => key bm R parts s = Some k)).
    destruct (filter _ _) as [|a b]; [done|]. by simplify_eq. }
  split; [|split; [done|split]].
  - intros s t v Hs Ht Hnt.
    assert (key bm R parts s = Shape3d.select parts t v) as Hk
      by (unfold key; by rewrite Ht).
    unfold Shape3d.select in Hk. rewrite decide_False in Hk by done.
    split; [|split].
    + intros -> Hside. apply Hin; [done|].
      by rewrite Hk, bool_decide_true.
    + intros Hno Hall. apply Hin; [done|]. rewrite Hk.
      case_bool_decide; destruct v; simpl; try by rewrite decide_True.
      by destruct Hno.
    + intros Hno Hall k l Hkl Hsl. apply (Hout _ _ Hkl) in Hsl as [Hsk _].
      rewrite Hk in Hsk.
      case_bool_decide; destruct v; simpl in Hsk;
        try (by rewrite decide_False in Hsk).
      by destruct Hno.
  - intros ->.
    assert (forall s, s ∈ shapes self -> key bm R [pro.all] s = Some pro.all) as Hall.
    { intros s Hs. rewrite Forall_forall in Hl. destruct (Hl s Hs) as [n Hn].
      unfold key, tentative. rewrite Hn.
      destruct (classify_tentative (mulvec R n)) as [H1 H2].
      destruct (Shape3d.classify (mulvec R n)) as [t v]. simpl in *.
      by destruct t, v. }
    apply map_eq. intros k. rewrite Hb.
    destruct (decide (k = pro.all)) as [->|Hne].
    + assert (filter (fun s => key bm R [pro.all] s = Some pro.all) (shapes self)
              = shapes self) as ->.
      { clear -Hall. induction (shapes self) as [|a l IH]; [done|].
        rewrite filter_cons, decide_True by (apply Hall; by left).
        f_equal. apply IH. intros s Hs. apply Hall. by right. }
      destruct (shapes self); [done|]. by rewrite lookup_singleton_eq.
    + assert (filter (fun s => key bm R [pro.all] s = Some k) (shapes self)
              = []) as ->.
      { clear -Hall Hne. induction (shapes self) as [|a l IH]; [done|].
        rewrite filter_cons, decide_False.
        - apply IH. intros s Hs. apply Hall. by right.
        - rewrite Hall by (by left). congruence. }
      destruct (shapes self); [done|]. by rewrite lookup_singleton_ne.
  - intros k l Hkl.
    assert (exists s, s ∈ l) as [s Hs].
    { rewrite Hb in Hkl. destruct (filter _ _) as [|a b] eqn:E; [done|].
      simplify_eq. exists a. by left. }
    pose proof (proj1 (Hout _ _ Hkl s) Hs) as [Hs1 Hs2].
    split; [|by eauto].
    unfold key in Hs1. destruct (tentative bm R s) as [[t v]|]; [|done].
    by eapply select_elem.
Qed.

End comp.

Section more.
Context `{Imports}.

Lemma comp_spec bm self self' R parts :
  Forall (fun s => exists n, face_normal bm (face s) = Ok n) (shapes self) ->
  Shape3d.getRotationMatrix bm self = Ok (self', R) ->
  exists res, Shape3d.comp bm self parts = Ok (self', res) /\
    forall k, res !! k =
       match filter (fun s => key bm R parts s = Some k) (shapes self) with
       | [] => None
       | b => Some b
       end.
Proof.
  intros Hl HR. pose proof (getRotationMatrix_shapes _ _ _ _ HR) as Hsh.
  unfold Shape3d.comp. rewrite HR. simpl. rewrite Hsh.
  destruct (comp_loop_spec bm R parts (shapes self) ∅ Hl) as (res & -> & Hres).
  exists res. split; [done|].
  intros k. rewrite Hres, lookup_empty. by destruct (filter _ _).
Qed.

Lemma comp_filed bm self self' R parts s k :
  Forall (fun s => exists n, face_normal bm (face s) = Ok n) (shapes self) ->
  Shape3d.getRotationMatrix bm self = Ok (self', R) ->
  s ∈ shapes self -> key bm R parts s = Some k ->
  exists res l, Shape3d.comp bm self parts = Ok (self', res) /\
    res !! k = Some l /\ s ∈ l.
Proof.
  intros Hl HR Hs Hk.
  destruct (comp_spec bm self self' R parts Hl HR) as (res & Hc & Hb).
  exists res. rewrite Hb.
  assert (s ∈ filter (fun s => key bm R parts s = Some k) (shapes self)) as Hf
    by by apply list_elem_of_filter.
  destruct (filter _ _) as [|a b]; [by apply not_elem_of_nil in Hf|eauto].
Qed.

Lemma classify_vertical n :
  (Qabs (vz n) <= horizontalFaceThreshold)%Q ->
  Shape3d.classify n =
    (if Qgtb (Qabs (vx n)) (Qabs (vy n))
     then (if Qgtb (vx n) 0 then pro.front else pro.back)
     else (if Qgtb (vy n) 0 then pro.right else pro.left), true).
Proof.
  intros Hz. unfold Shape3d.classify.
  by rewrite (proj2 (Qgtb_le _ _) Hz).
Qed.

(** C10. In [comp] a constituent face whose normal in the coordinate
    system of the 3D shape has |z| equal to the threshold 0.70711 is
    vertical: with the selectors [{side}] it is filed under [side]. A
    vertical face with |x| equal to |y| is classified along the y axis:
    [right] if y > 0, else [left], whatever the sign of x. *)
Theorem comp_threshold_ties bm self self' R s n :
  Forall (fun s => exists n, face_normal bm (face s) = Ok n) (shapes self) ->
  Shape3d.getRotationMatrix bm self = Ok (self', R) ->
  s ∈ shapes self -> face_normal bm (face s) = Ok n ->
  (Qabs (vz (mulvec R n)) == horizontalFaceThreshold ->
     (Shape3d.classify (mulvec R n)).2 = true /\
     exists res l, Shape3d.comp bm self [pro.side] = Ok (self', res) /\
       res !! pro.side = Some l /\ s ∈ l) /\
  ((Qabs (vz (mulvec R n)) <= horizontalFaceThreshold)%Q ->
   Qabs (vx (mulvec R n)) == Qabs (vy (mulvec R n)) ->
     ((0 < vy (mulvec R n))%Q ->
        Shape3d.classify (mulvec R n) = (pro.right, true)) /\
     ((vy (mulvec R n) <= 0)%Q ->
        Shape3d.classify (mulvec R n) = (pro.left, true)) /\
     exists res l,
       Shape3d.comp bm self [pro.front; pro.back; pro.right; pro.left]
         = Ok (self', res) /\
       res !! (if Qgtb (vy (mulvec R n)) 0 then pro.right else pro.left) = Some l /\
       s ∈ l).
Proof.
  intros Hl HR Hs Hn. split.
  - intros Hz.
    assert (Qabs (vz (mulvec R n)) <= horizontalFaceThreshold)%Q as Hle
      by (rewrite Hz; apply Qle_refl).
    rewrite (classify_vertical _ Hle). split; [done|].
    apply (comp_filed _ _ _ R); [done..|].
    unfold key, tentative. rewrite Hn, (classify_vertical _ Hle).
    by repeat case_match.
  - intros Hle Hxy.
    assert (Qgtb (Qabs (vx (mulvec R n))) (Qabs (vy (mulvec R n))) = false) as Hg.
    { apply Qgtb_le. rewrite Hxy. apply Qle_refl. }
    rewrite (classify_vertical _ Hle), Hg.
    split; [|split].
    + intros Hy. by rewrite (proj2 (Qgtb_gt _ _) Hy).
    + intros Hy. by rewrite (proj2 (Qgtb_le _ _) Hy).
    + apply (comp_filed _ _ _ R); [done..|].
      unfold key, tentative. rewrite Hn, (classify_vertical _ Hle), Hg.
      by case_match.
Qed.

Lemma init_inv c bm l self :
  Shape2d.__init__ c bm l = Ok self ->
  self = mkShape2d c l.1 l l.2 None /\ exists o, co bm l.2 = Ok o.
Proof.
  unfold Shape2d.__init__, loop_face, loop_vert.
  destruct (check_loop bm l); simpl; [|done..].
  destruct (co bm l.2) eqn:E; simpl; [|done..].
  intros [= <-]. eauto.
Qed.

(** C8. The matrix of a planar shape is the product of the inverse
    rotation and of the inverse translation, in this order: the frame maps
    a point by first translating it by minus the origin and then rotating
    it. For a rotation without translation part the frame maps the
    position of the first vertex of the boundary, the origin of the shape,
    to (0, 0, 0). *)
Theorem getMatrix_frame c bm l self n R :
  Shape2d.__init__ c bm l = Ok self ->
  Shape2d.getNormal bm self = Ok n ->
  rotation_zNormal_xHorizontal bm l n = Ok R ->
  exists o self',
    co bm l.2 = Ok o /\
    Shape2d.getMatrix bm self = Ok (self', mul R (Translation (neg o))) /\
    matrix self' = Some (mul R (Translation (neg o))) /\
    Shape2d.getMatrix bm self' = Ok (self', mul R (Translation (neg o))) /\
    (forall p, veq (mulvec (Translation (neg o)) p) (sub p o)) /\
    (forall p, veq (mulvec (mul R (Translation (neg o))) p)
                   (mulvec R (mulvec (Translation (neg o)) p))) /\
    (linear R -> veq (mulvec (mul R (Translation (neg o))) o) zero).
Proof.
  intros Hi Hn HR. destruct (init_inv _ _ _ _ Hi) as [-> [o Ho]].
  exists o. eexists. split; [done|].
  unfold Shape2d.getMatrix at 1. simpl in *. rewrite Ho. simpl.
  rewrite Hn. simpl. rewrite HR. simpl.
  split; [reflexivity|]. split; [done|]. split; [done|].
  destruct R as [[a0 a1 a2 a3] [b0 b1 b2 b3] [d0 d1 d2 d3] [e0 e1 e2 e3]].
  destruct o as [ox oy oz].
  split; [|split].
  - intros [px py pz]. unfold veq, mulvec, Translation, neg, sub, dot.
    cbn [vx vy vz c0 c1 c2 c3 r0 r1 r2 r3]. repeat split; ring.
  - intros [px py pz]. unfold veq, mulvec, mul, mulrow, col, Translation, neg, dot.
    cbn [vx vy vz c0 c1 c2 c3 r0 r1 r2 r3]. repeat split; ring.
  - unfold linear, veq, mulvec, mul, mulrow, col, Translation, neg, dot, zero.
    cbn [vx vy vz c0 c1 c2 c3 r0 r1 r2 r3]. intros (Ha & Hb & Hd).
    repeat split; ring_simplify; assumption.
Qed.

End more.


(** ** Cycles of vertices *)

Lemma cnext_lt n i : i < n -> cnext n i < n.
Proof. unfold cnext. case_decide; lia. Qed.

Lemma cnext_inj n i j : i < n -> j < n -> cnext n i = cnext n j -> i = j.
Proof. unfold cnext. repeat case_decide; lia. Qed.

Lemma cnext_ne n i : 2 <= n -> i < n -> cnext n i <> i.
Proof. unfold cnext. case_decide; lia. Qed.

Lemma cnext2_ne n i : 3 <= n -> i < n -> cnext n (cnext n i) <> i.
Proof. unfold cnext. repeat case_decide; lia. Qed.

Lemma cnext_pred n i : i < n -> exists p, p < n /\ cnext n p = i.
Proof.
  intros Hi. destruct i as [|i].
  - exists (n - 1). unfold cnext. case_decide; lia.
  - exists i. unfold cnext. case_decide; lia.
Qed.

Lemma cycle_next_lookup vs i v :
  NoDup vs -> vs !! i = Some v -> cycle_next vs v = vs !! cnext (length vs) i.
Proof.
  intros Hnd Hi. unfold cycle_next.
  destruct (list_find (fun x => x = v) vs) as [[j y]|] eqn:E.
  - apply list_find_Some in E as (Hj & -> & _).
    by rewrite (NoDup_lookup _ _ _ _ Hnd Hj Hi).
  - apply list_find_None in E. rewrite Forall_forall in E.
    destruct (E v); [|done]. by eapply list_elem_of_lookup_2.
Qed.

Lemma cycle_next_dedge vs a b :
  NoDup vs -> cycle_next vs a = Some b <-> dedge vs a b.
Proof.
  intros Hnd. split.
  - unfold cycle_next.
    destruct (list_find (fun x => x = a) vs) as [[j y]|] eqn:E; [|done].
    apply list_find_Some in E as (Hj & -> & _). intros Hb. by exists j.
  - intros (i & Ha & Hb). by rewrite (cycle_next_lookup _ _ _ Hnd Ha).
Qed.

Lemma dedge_l vs a b : dedge vs a b -> a ∈ vs.
Proof. intros (i & Ha & _). by eapply list_elem_of_lookup_2. Qed.

Lemma dedge_r vs a b : dedge vs a b -> b ∈ vs.
Proof. intros (i & _ & Hb). by eapply list_elem_of_lookup_2. Qed.

Lemma dedge_succ vs a : a ∈ vs -> exists b, dedge vs a b.
Proof.
  intros (i & Hi)%list_elem_of_lookup_1.
  pose proof (lookup_lt_Some _ _ _ Hi) as Hlt.
  destruct (lookup_lt_is_Some_2 vs (cnext (length vs) i)) as [b Hb].
  { by apply cnext_lt. }
  exists b, i. done.
Qed.

Lemma dedge_pred vs a : a ∈ vs -> exists b, dedge vs b a.
Proof.
  intros (i & Hi)%list_elem_of_lookup_1.
  pose proof (lookup_lt_Some _ _ _ Hi) as Hlt.
  destruct (cnext_pred _ _ Hlt) as (p & Hp & Hpi).
  destruct (lookup_lt_is_Some_2 vs p Hp) as [b Hb].
  exists b, p. by rewrite Hpi.
Qed.

Lemma dedge_ne vs a b : NoDup vs -> 2 <= length vs -> dedge vs a b -> a <> b.
Proof.
  intros Hnd Hn (i & Ha & Hb) <-.
  pose proof (lookup_lt_Some _ _ _ Ha).
  pose proof (NoDup_lookup _ _ _ _ Hnd Ha Hb) as He.
  symmetry in He. by apply cnext_ne in He.
Qed.

Lemma dedge_asym vs a b :
  NoDup vs -> 3 <= length vs -> dedge vs a b -> dedge vs b a -> False.
Proof.
  intros Hnd Hn (i & Ha & Hb) (j & Hb' & Ha').
  pose proof (lookup_lt_Some _ _ _ Ha).
  pose proof (NoDup_lookup _ _ _ _ Hnd Hb Hb') as <-.
  pose proof (NoDup_lookup _ _ _ _ Hnd Ha Ha') as He.
  symmetry in He. by apply cnext2_ne in He.
Qed.

Lemma flip_verts_lookup f j :
  j < length (f_verts f) ->
  f_verts (flip f) !! j =
    f_verts f !! (if decide (j = 0) then 0 else length (f_verts f) - j).
Proof.
  unfold flip. simpl. destruct (f_verts f) as [|v r]; [simpl; lia|].
  simpl. intros Hj. destruct j as [|j]; [done|]. simpl.
  rewrite reverse_lookup by lia.
  replace (length r - S j) with (length r - j - 1) by lia.
  destruct (length r - j) as [|k] eqn:E; [lia|]. simpl. f_equal. lia.
Qed.

Lemma flip_verts_length f : length (f_verts (flip f)) = length (f_verts f).
Proof.
  unfold flip. simpl. destruct (f_verts f); [done|].
  simpl. by rewrite length_reverse.
Qed.

Lemma flip_verts_NoDup f : NoDup (f_verts f) -> NoDup (f_verts (flip f)).
Proof.
  unfold flip. simpl. destruct (f_verts f); [done|].
  rewrite !NoDup_cons, elem_of_reverse. intros [? ?]. split; [done|].
  by rewrite reverse_Permutation.
Qed.

Lemma dedge_flip f a b :
  dedge (f_verts (flip f)) a b <-> dedge (f_verts f) b a.
Proof.
  unfold dedge. rewrite flip_verts_length.
  set (n := length (f_verts f)).
  split.
  - intros (j & Ha & Hb).
    assert (j < n) as Hj.
    { apply lookup_lt_Some in Ha. by rewrite flip_verts_length in Ha. }
    rewrite flip_verts_lookup in Ha by done.
    rewrite flip_verts_lookup in Hb by by apply cnext_lt.
    fold n in Ha, Hb.
    exists (if decide (cnext n j = 0) then 0 else n - cnext n j).
    split; [done|]. rewrite <- Ha. f_equal.
    unfold cnext. repeat case_decide; lia.
  - intros (i & Hb & Ha).
    assert (i < n) as Hi by by apply lookup_lt_Some in Hb.
    exists (if decide (cnext n i = 0) then 0 else n - cnext n i).
    assert ((if decide (cnext n i = 0) then 0 else n - cnext n i) < n) as Hlt.
    { unfold cnext. repeat case_decide; lia. }
    rewrite !flip_verts_lookup by (done || by apply cnext_lt).
    fold n. split.
    + rewrite <- Ha. f_equal. unfold cnext. repeat case_decide; lia.
    + rewrite <- Hb. f_equal. unfold cnext. repeat case_decide; lia.
Qed.

Lemma dedge_seq nv n a b :
  dedge (seq nv n) a b <-> exists i, i < n /\ a = nv + i /\ b = nv + cnext n i.
Proof.
  unfold dedge. rewrite length_seq. split.
  - intros (i & Ha & Hb). apply lookup_seq in Ha as [-> ?].
    apply lookup_seq in Hb as [-> ?]. eauto.
  - intros (i & Hi & -> & ->). exists i.
    rewrite !lookup_seq_lt; [done| |done]. by apply cnext_lt.
Qed.

Lemma dedge_4 v0 v1 v2 v3 a b :
  dedge [v0; v1; v2; v3] a b <->
  (a = v0 /\ b = v1) \/ (a = v1 /\ b = v2) \/ (a = v2 /\ b = v3) \/ (a = v3 /\ b = v0).
Proof.
  unfold dedge. simpl. split.
  - intros (i & Ha & Hb).
    destruct i as [|[|[|[|i]]]]; simplify_eq/=; auto.
  - intros [[-> ->]|[[-> ->]|[[-> ->]|[-> ->]]]];
      [by exists 0|by exists 1|by exists 2|by exists 3].
Qed.

(** ** Loops and edges of a mesh *)

Lemma mk_edge_eq a b c d :
  mk_edge a b = mk_edge c d <-> (a = c /\ b = d) \/ (a = d /\ b = c).
Proof. unfold mk_edge. split; [intros [= ? ?]; lia|intros [[-> ->]|[-> ->]]; f_equal; lia]. Qed.

Lemma get_face_lookup bm j g :
  get_face bm j = Ok g <-> m_faces bm !! j = Some (Some g).
Proof.
  unfold get_face. destruct (m_faces bm !! j) as [[x|]|]; split; intros; by simplify_eq.
Qed.

Lemma loop_ops bm j g a b :
  get_face bm j = Ok g -> NoDup (f_verts g) -> dedge (f_verts g) a b ->
  link_loop_next bm (j, a) = Ok (j, b) /\
  loop_edge bm (j, a) = Ok (mk_edge a b) /\
  loop_vert bm (j, a) = Ok a /\
  loop_face bm (j, a) = Ok j.
Proof.
  intros Hg Hnd Hd.
  assert (link_loop_next bm (j, a) = Ok (j, b)) as Hn.
  { unfold link_loop_next. simpl. rewrite Hg. simpl.
    by rewrite (proj2 (cycle_next_dedge _ _ _ Hnd) Hd). }
  unfold loop_edge, loop_vert, loop_face, check_loop. rewrite Hn. simpl.
  rewrite Hg. simpl. rewrite decide_True by by eapply dedge_l. done.
Qed.

Lemma elem_of_edge_link_loops bm e j a :
  (j, a) ∈ edge_link_loops bm e <->
  exists g b, m_faces bm !! j = Some (Some g) /\ a ∈ f_verts g /\
    cycle_next (f_verts g) a = Some b /\ mk_edge a b = e.
Proof.
  unfold edge_link_loops. cbv zeta. rewrite elem_of_rotate.
  unfold edge_loops. rewrite list_elem_of_join. split.
  - intros (l & Hl & (i & o & -> & Hi)%elem_of_lookup_imap).
    destruct o as [g|]; [|by apply not_elem_of_nil in Hl].
    unfold face_loops_on in Hl.
    apply list_elem_of_fmap in Hl as (v & [= -> ->] & Hv).
    apply list_elem_of_filter in Hv as [Hv1 Hv2].
    destruct (cycle_next (f_verts g) v) as [b|] eqn:E; [|done].
    simpl in Hv1. exists g, b. split_and!; try done. congruence.
  - intros (g & b & Hg & Ha & Hb & He).
    exists (face_loops_on e j g). split.
    + unfold face_loops_on. apply list_elem_of_fmap. exists a. split; [done|].
      apply list_elem_of_filter. split; [|done]. rewrite Hb. simpl. by f_equal.
    + apply elem_of_lookup_imap. exists j, (Some g). done.
Qed.

Lemma NoDup_join_imap {A} (g : nat -> A -> list (nat * nat)) (l : list A) :
  (forall i x, NoDup (g i x)) -> (forall i x p, p ∈ g i x -> p.1 = i) ->
  NoDup (mjoin (imap g l)).
Proof.
  intros Hnd Hfst. induction l as [|x l IH] using rev_ind; [constructor|].
  rewrite imap_app, join_app. simpl. rewrite app_nil_r.
  apply NoDup_app. split; [done|]. split; [|apply Hnd].
  intros p (k & Hp & (i & o & -> & Hi)%elem_of_lookup_imap)%list_elem_of_join Hp'.
  apply Hfst in Hp, Hp'. apply lookup_lt_Some in Hi. simpl in *. lia.
Qed.

Lemma rotate_Permutation {A} n (l : list A) : rotate n l ≡ₚ l.
Proof.
  unfold rotate. rewrite Permutation_app_comm. by rewrite take_drop.
Qed.

(** a rotation by all positions but one brings the last element to the
    front *)
Lemma rotate_last {A} (l : list A) p :
  last l = Some p -> exists rest, rotate (length l - 1) l = p :: rest.
Proof.
  intros Hl. destruct l as [|a l] using rev_ind; [done|].
  rewrite last_snoc in Hl. injection Hl as ->. exists l.
  unfold rotate. rewrite length_app. simpl.
  replace (length l + 1 - 1) with (length l) by lia.
  rewrite Nat.mod_small by lia.
  by rewrite drop_app_length, take_app_length.
Qed.

Lemma join_imap_last {A B} (g : nat -> A -> list B) (l : list A) j x p r :
  l !! j = Some x -> g j x = r ++ [p] ->
  (forall k y, j < k -> l !! k = Some y -> g k y = []) ->
  last (mjoin (imap g l)) = Some p.
Proof.
  induction l as [|y l IH] using rev_ind; intros Hj Hg Hnil; [done|].
  rewrite imap_app, join_app. simpl. rewrite app_nil_r, Nat.add_0_r.
  destruct (decide (j = length l)) as [->|Hne].
  - rewrite lookup_app_r, Nat.sub_diag in Hj by lia. simpl in Hj.
    injection Hj as ->. by rewrite Hg, app_assoc, last_snoc.
  - pose proof (lookup_lt_Some _ _ _ Hj) as Hlt.
    rewrite length_app in Hlt. simpl in Hlt.
    rewrite lookup_app_l in Hj by lia.
    rewrite (Hnil (length l) y); [|lia|].
    + rewrite app_nil_r. apply IH; [done..|].
      intros k z Hk Hz. apply Hnil; [done|].
      rewrite lookup_app_l; [done|]. by eapply lookup_lt_Some.
    + rewrite lookup_app_r, Nat.sub_diag by lia. done.
Qed.

Lemma face_loops_on_link bm e j g p :
  m_faces bm !! j = Some (Some g) -> p ∈ face_loops_on e j g ->
  p ∈ edge_link_loops bm e /\ p.1 = j.
Proof.
  intros Hg Hp. split.
  - unfold edge_link_loops. cbv zeta. apply elem_of_rotate.
    unfold edge_loops. apply list_elem_of_join. exists (face_loops_on e j g).
    split; [done|]. apply elem_of_lookup_imap. by exists j, (Some g).
  - unfold face_loops_on in Hp. by apply list_elem_of_fmap in Hp as (v & -> & _).
Qed.

Lemma singleton_list {A} (l : list A) x :
  NoDup l -> x ∈ l -> (forall y, y ∈ l -> y = x) -> l = [x].
Proof.
  intros Hnd Hx Hall. destruct l as [|a [|b l]].
  - by apply not_elem_of_nil in Hx.
  - f_equal. apply Hall. by left.
  - exfalso. apply NoDup_cons in Hnd as [Hab _]. apply Hab.
    rewrite (Hall a), (Hall b); [by left|right; by left|by left].
Qed.

(** the loops around an edge start with the loop of the newest face on
    the edge *)
Lemma edge_link_loops_head bm e j g a :
  m_faces bm !! j = Some (Some g) -> face_loops_on e j g = [(j, a)] ->
  (forall k a', (k, a') ∈ edge_link_loops bm e -> k <= j) ->
  exists rest, edge_link_loops bm e = (j, a) :: rest.
Proof.
  intros Hg Hl Hmax. unfold edge_link_loops. cbv zeta. apply rotate_last.
  unfold edge_loops.
  eapply (join_imap_last _ _ j (Some g) _ []); [done|exact Hl|].
  intros k [h|] Hk Hh; [|done].
  destruct (face_loops_on e k h) as [|p q] eqn:E; [done|]. exfalso.
  assert (p ∈ face_loops_on e k h) as Hp by (rewrite E; left).
  destruct (face_loops_on_link bm e k h p Hh Hp) as [Hin Hpk].
  destruct p as [k' a']. simpl in Hpk. subst k'.
  assert (k <= j); [|lia]. by apply (Hmax k a').
Qed.

Lemma NoDup_edge_link_loops bm e :
  (forall i f, m_faces bm !! i = Some (Some f) -> NoDup (f_verts f)) ->
  NoDup (edge_link_loops bm e).
Proof.
  intros Hnd. unfold edge_link_loops. cbv zeta.
  rewrite rotate_Permutation. unfold edge_loops.
  pose (g := fun (i : nat) (o : option BMFace) =>
    match o with Some f => if decide (NoDup (f_verts f)) then face_loops_on e i f else [] | None => [] end).
  rewrite (imap_ext _ g).
  - apply NoDup_join_imap.
    + intros i [f|]; simpl; [|constructor]. case_decide; [|constructor].
      unfold face_loops_on. apply NoDup_fmap_2; [by intros ?? [=]|].
      by apply NoDup_filter.
    + intros i [f|] p; simpl; [|by intros ?%not_elem_of_nil].
      case_decide; [|by intros ?%not_elem_of_nil].
      unfold face_loops_on. by intros (v & -> & _)%list_elem_of_fmap.
  - intros i [f|] Hi; simpl; [|done]. rewrite decide_True; [done|]. by eapply Hnd.
Qed.

Lemma two_elems {A} (l : list A) (a b : A) :
  NoDup l -> a <> b -> (forall x, x ∈ l <-> x = a \/ x = b) ->
  l = [a; b] \/ l = [b; a].
Proof.
  intros Hnd Hab Hl.
  assert (a ∈ l) as Ha by (apply Hl; auto).
  assert (b ∈ l) as Hb by (apply Hl; auto).
  destruct l as [|x [|y [|z l]]].
  - by apply not_elem_of_nil in Ha.
  - apply list_elem_of_singleton in Ha, Hb. congruence.
  - apply NoDup_cons in Hnd as [Hxy%not_elem_of_cons _].
    assert (x = a \/ x = b) as Hx by (apply Hl; by left).
    assert (y = a \/ y = b) as Hy by (apply Hl; right; by left).
    destruct Hx as [->| ->], Hy as [->| ->]; auto; by destruct Hxy.
  - apply NoDup_cons in Hnd as [Hx1 Hnd]. apply NoDup_cons in Hnd as [Hy1 _].
    apply not_elem_of_cons in Hx1 as [? Hx1].
    apply not_elem_of_cons in Hx1 as [? _].
    apply not_elem_of_cons in Hy1 as [? _].
    assert (x = a \/ x = b) as Hx by (apply Hl; by left).
    assert (y = a \/ y = b) as Hy by (apply Hl; right; by left).
    assert (z = a \/ z = b) as Hz by (apply Hl; right; right; by left).
    destruct Hx as [->| ->], Hy as [->| ->], Hz as [->| ->]; congruence.
Qed.

Lemma edge_two bm e l1 l2 :
  (forall i f, m_faces bm !! i = Some (Some f) -> NoDup (f_verts f)) ->
  l1 <> l2 ->
  (forall l, l ∈ edge_link_loops bm e <-> l = l1 \/ l = l2) ->
  edge_link_loops bm e = [l1; l2] \/ edge_link_loops bm e = [l2; l1].
Proof. intros Hnd Hne Hl. apply two_elems; [by apply NoDup_edge_link_loops|done..]. Qed.

Lemma link_loops_two bm e l1 l2 :
  loop_edge bm l1 = Ok e -> l1 <> l2 ->
  edge_link_loops bm e = [l1; l2] \/ edge_link_loops bm e = [l2; l1] ->
  loop_link_loops bm l1 = Ok [l2].
Proof.
  intros He Hne Hl. unfold loop_link_loops. rewrite He. simpl.
  destruct Hl as [-> | ->]; simpl.
  - by rewrite decide_True.
  - rewrite decide_False by done. by rewrite decide_True.
Qed.

(** ** The mesh after the extrusion of a face

    [bm] is the mesh before the extrusion of its face [fi], [bm'] a mesh
    with the faces of the extrusion, whatever normals they store. *)

Lemma cycles_lookup (fs : list (option BMFace)) j c :
  cycles fs !! j = Some (Some c) <->
  exists g, fs !! j = Some (Some g) /\ f_verts g = c.
Proof.
  unfold cycles. rewrite list_lookup_fmap.
  destruct (fs !! j) as [[g|]|]; simpl; split.
  - intros [= <-]. eauto.
  - intros (g' & [= <-] & <-). done.
  - done.
  - by intros (g' & ? & _).
  - done.
  - by intros (g' & ? & _).
Qed.

Section extruded.
Variables (bm bm' : BMesh) (fi : nat) (f : BMFace).
Hypothesis Hwf : wf bm.
Hypothesis Hf : get_face bm fi = Ok f.

Local Abbreviation vs := (f_verts f).
Local Abbreviation n := (length (f_verts f)).
Local Abbreviation nv := (length (m_verts bm)).
Local Abbreviation nf := (length (m_faces bm)).

Hypothesis HF : cycles (m_faces bm') = cycles (extruded_faces bm fi f).
Hypothesis HV : length (m_verts bm') = nv + n.

Lemma base_facts :
  m_faces bm !! fi = Some (Some f) /\ fi < nf /\ NoDup vs /\ 3 <= n /\
  forall v, v ∈ vs -> v < nv.
Proof.
  pose proof (proj1 (get_face_lookup _ _ _) Hf) as Hl.
  destruct (Hwf _ _ Hl) as (? & ? & Hv). split_and!; try done.
  - by eapply lookup_lt_Some.
  - by apply Forall_forall.
Qed.

Lemma side_face_verts i v v' :
  vs !! i = Some v -> vs !! cnext n i = Some v' ->
  f_verts (side_face vs nv i v) = [v; v'; nv + cnext n i; nv + i].
Proof. intros Hv Hv'. unfold side_face. simpl. by rewrite Hv'. Qed.

Lemma lookup_next i v : vs !! i = Some v -> exists v', vs !! cnext n i = Some v'.
Proof.
  intros Hv. apply lookup_lt_is_Some_2, cnext_lt. by eapply lookup_lt_Some.
Qed.

Lemma extruded_faces_lookup j g :
  extruded_faces bm fi f !! j = Some (Some g) <->
  (j <> fi /\ m_faces bm !! j = Some (Some g)) \/
  (j = fi /\ g = flip f) \/
  (j = nf /\ g = mkFace (seq nv n) (f_normal f)) \/
  (exists i v, j = nf + 1 + i /\ vs !! i = Some v /\ g = side_face vs nv i v).
Proof.
  destruct base_facts as (Hl & Hlt & _). unfold extruded_faces.
  destruct (decide (j < nf)) as [Hj|Hj].
  - rewrite lookup_app_l by by rewrite length_insert.
    rewrite list_lookup_insert. case_decide as Hd.
    + destruct Hd as [<- _]. split.
      * intros [= <-]. auto.
      * intros [[? _]|[[_ ->]|[[? _]|(i & v & ? & _)]]]; (done || lia).
    + assert (j <> fi) by (intros ->; by destruct Hd). split; [by auto|].
      intros [[_ ?]|[[? _]|[[? _]|(i & v & ? & _)]]]; (done || lia).
  - rewrite lookup_app_r by (rewrite length_insert; lia).
    rewrite length_insert.
    assert (j <> fi) by lia.
    destruct (j - nf) as [|k] eqn:E; simpl.
    + split.
      * intros [= <-]. right. right. left. split; [lia|done].
      * intros [[_ Hg]|[[? _]|[[_ ->]|(i & v & ? & _)]]]; try (done || lia).
        apply lookup_lt_Some in Hg. lia.
    + rewrite list_lookup_imap. split.
      * destruct (vs !! k) as [v|] eqn:Ev; [|done]. simpl. intros [= <-].
        right. right. right. exists k, v. split; [lia|done].
      * intros [[_ Hg]|[[? _]|[[? _]|(i & v & ? & Hv & ->)]]]; try (done || lia).
        { apply lookup_lt_Some in Hg. lia. }
        replace k with i by lia. by rewrite Hv.
Qed.

(** the faces of [bm'], by their boundaries *)
Lemma extruded_lookup j c :
  (exists g, m_faces bm' !! j = Some (Some g) /\ f_verts g = c) <->
  (j <> fi /\ exists g, m_faces bm !! j = Some (Some g) /\ f_verts g = c) \/
  (j = fi /\ c = f_verts (flip f)) \/
  (j = nf /\ c = seq nv n) \/
  (exists i v, j = nf + 1 + i /\ vs !! i = Some v /\
     c = f_verts (side_face vs nv i v)).
Proof.
  rewrite <- cycles_lookup, HF, cycles_lookup. split.
  - intros (g & [[? Hg]|[[? ->]|[[? ->]|(i & v & ? & Hi & ->)]]]%extruded_faces_lookup & <-).
    + left. eauto.
    + right. left. done.
    + right. right. left. done.
    + right. right. right. by exists i, v.
  - intros [[? (g & Hg & <-)]|[[? ->]|[[? ->]|(i & v & ? & Hi & ->)]]].
    + exists g. split; [|done]. apply extruded_faces_lookup. auto.
    + exists (flip f). split; [|done]. apply extruded_faces_lookup. auto.
    + eexists. split; [apply extruded_faces_lookup; right; right; left; done|done].
    + eexists. split; [apply extruded_faces_lookup; right; right; right; eauto|done].
Qed.

Lemma extruded_NoDup j g :
  m_faces bm' !! j = Some (Some g) -> NoDup (f_verts g).
Proof.
  destruct base_facts as (Hl & Hlt & Hnd & Hn & Hv). intros Hg.
  destruct (proj1 (extruded_lookup j (f_verts g)) (ex_intro _ g (conj Hg eq_refl)))
    as [[_ (g0 & Hg0 & <-)]|[[_ ->]|[[_ ->]|(i & v & _ & Hi & ->)]]].
  - by destruct (Hwf _ _ Hg0).
  - by apply flip_verts_NoDup.
  - apply NoDup_seq.
  - destruct (lookup_next _ _ Hi) as [v' Hi'].
    rewrite (side_face_verts _ _ _ Hi Hi').
    pose proof (lookup_lt_Some _ _ _ Hi) as Hlti.
    assert (v <> v').
    { eapply dedge_ne; [done| |by exists i]. lia. }
    assert (v < nv) by by eapply Hv, list_elem_of_lookup_2.
    assert (v' < nv) by by eapply Hv, list_elem_of_lookup_2.
    assert (cnext n i <> i) by (apply cnext_ne; lia).
    repeat (apply NoDup_cons; split; [rewrite ?not_elem_of_cons; split_and?; try (lia || done) |]).
    all: try apply not_elem_of_nil. constructor.
Qed.

Local Abbreviation on := (loop_runs bm').

Lemma on_cases j a b :
  on j a b ->
  (j <> fi /\ a < nv /\ b < nv /\
     exists g, m_faces bm !! j = Some (Some g) /\ dedge (f_verts g) a b) \/
  (j = fi /\ a < nv /\ b < nv /\ dedge vs b a) \/
  (j = nf /\ exists i, i < n /\ a = nv + i /\ b = nv + cnext n i) \/
  (exists i v v', j = nf + 1 + i /\ vs !! i = Some v /\ vs !! cnext n i = Some v' /\
     ((a = v /\ b = v') \/ (a = v' /\ b = nv + cnext n i) \/
      (a = nv + cnext n i /\ b = nv + i) \/ (a = nv + i /\ b = v))).
Proof.
  destruct base_facts as (Hl & Hlt & Hnd & Hn & Hv).
  intros (g & Hg & Hd).
  destruct (proj1 (extruded_lookup j (f_verts g)) (ex_intro _ g (conj Hg eq_refl)))
    as [[Hj (g0 & Hg0 & He)]|[[Hj He]|[[Hj He]|(i & v & Hj & Hi & He)]]];
    [rewrite <- He in Hd|rewrite He in Hd..].
  - left. destruct (Hwf _ _ Hg0) as (_ & _ & Hvg). rewrite Forall_forall in Hvg.
    split_and!; [done|eapply Hvg, dedge_l, Hd|eapply Hvg, dedge_r, Hd|by eauto].
  - right. left. apply (proj1 (dedge_flip _ _ _)) in Hd.
    split_and!; [done|eapply Hv, dedge_r, Hd|eapply Hv, dedge_l, Hd|done].
  - right. right. left. by apply dedge_seq in Hd.
  - right. right. right. destruct (lookup_next _ _ Hi) as [v' Hi'].
    rewrite (side_face_verts _ _ _ Hi Hi') in Hd. apply dedge_4 in Hd.
    exists i, v, v'. by split_and!.
Qed.

Lemma on_walls i v v' :
  vs !! i = Some v -> vs !! cnext n i = Some v' ->
  on fi v' v /\ on nf (nv + i) (nv + cnext n i) /\
  on (nf + 1 + i) v v' /\ on (nf + 1 + i) v' (nv + cnext n i) /\
  on (nf + 1 + i) (nv + cnext n i) (nv + i) /\ on (nf + 1 + i) (nv + i) v.
Proof.
  intros Hi Hi'. pose proof (lookup_lt_Some _ _ _ Hi) as Hlti.
  destruct (proj2 (extruded_lookup (nf + 1 + i) (f_verts (side_face vs nv i v))))
    as (gs & Hs & Hvs).
  { right. right. right. by exists i, v. }
  rewrite (side_face_verts _ _ _ Hi Hi') in Hvs.
  destruct (proj2 (extruded_lookup fi (f_verts (flip f)))) as (gb & Hb & Hvb); [auto|].
  destruct (proj2 (extruded_lookup nf (seq nv n))) as (gc & Hc & Hvc); [auto|].
  split_and!.
  - exists gb. split; [done|]. rewrite Hvb. apply dedge_flip. by exists i.
  - exists gc. split; [done|]. rewrite Hvc. apply dedge_seq. by exists i.
  - exists gs. split; [done|]. rewrite Hvs. apply dedge_4. auto.
  - exists gs. split; [done|]. rewrite Hvs. apply dedge_4. auto.
  - exists gs. split; [done|]. rewrite Hvs. apply dedge_4. auto.
  - exists gs. split; [done|]. rewrite Hvs. apply dedge_4. auto 6.
Qed.

Lemma elem_of_loops e j a :
  (j, a) ∈ edge_link_loops bm' e <-> exists b, on j a b /\ mk_edge a b = e.
Proof.
  rewrite elem_of_edge_link_loops. split.
  - intros (g & b & Hg & Ha & Hb & He). exists b. split; [|done].
    exists g. split; [done|]. apply cycle_next_dedge; [|done]. by eapply extruded_NoDup.
  - intros (b & (g & Hg & Hd) & He). exists g, b. split_and!; try done.
    + by eapply dedge_l.
    + apply cycle_next_dedge; [|done]. by eapply extruded_NoDup.
Qed.

Lemma on_ops j a b :
  on j a b ->
  link_loop_next bm' (j, a) = Ok (j, b) /\
  loop_edge bm' (j, a) = Ok (mk_edge a b) /\
  loop_vert bm' (j, a) = Ok a /\
  loop_face bm' (j, a) = Ok j.
Proof.
  intros (g & Hg & Hd). eapply loop_ops; [by apply get_face_lookup| |done].
  by eapply extruded_NoDup.
Qed.

(** around a base edge, the loop of the wall comes first *)
Lemma base_edge_head i v v' :
  vs !! i = Some v -> vs !! cnext n i = Some v' ->
  exists rest, edge_link_loops bm' (mk_edge v v') = (nf + 1 + i, v) :: rest.
Proof.
  intros Hi Hi'. destruct base_facts as (Hl & Hlt & Hnd & Hn & Hv).
  assert (v < nv) by by eapply Hv, list_elem_of_lookup_2.
  assert (v' < nv) by by eapply Hv, list_elem_of_lookup_2.
  assert (v <> v') as Hne.
  { eapply dedge_ne; [done| |by exists i]. lia. }
  destruct (proj2 (extruded_lookup (nf + 1 + i) (f_verts (side_face vs nv i v))))
    as (gs & Hs & Hvs).
  { right. right. right. by exists i, v. }
  rewrite (side_face_verts _ _ _ Hi Hi') in Hvs.
  assert (forall k a, (k, a) ∈ edge_link_loops bm' (mk_edge v v') ->
            k <= nf + 1 + i /\ (k = nf + 1 + i -> a = v)) as Hall.
  { intros k a (b & Hon & He%mk_edge_eq)%elem_of_loops.
    apply on_cases in Hon
      as [(Hj & _ & _ & g & Hg & Hd)|[(-> & _ & _ & Hd)
         |[(-> & k' & Hk & ? & ?)|(k' & w & w' & -> & Hk & Hk' & Hc)]]].
    - apply lookup_lt_Some in Hg. lia.
    - lia.
    - lia.
    - destruct Hc as [[-> ->]|[[-> ->]|[[-> ->]|[-> ->]]]]; try lia.
      destruct He as [[-> ->]|[-> ->]].
      + rewrite (NoDup_lookup _ _ _ _ Hnd Hk Hi). split; [lia|done].
      + exfalso. eapply dedge_asym; [done|lia| |]; [by exists i|by exists k']. }
  assert (face_loops_on (mk_edge v v') (nf + 1 + i) gs = [(nf + 1 + i, v)]) as Hr.
  { apply singleton_list.
    - unfold face_loops_on. apply NoDup_fmap_2; [by intros ?? [=]|].
      apply NoDup_filter. by eapply extruded_NoDup.
    - assert (cycle_next [v; v'; nv + cnext n i; nv + i] v = Some v') as Hc.
      { unfold cycle_next. simpl. by rewrite decide_True. }
      unfold face_loops_on. rewrite Hvs, filter_cons, Hc. simpl.
      rewrite decide_True by done. simpl. by left.
    - intros [k a] Hp.
      destruct (face_loops_on_link bm' _ _ gs _ Hs Hp) as [Hin Hk].
      simpl in Hk. subst k. f_equal. by apply (Hall _ _ Hin). }
  eapply edge_link_loops_head; [done..|].
  intros k a Hin. by apply (Hall _ _ Hin).
Qed.

Lemma cap_edge_loops i l :
  i < n ->
  l ∈ edge_link_loops bm' (mk_edge (nv + i) (nv + cnext n i)) <->
  l = (nf, nv + i) \/ l = (nf + 1 + i, nv + cnext n i).
Proof.
  intros Hi. destruct base_facts as (Hl & Hlt & Hnd & Hn & Hv).
  destruct (lookup_lt_is_Some_2 vs i Hi) as [v Hvi].
  destruct (lookup_next _ _ Hvi) as [v' Hvi'].
  pose proof (cnext_lt n i Hi).
  destruct l as [j a]. rewrite elem_of_loops. split.
  - intros (b & Hon & He%mk_edge_eq).
    apply on_cases in Hon
        as [(Hj & ? & ? & _)|[(-> & ? & ? & _)
           |[(-> & k & Hk & -> & ->)|(k & w & w' & -> & Hk & Hk' & Hc)]]].
    + lia.
    + lia.
    + destruct He as [[? ?]|[? ?]].
      * left. by f_equal.
      * exfalso. assert (k = cnext n i) as -> by lia.
        apply (cnext2_ne n i); [done..|lia].
    + pose proof (lookup_lt_Some _ _ _ Hk) as Hkn.
      assert (w < nv) by by eapply Hv, list_elem_of_lookup_2.
      assert (w' < nv) by by eapply Hv, list_elem_of_lookup_2.
      destruct Hc as [[-> ->]|[[-> ->]|[[-> ->]|[-> ->]]]]; try lia.
      destruct He as [[? ?]|[? ?]].
      * exfalso. assert (k = cnext n i) as -> by lia.
        apply (cnext2_ne n i); [done..|lia].
      * right. assert (k = i) as -> by lia. done.
  - destruct (on_walls i v v' Hvi Hvi') as (H1 & H2 & H3 & H4 & H5 & H6).
    intros [[= -> ->]|[= -> ->]].
    + eexists. done.
    + exists (nv + i). split; [done|]. apply mk_edge_eq. auto.
Qed.

Lemma up_edge_loops i v v' l :
  vs !! i = Some v -> vs !! cnext n i = Some v' ->
  l ∈ edge_link_loops bm' (mk_edge v' (nv + cnext n i)) <->
  l = (nf + 1 + i, v') \/ l = (nf + 1 + cnext n i, nv + cnext n i).
Proof.
  intros Hi Hi'. destruct base_facts as (Hl & Hlt & Hnd & Hn & Hv).
  pose proof (lookup_lt_Some _ _ _ Hi) as Hin.
  pose proof (cnext_lt n i Hin) as Hin'.
  assert (v' < nv) by by eapply Hv, list_elem_of_lookup_2.
  destruct l as [j a]. rewrite elem_of_loops. split.
  - intros (b & Hon & He%mk_edge_eq).
    apply on_cases in Hon
        as [(Hj & ? & ? & _)|[(-> & ? & ? & _)
           |[(-> & k & Hk & -> & ->)|(k & w & w' & -> & Hk & Hk' & Hc)]]].
    + lia.
    + lia.
    + lia.
    + pose proof (lookup_lt_Some _ _ _ Hk) as Hkn.
      assert (w < nv) by by eapply Hv, list_elem_of_lookup_2.
      assert (w' < nv) by by eapply Hv, list_elem_of_lookup_2.
      destruct Hc as [[-> ->]|[[-> ->]|[[-> ->]|[-> ->]]]]; try lia.
      * destruct He as [[? ?]|[? ?]]; [|lia].
        left. assert (cnext n k = cnext n i) as He' by lia.
        apply cnext_inj in He'; [|done..]. by subst.
      * destruct He as [[? ?]|[? ?]]; [lia|].
        right. assert (k = cnext n i) as -> by lia. done.
  - destruct (lookup_next _ _ Hi') as [v'' Hi''].
    destruct (on_walls i v v' Hi Hi') as (H1 & H2 & H3 & H4 & H5 & H6).
    destruct (on_walls _ v' v'' Hi' Hi'') as (G1 & G2 & G3 & G4 & G5 & G6).
    intros [[= -> ->]|[= -> ->]].
    + eexists. done.
    + exists v'. split; [done|]. apply mk_edge_eq. auto.
Qed.

Lemma link_loops_on j a b l2 :
  on j a b -> (j, a) <> l2 ->
  (forall l, l ∈ edge_link_loops bm' (mk_edge a b) <-> l = (j, a) \/ l = l2) ->
  loop_link_loops bm' (j, a) = Ok [l2].
Proof.
  intros Hon Hne Hl. destruct (on_ops _ _ _ Hon) as (_ & He & _ & _).
  eapply link_loops_two; [done..|].
  apply edge_two; [|done..]. intros. by eapply extruded_NoDup.
Qed.

Lemma link_faces_two e l1 l2 :
  l1 <> l2 ->
  (forall l, l ∈ edge_link_loops bm' e <-> l = l1 \/ l = l2) ->
  edge_link_faces bm' e = [l1.1; l2.1] \/ edge_link_faces bm' e = [l2.1; l1.1].
Proof.
  intros Hne Hl. unfold edge_link_faces.
  destruct (edge_two bm' e l1 l2) as [-> | ->]; auto.
  intros. by eapply extruded_NoDup.
Qed.

Lemma init_on c j a b :
  on j a b -> a < nv + n ->
  Shape2d.__init__ c bm' (j, a) = Ok (mkShape2d c j (j, a) a None).
Proof.
  intros Hon Ha. destruct (on_ops _ _ _ Hon) as (_ & _ & Hv & Hface).
  unfold Shape2d.__init__. rewrite Hface. simpl. rewrite Hv. simpl.
  unfold co. destruct (lookup_lt_is_Some_2 (m_verts bm') a) as [c' ->]; [lia|done].
Qed.

Lemma find_loop_side i v v' rest last :
  vs !! i = Some v -> vs !! cnext n i = Some v' ->
  Shape2d.find_loop bm' nf ((nf + 1 + i, v) :: rest) last
    = Ok ((nf + 1 + i, v), (nf + 1 + i, nv + cnext n i)).
Proof.
  intros Hi Hi'. destruct base_facts as (Hl & Hlt & Hnd & Hn & Hv).
  pose proof (lookup_lt_Some _ _ _ Hi) as Hin.
  destruct (on_walls i v v' Hi Hi') as (_ & _ & H3 & H4 & H5 & _).
  destruct (on_ops _ _ _ H3) as (Hn3 & _).
  destruct (on_ops _ _ _ H4) as (Hn4 & _).
  destruct (on_ops _ _ _ H5) as (_ & He & _).
  simpl. rewrite Hn3. simpl. rewrite Hn4. simpl. rewrite He. simpl.
  assert (mk_edge (nv + cnext n i) (nv + i) = mk_edge (nv + i) (nv + cnext n i))
    as -> by (apply mk_edge_eq; auto).
  destruct (link_faces_two (mk_edge (nv + i) (nv + cnext n i))
              (nf, nv + i) (nf + 1 + i, nv + cnext n i)) as [-> | ->].
  - intros [= ? _]. lia.
  - intros l. by apply cap_edge_loops.
  - simpl. by rewrite decide_True.
  - simpl. rewrite decide_False by lia. simpl. by rewrite decide_True.
Qed.

Lemma side_loops_on self i v v' :
  face self = fi -> firstLoop self = (fi, v') ->
  vs !! i = Some v -> vs !! cnext n i = Some v' ->
  Shape2d.side_loops bm' self nf
    = Ok ((nf + 1 + i, v), (nf + 1 + i, nv + cnext n i)).
Proof.
  intros Hface Hfirst Hi Hi'. destruct base_facts as (Hl & Hlt & Hnd & Hn & Hv).
  destruct (on_walls i v v' Hi Hi') as (H1 & _).
  destruct (on_ops _ _ _ H1) as (_ & He & _).
  unfold Shape2d.side_loops. rewrite Hfirst, (bind_Ok _ _ _ He). cbv beta zeta.
  assert (mk_edge v' v = mk_edge v v') as -> by (apply mk_edge_eq; auto).
  destruct (base_edge_head i v v' Hi Hi') as [rest ->].
  by eapply find_loop_side.
Qed.

Lemma cap_loop_on i :
  i < n ->
  loop_link_loops bm' (nf + 1 + i, nv + cnext n i) = Ok [(nf, nv + i)].
Proof.
  intros Hi. destruct (lookup_lt_is_Some_2 vs i Hi) as [v Hvi].
  destruct (lookup_next _ _ Hvi) as [v' Hvi'].
  destruct (on_walls i v v' Hvi Hvi') as (_ & _ & _ & _ & H5 & _).
  eapply link_loops_on; [done| |].
  - intros [= ? _]. lia.
  - assert (mk_edge (nv + cnext n i) (nv + i) = mk_edge (nv + i) (nv + cnext n i))
      as -> by (apply mk_edge_eq; auto).
    intros l. rewrite cap_edge_loops by done. tauto.
Qed.

(** one iteration of the walk: from the wall on the base edge [j] to the
    wall on the next base edge *)
Lemma walk_step fuel first j w acc :
  vs !! j = Some w ->
  exists w', vs !! cnext n j = Some w' /\
  Shape2d.walk (S fuel) bm' first (nf + 1 + j, w) acc =
    if decide ((nf + 1 + cnext n j, w') = first)
    then Ok (acc ++ [wall vs nf j])
    else Shape2d.walk fuel bm' first (nf + 1 + cnext n j, w') (acc ++ [wall vs nf j]).
Proof.
  intros Hj. destruct base_facts as (Hl & Hlt & Hnd & Hn & Hv).
  destruct (lookup_next _ _ Hj) as [w' Hj']. exists w'. split; [done|].
  destruct (lookup_next _ _ Hj') as [w'' Hj''].
  pose proof (lookup_lt_Some _ _ _ Hj) as Hjn.
  assert (w < nv) by by eapply Hv, list_elem_of_lookup_2.
  destruct (on_walls j w w' Hj Hj') as (_ & _ & H3 & H4 & _).
  destruct (on_walls _ w' w'' Hj' Hj'') as (_ & _ & _ & _ & _ & G6).
  destruct (on_ops _ _ _ H3) as (Hn3 & _).
  destruct (on_ops _ _ _ G6) as (Hn6 & _).
  simpl. rewrite (init_on _ _ _ _ H3) by lia. simpl.
  rewrite Hn3. simpl.
  rewrite (link_loops_on _ _ _ (nf + 1 + cnext n j, nv + cnext n j) H4).
  - simpl. rewrite Hn6. simpl. unfold wall. by rewrite Hj.
  - intros [= ? _]. apply (cnext_ne n j); lia.
  - intros l. by apply (up_edge_loops j w w').
Qed.

Lemma walk_run r : forall j w acc fuel i0 w0,
  vs !! j = Some w -> vs !! i0 = Some w0 -> 1 <= r -> r <= fuel ->
  Nat.iter r (cnext n) j = i0 ->
  (forall t, 0 < t < r -> Nat.iter t (cnext n) j <> i0) ->
  Shape2d.walk fuel bm' (nf + 1 + i0, w0) (nf + 1 + j, w) acc
    = Ok (acc ++ (wall vs nf <$> cfrom n j r)).
Proof.
  induction r as [|r IH]; intros j w acc fuel i0 w0 Hj Hi0 Hr Hfuel Hend Hnot; [lia|].
  destruct fuel as [|fuel]; [lia|].
  destruct (walk_step fuel (nf + 1 + i0, w0) j w acc Hj) as (w' & Hw' & ->).
  destruct r as [|r].
  - simpl in Hend. subst i0. rewrite Hw' in Hi0. injection Hi0 as ->.
    by rewrite decide_True.
  - rewrite decide_False.
    2:{ intros [= He _]. apply (Hnot 1); [lia|]. simpl. lia. }
    rewrite (IH (cnext n j) w' _ fuel i0 w0); try done; try lia.
    + simpl. by rewrite <- app_assoc.
    + by rewrite <- Nat.iter_succ_r.
    + intros t Ht. rewrite <- Nat.iter_succ_r. apply Hnot. lia.
Qed.

End extruded.

Lemma cnext_iter n i t :
  i < n -> t <= n ->
  Nat.iter t (cnext n) i = if decide (i + t < n) then i + t else i + t - n.
Proof.
  intros Hi. induction t as [|t IH]; intros Ht; simpl.
  - rewrite decide_True by lia. lia.
  - rewrite IH by lia. unfold cnext. repeat case_decide; lia.
Qed.

(** ** The operators of the kernel *)

Lemma mapM_positions bm (vs : list nat) :
  Forall (fun v => v < length (m_verts bm)) vs ->
  mapM (fun v => match m_verts bm !! v with
                 | Some c => Ok c
                 | None => Raise ReferenceError
                 end) vs = Ok (positions bm vs).
Proof.
  induction 1 as [|v vs Hv _ IH]; [done|].
  destruct (lookup_lt_is_Some_2 (m_verts bm) v Hv) as [c Hc].
  simpl. rewrite Hc. simpl. rewrite IH. done.
Qed.

Lemma positions_length bm vs : length (positions bm vs) = length vs.
Proof. unfold positions. by rewrite length_fmap. Qed.

Lemma positions_verts bm1 bm2 vs :
  m_verts bm1 = m_verts bm2 -> positions bm1 vs = positions bm2 vs.
Proof. unfold positions. by intros ->. Qed.

Lemma positions_lookup bm vs i v c :
  vs !! i = Some v -> m_verts bm !! v = Some c -> positions bm vs !! i = Some c.
Proof. intros Hi Hv. unfold positions. by rewrite list_lookup_fmap, Hi; simpl; rewrite Hv. Qed.

(** the positions of the vertices appended to a mesh *)
Lemma positions_new (l cs : list Vector) fs :
  positions (mkMesh (l ++ cs) fs) (seq (length l) (length cs)) = cs.
Proof.
  unfold positions. simpl. apply list_eq. intros i.
  rewrite list_lookup_fmap.
  destruct (decide (i < length cs)) as [Hi|Hi].
  - rewrite lookup_seq_lt by done. simpl.
    rewrite lookup_app_r by lia.
    replace (length l + i - length l) with i by lia.
    by destruct (lookup_lt_is_Some_2 cs i Hi) as [c ->].
  - rewrite lookup_seq_ge by lia. simpl. symmetry. apply lookup_ge_None. lia.
Qed.

(** the translation of the vertices appended to a mesh *)
Lemma imap_translate (l cs : list Vector) (d : Vector) :
  imap (fun i c => if decide (i ∈ seq (length l) (length cs)) then add c d else c)
       (l ++ cs)
  = l ++ ((fun c => add c d) <$> cs).
Proof.
  apply list_eq. intros i. rewrite list_lookup_imap.
  destruct (decide (i < length l)) as [Hi|Hi].
  - rewrite !lookup_app_l by done.
    destruct (l !! i) as [c|]; [|done]. simpl.
    rewrite decide_False; [done|]. rewrite elem_of_seq. lia.
  - rewrite !lookup_app_r by lia. rewrite list_lookup_fmap.
    destruct (cs !! (i - length l)) as [c|] eqn:E; [|done]. simpl.
    apply lookup_lt_Some in E.
    rewrite decide_True; [done|]. rewrite elem_of_seq. lia.
Qed.

Section kernel.
Variable N : Vector -> Vector.

Lemma calc_normal_verts bm1 bm2 vs :
  m_verts bm1 = m_verts bm2 -> calc_normal N bm1 vs = calc_normal N bm2 vs.
Proof. intros Hv. unfold calc_normal. by rewrite (positions_verts _ _ _ Hv). Qed.

Lemma normals_update_cycles bm :
  cycles (m_faces (normals_update N bm)) = cycles (m_faces bm).
Proof.
  unfold cycles, normals_update. simpl. rewrite <- list_fmap_compose.
  apply list_fmap_ext. by intros _ [g|] _.
Qed.

Lemma normals_update_lookup bm j :
  m_faces (normals_update N bm) !! j
  = (fun o : option BMFace =>
       (fun g => mkFace (f_verts g) (calc_normal N bm (f_verts g))) <$> o)
      <$> m_faces bm !! j.
Proof. unfold normals_update. simpl. by rewrite list_lookup_fmap. Qed.

Lemma normals_update_get_face bm j g :
  get_face bm j = Ok g ->
  get_face (normals_update N bm) j
    = Ok (mkFace (f_verts g) (calc_normal N bm (f_verts g))).
Proof.
  unfold get_face. rewrite normals_update_lookup.
  destruct (m_faces bm !! j) as [[x|]|]; simpl; by intros [= ->].
Qed.

Lemma normals_update_faces_length bm :
  length (m_faces (normals_update N bm)) = length (m_faces bm).
Proof. unfold normals_update. simpl. by rewrite length_fmap. Qed.

Lemma cycles_wf bm1 bm2 :
  length (m_verts bm1) = length (m_verts bm2) ->
  cycles (m_faces bm1) = cycles (m_faces bm2) -> wf bm1 -> wf bm2.
Proof.
  intros Hv Hc Hwf j g Hg.
  assert (cycles (m_faces bm2) !! j = Some (Some (f_verts g))) as Hj.
  { apply cycles_lookup. eauto. }
  rewrite <- Hc in Hj. apply cycles_lookup in Hj as (g1 & Hg1 & <-).
  rewrite <- Hv. by apply (Hwf j g1).
Qed.

End kernel.

Lemma first_face_app l f r :
  Forall (fun x => forall g, x <> BMFace_ g) l ->
  Shape2d.first_face (l ++ BMFace_ f :: r) = Ok f.
Proof.
  induction 1 as [|x l Hx _ IH]; [done|].
  simpl. destruct x; try (by destruct (Hx f0)).
  - rewrite IH. by destruct (l ++ _) eqn:E; [destruct l|].
  - rewrite IH. by destruct (l ++ _) eqn:E; [destruct l|].
Qed.

Lemma ok_bind {A B} (a : A) (k : A -> result B) : Ok a ≫= k = k a.
Proof. done. Qed.

Lemma extruded_faces_cap bm fi f :
  extruded_faces bm fi f !! length (m_faces bm)
  = Some (Some (mkFace (seq (length (m_verts bm)) (length (f_verts f))) (f_normal f))).
Proof.
  unfold extruded_faces.
  rewrite lookup_app_r by (by rewrite length_insert).
  by rewrite length_insert, Nat.sub_diag.
Qed.

Section run.
Context `{Imports}.

(** the extrude operator on a face: the mesh it leaves and the face of
    the copy *)
Lemma extrude_face_region_run bm fi f :
  wf bm -> get_face bm fi = Ok f ->
  exists geom,
    extrude_face_region Vector_normalize bm fi
      = Ok (normals_update Vector_normalize
              (mkMesh (m_verts bm ++ positions bm (f_verts f))
                      (extruded_faces bm fi f)), geom) /\
    Shape2d.first_face geom = Ok (length (m_faces bm)).
Proof.
  intros Hwf Hf. pose proof (proj1 (get_face_lookup _ _ _) Hf) as Hl.
  destruct (Hwf _ _ Hl) as (_ & _ & Hv).
  eexists. unfold extrude_face_region. rewrite Hf. simpl.
  rewrite (mapM_positions _ _ Hv). simpl.
  split; [reflexivity|].
  rewrite app_assoc. apply first_face_app.
  apply Forall_app. split; apply Forall_forall.
  - by intros x (v & -> & _)%list_elem_of_fmap g.
  - by intros x (v & -> & _)%list_elem_of_fmap g.
Qed.

(** lines 40-49: the mesh after the extrusion and the translation *)
Lemma extruded_run bm self depth f :
  wf bm -> get_face bm (face self) = Ok f ->
  exists bm2,
    Shape2d.extruded bm self depth = Ok (bm2, length (m_faces bm)) /\
    cycles (m_faces bm2) = cycles (extruded_faces bm (face self) f) /\
    m_verts bm2 = m_verts bm ++ cap_positions bm f depth /\
    normals_updated bm2 /\
    face_normal bm2 (length (m_faces bm)) = Ok (cap_normal bm f depth).
Proof.
  intros Hwf Hf.
  destruct (extrude_face_region_run _ _ _ Hwf Hf) as (geom & Hreg & Hfirst).
  remember (mkMesh (m_verts bm ++ positions bm (f_verts f))
                   (extruded_faces bm (face self) f)) as bm1 eqn:E1.
  remember (seq (length (m_verts bm)) (length (f_verts f))) as cvs eqn:Ec.
  assert (get_face bm1 (length (m_faces bm)) = Ok (mkFace cvs (f_normal f))) as Hcap.
  { apply get_face_lookup. subst bm1 cvs. apply extruded_faces_cap. }
  assert (calc_normal Vector_normalize bm1 cvs = extruded_normal bm f) as Hn1.
  { unfold extruded_normal, calc_normal. f_equal. f_equal. subst bm1 cvs.
    rewrite <- (positions_length bm (f_verts f)) at 1. apply positions_new. }
  unfold Shape2d.extruded. rewrite Hreg, ok_bind. cbv beta iota zeta.
  rewrite Hfirst, ok_bind.
  rewrite (normals_update_get_face _ _ _ _ Hcap), ok_bind.
  cbn [f_verts f_normal]. rewrite Hn1.
  eexists. split; [reflexivity|].
  unfold translate.
  assert (imap (fun i c => if decide (i ∈ cvs)
                           then add c (scale depth (extruded_normal bm f)) else c)
               (m_verts (normals_update Vector_normalize bm1))
          = m_verts bm ++ cap_positions bm f depth) as ->.
  { subst bm1 cvs. cbn [m_verts normals_update].
    pose proof (imap_translate (m_verts bm) (positions bm (f_verts f))
                  (scale depth (extruded_normal bm f))) as Hi.
    by rewrite positions_length in Hi. }
  assert (length (cap_positions bm f depth) = length (f_verts f)) as Hlen.
  { unfold cap_positions. by rewrite length_fmap, positions_length. }
  split_and!.
  - rewrite normals_update_cycles. cbn [m_faces].
    rewrite normals_update_cycles. by subst bm1.
  - done.
  - intros j g Hg. rewrite normals_update_lookup in Hg.
    destruct (_ !! j) as [[g0|]|]; simpl in Hg; try done.
    injection Hg as <-. simpl. by apply calc_normal_verts.
  - unfold face_normal.
    erewrite normals_update_get_face.
    2:{ cbn [m_faces]. apply (normals_update_get_face _ _ _ _ Hcap). }
    rewrite ok_bind. cbn [f_verts f_normal].
    unfold calc_normal, cap_normal. do 3 f_equal. subst cvs.
    rewrite <- Hlen. apply positions_new.
Qed.

#[local] Arguments face_normal : simpl never.
#[local] Arguments Shape3d.__init__ : simpl never.
#[local] Arguments Shape2d.walk : simpl never.

(** [extrude] on a face of a mesh that keeps the kernel invariant, for a
    shape whose first loop is on the face: [i] is the base edge that ends
    at the vertex [v'] of the first loop *)
Lemma extrude_run fuel ctx self depth f i v v' :
  wf (pro.bm ctx) ->
  get_face (pro.bm ctx) (face self) = Ok f ->
  f_verts f !! i = Some v ->
  f_verts f !! cnext (length (f_verts f)) i = Some v' ->
  firstLoop self = (face self, v') ->
  (Qgtb (vz (cap_normal (pro.bm ctx) f depth)) verticalNormalThreshold = true ->
   length (f_verts f) <= fuel) ->
  let n := length (f_verts f) in
  let nv := length (m_verts (pro.bm ctx)) in
  let nf := length (m_faces (pro.bm ctx)) in
  exists bm2,
    Shape2d.extruded (pro.bm ctx) self depth = Ok (bm2, nf) /\
    cycles (m_faces bm2) = cycles (extruded_faces (pro.bm ctx) (face self) f) /\
    m_verts bm2 = m_verts (pro.bm ctx) ++ cap_positions (pro.bm ctx) f depth /\
    normals_updated bm2 /\
    face_normal bm2 nf = Ok (cap_normal (pro.bm ctx) f depth) /\
    Shape2d.side_loops bm2 self nf
      = Ok ((nf + 1 + i, v), (nf + 1 + i, nv + cnext n i)) /\
    Shape2d.extrude fuel ctx self depth
      = Ok (pro.mkContext bm2 (pro.facesForRemoval ctx),
            mkShape3d
              (self :: mkShape2d Shape2dClass nf (nf, nv + i) (nv + i) None
                 :: (if Qgtb (vz (cap_normal (pro.bm ctx) f depth))
                              verticalNormalThreshold
                     then wall (f_verts f) nf <$> cfrom n i n
                     else []))
              (firstLoop self) v' None).
Proof.
  intros Hwf Hf Hi Hi' Hfirst Hfuel n nv nf. subst n nv nf.
  destruct (extruded_run _ self depth _ Hwf Hf) as (bm2 & Hex & HF & Hverts & Hup & Hnorm).
  assert (length (m_verts bm2)
          = length (m_verts (pro.bm ctx)) + length (f_verts f)) as HV.
  { rewrite Hverts, length_app. unfold cap_positions.
    by rewrite length_fmap, positions_length. }
  pose proof (lookup_lt_Some _ _ _ Hi) as Hin.
  destruct (base_facts _ _ _ Hwf Hf) as (_ & _ & _ & Hn & Hvs).
  assert (v' < length (m_verts (pro.bm ctx))) by by eapply Hvs, list_elem_of_lookup_2.
  pose proof (side_loops_on _ bm2 _ _ Hwf Hf HF HV self i v v' eq_refl Hfirst Hi Hi')
    as Hside.
  destruct (on_walls _ bm2 _ _ Hwf Hf HF HV i v v' Hi Hi') as (H1 & H2 & H3 & _).
  exists bm2. split_and!; try done.
  unfold Shape2d.extrude. rewrite Hex. simpl. rewrite Hside. simpl.
  rewrite (cap_loop_on _ bm2 _ _ Hwf Hf HF HV i Hin). simpl.
  rewrite (init_on _ bm2 _ _ Hwf Hf HF HV _ _ _ _ H2) by lia. simpl.
  rewrite Hnorm. simpl.
  assert (forall l, Shape3d.__init__ bm2 l (firstLoop self)
                    = Ok (mkShape3d l (firstLoop self) v' None)) as Hs3.
  { intros l. destruct (on_ops _ bm2 _ _ Hwf Hf HF HV _ _ _ H1) as (_ & _ & Hv & _).
    unfold Shape3d.__init__. rewrite Hfirst, Hv. simpl. unfold co.
    destruct (lookup_lt_is_Some_2 (m_verts bm2) v') as [c' ->]; [lia|done]. }
  destruct (Qgtb (vz (cap_normal (pro.bm ctx) f depth)) verticalNormalThreshold) eqn:Hz.
  - rewrite (walk_run _ bm2 _ _ Hwf Hf HF HV (length (f_verts f)) i v _ fuel i v);
      try done.
    + rewrite ok_bind, Hs3. done.
    + lia.
    + by apply Hfuel.
    + rewrite cnext_iter by lia. case_decide; lia.
    + intros t Ht. rewrite cnext_iter by lia. case_decide; lia.
  - rewrite ok_bind, Hs3. done.
Qed.

End run.


(** ** Extrusion *)

Lemma wfb_wf bm : wfb bm = true -> wf bm.
Proof.
  unfold wfb, wf. rewrite forallb_forall. intros Hb i f Hi.
  specialize (Hb (Some f)). simpl in Hb.
  rewrite !andb_true_iff, forallb_forall in Hb.
  destruct Hb as [[H1 H2] H3].
  { apply list_elem_of_In. by eapply list_elem_of_lookup_2. }
  apply bool_decide_eq_true in H1, H2. split_and!; try done.
  apply Forall_forall. intros v Hv%list_elem_of_In%H3. by apply Nat.ltb_lt.
Qed.

Lemma first_vertex_pred (vs : list nat) v' :
  v' ∈ vs -> exists i v, vs !! i = Some v /\ vs !! cnext (length vs) i = Some v'.
Proof. intros (v & i & Hv & Hv')%dedge_pred. eauto. Qed.

Lemma cfrom_length n j r : length (cfrom n j r) = r.
Proof. revert j. induction r as [|r IH]; intros j; simpl; [done|]. by rewrite IH. Qed.

Lemma cfrom_lookup n j r t :
  t < r -> cfrom n j r !! t = Some (Nat.iter t (cnext n) j).
Proof.
  revert j t. induction r as [|r IH]; intros j t Ht; [lia|].
  destruct t as [|t]; [done|]. simpl. rewrite IH by lia.
  by rewrite <- Nat.iter_succ_r.
Qed.

Section extrude.
Context `{Imports}.

(** X23. The constituents of an extrusion with walls. Extruding a face
    with N sides, when the z component of the normal that the kernel has
    calculated for the cap exceeds the threshold (the test of line 67),
    returns for every depth a 3D shape with N + 2 constituents: the base
    shape itself, a [Shape2d] wrapping the cap, and the N walls wrapped as
    [Rectangle]s in the order of the boundary, each on the loop that runs
    along its base edge, starting with the wall on the edge that ends at
    the first vertex of the base shape. *)
Theorem extrude_constituents fuel ctx self depth f v' :
  wf (pro.bm ctx) ->
  get_face (pro.bm ctx) (face self) = Ok f ->
  firstLoop self = (face self, v') -> v' ∈ f_verts f ->
  (verticalNormalThreshold < vz (cap_normal (pro.bm ctx) f depth))%Q ->
  length (f_verts f) <= fuel ->
  let n := length (f_verts f) in
  let nv := length (m_verts (pro.bm ctx)) in
  let nf := length (m_faces (pro.bm ctx)) in
  exists ctx' r i cap,
    Shape2d.extrude fuel ctx self depth = Ok (ctx', r) /\
    Shape2d.extruded (pro.bm ctx) self depth = Ok (pro.bm ctx', nf) /\
    face_normal (pro.bm ctx') nf = Ok (cap_normal (pro.bm ctx) f depth) /\
    f_verts f !! cnext n i = Some v' /\
    shapes r !! 0 = Some self /\
    shapes r !! 1 = Some cap /\
    cls cap = Shape2dClass /\ face cap = nf /\ firstLoop cap = (nf, nv + i) /\
    drop 2 (shapes r) = wall (f_verts f) nf <$> cfrom n i n /\
    (forall t, t < n ->
       exists j w w' g,
         Nat.iter t (cnext n) i = j /\ f_verts f !! j = Some w /\
         f_verts f !! cnext n j = Some w' /\
         get_face (pro.bm ctx') (nf + 1 + j) = Ok g /\
         f_verts g = [w; w'; nv + cnext n j; nv + j] /\
         shapes r !! (2 + t)
           = Some (mkShape2d RectangleClass (nf + 1 + j) (nf + 1 + j, w) w None)) /\
    length (shapes r) = n + 2.
Proof.
  intros Hwf Hf Hfirst Hv' Hz Hfuel n nv nf. subst n nv nf.
  set (n := length (f_verts f)).
  destruct (first_vertex_pred _ _ Hv') as (i & v & Hi & Hi').
  apply Qgtb_gt in Hz.
  destruct (extrude_run fuel ctx self depth f i v v' Hwf Hf Hi Hi' Hfirst)
    as (bm2 & Hex & HF & Hverts & Hup & Hnorm & Hside & Hrun); [done|].
  assert (length (m_verts bm2) = length (m_verts (pro.bm ctx)) + n) as HV.
  { rewrite Hverts, length_app. unfold cap_positions.
    by rewrite length_fmap, positions_length. }
  rewrite Hz in Hrun.
  eexists _, _, i, _. split; [exact Hrun|]. simpl.
  split_and!; try done.
  - intros t Ht. pose proof (lookup_lt_Some _ _ _ Hi) as Hin.
    assert (Nat.iter t (cnext n) i < n) as Hlt.
    { rewrite cnext_iter by lia. case_decide; lia. }
    destruct (lookup_lt_is_Some_2 (f_verts f) _ Hlt) as [w Hw].
    destruct (lookup_next f _ _ Hw) as [w' Hw'].
    destruct (proj2 (extruded_lookup (pro.bm ctx) bm2 _ f Hwf Hf HF HV
                       (length (m_faces (pro.bm ctx)) + 1 + Nat.iter t (cnext n) i)
                       (f_verts (side_face (f_verts f) (length (m_verts (pro.bm ctx)))
                                           (Nat.iter t (cnext n) i) w))))
      as (g & Hg & Hvg).
    { right. right. right. eauto. }
    rewrite (side_face_verts (pro.bm ctx) f _ _ _ Hw Hw') in Hvg.
    exists (Nat.iter t (cnext n) i), w, w', g. split_and!; try done.
    + by apply get_face_lookup.
    + rewrite list_lookup_fmap, cfrom_lookup by done. simpl.
      unfold wall. fold n. by rewrite Hw.
  - by rewrite length_fmap, cfrom_length, Nat.add_comm.
Qed.

(** C2 (as the code has it). Extruding a face whose cap is not horizontal
    (the absolute value of the z component of the normal that the kernel
    has calculated for the cap does not exceed the threshold) raises no
    exception: line 67 takes the branch of the general case, which is
    empty, and [extrude] returns a 3D shape whose only constituents are
    the base shape and a [Shape2d] wrapping the cap, without walls. *)
Theorem extrude_oblique fuel ctx self depth f v' :
  wf (pro.bm ctx) ->
  get_face (pro.bm ctx) (face self) = Ok f ->
  firstLoop self = (face self, v') -> v' ∈ f_verts f ->
  (Qabs (vz (cap_normal (pro.bm ctx) f depth)) <= verticalNormalThreshold)%Q ->
  let nf := length (m_faces (pro.bm ctx)) in
  exists ctx' r cap,
    Shape2d.extrude fuel ctx self depth = Ok (ctx', r) /\
    ~ raises (Shape2d.extrude fuel ctx self depth) /\
    Shape2d.extruded (pro.bm ctx) self depth = Ok (pro.bm ctx', nf) /\
    face_normal (pro.bm ctx') nf = Ok (cap_normal (pro.bm ctx) f depth) /\
    shapes r = [self; cap] /\
    cls cap = Shape2dClass /\ face cap = nf.
Proof.
  intros Hwf Hf Hfirst Hv' Habs nf.
  destruct (first_vertex_pred _ _ Hv') as (i & v & Hi & Hi').
  assert (vz (cap_normal (pro.bm ctx) f depth) <= verticalNormalThreshold)%Q as Hz.
  { eapply Qle_trans; [apply Qle_Qabs|exact Habs]. }
  apply Qgtb_le in Hz.
  destruct (extrude_run fuel ctx self depth f i v v' Hwf Hf Hi Hi' Hfirst)
    as (bm2 & Hex & HF & Hverts & Hup & Hnorm & Hside & Hrun); [by rewrite Hz|].
  rewrite Hz in Hrun.
  eexists _, _, _. split; [exact Hrun|]. simpl. split_and!; try done.
  rewrite Hrun. by intros [e He].
Qed.

(** C5 (as the code has it). The 3D shape that [extrude] returns is
    constructed with the first loop of the base shape itself; this loop is
    not the loop found on the wall that holds the first edge. *)
Theorem extrude_first_loop fuel ctx self depth f v' :
  wf (pro.bm ctx) ->
  get_face (pro.bm ctx) (face self) = Ok f ->
  firstLoop self = (face self, v') -> v' ∈ f_verts f ->
  ((verticalNormalThreshold < vz (cap_normal (pro.bm ctx) f depth))%Q ->
   length (f_verts f) <= fuel) ->
  let nf := length (m_faces (pro.bm ctx)) in
  exists ctx' r loop oppositeLoop,
    Shape2d.extrude fuel ctx self depth = Ok (ctx', r) /\
    Shape2d.extruded (pro.bm ctx) self depth = Ok (pro.bm ctx', nf) /\
    Shape2d.side_loops (pro.bm ctx') self nf = Ok (loop, oppositeLoop) /\
    firstLoop3 r = firstLoop self /\
    firstLoop3 r <> loop /\
    origin3 r = v'.
Proof.
  intros Hwf Hf Hfirst Hv' Hfuel nf.
  destruct (first_vertex_pred _ _ Hv') as (i & v & Hi & Hi').
  destruct (extrude_run fuel ctx self depth f i v v' Hwf Hf Hi Hi' Hfirst)
    as (bm2 & Hex & HF & Hverts & Hup & Hnorm & Hside & Hrun).
  { intros Hz%Qgtb_gt. by apply Hfuel. }
  destruct (base_facts _ _ _ Hwf Hf) as (_ & Hlt & _).
  eexists _, _, _, _. split; [exact Hrun|]. simpl. split_and!; try done.
  rewrite Hfirst. intros [= ? _]. lia.
Qed.

(** X25. In [extrude] the walls are walked and wrapped exactly when the z
    component of the normal of the cap itself exceeds the threshold
    (line 67 takes no absolute value): the 3D shape has more than two
    constituents in that case only. A cap whose normal points down (z
    below minus the threshold) is horizontal by the absolute value of z,
    and the 3D shape has no walls. *)
Theorem extrude_walk_condition fuel ctx self depth f v' :
  wf (pro.bm ctx) ->
  get_face (pro.bm ctx) (face self) = Ok f ->
  firstLoop self = (face self, v') -> v' ∈ f_verts f ->
  length (f_verts f) <= fuel ->
  let n := length (f_verts f) in
  let nf := length (m_faces (pro.bm ctx)) in
  let z := vz (cap_normal (pro.bm ctx) f depth) in
  exists ctx' r,
    Shape2d.extrude fuel ctx self depth = Ok (ctx', r) /\
    face_normal (pro.bm ctx') nf = Ok (cap_normal (pro.bm ctx) f depth) /\
    ((verticalNormalThreshold < z)%Q ->
       exists i, drop 2 (shapes r) = wall (f_verts f) nf <$> cfrom n i n) /\
    ((z <= verticalNormalThreshold)%Q -> drop 2 (shapes r) = []) /\
    ((verticalNormalThreshold < z)%Q <-> 2 < length (shapes r)) /\
    ((0 <= verticalNormalThreshold)%Q -> (z < - verticalNormalThreshold)%Q ->
       (verticalNormalThreshold < Qabs z)%Q /\ drop 2 (shapes r) = []).
Proof.
  intros Hwf Hf Hfirst Hv' Hfuel n nf z. subst n nf z.
  destruct (first_vertex_pred _ _ Hv') as (i & v & Hi & Hi').
  destruct (extrude_run fuel ctx self depth f i v v' Hwf Hf Hi Hi' Hfirst)
    as (bm2 & Hex & HF & Hverts & Hup & Hnorm & Hside & Hrun); [done|].
  destruct (base_facts _ _ _ Hwf Hf) as (_ & _ & _ & Hn & _).
  eexists _, _. split; [exact Hrun|]. simpl. split_and!; try done.
  - intros Hz%Qgtb_gt. rewrite Hz. by exists i.
  - intros Hz%Qgtb_le. by rewrite Hz.
  - destruct (Qgtb _ _) eqn:Hz.
    + apply Qgtb_gt in Hz. simpl. rewrite length_fmap, cfrom_length.
      split; [lia|done].
    + apply Qgtb_le in Hz. simpl. split; [|lia].
      intros Hlt. by apply Qle_not_lt in Hz.
  - intros Ht Hz.
    assert (vz (cap_normal (pro.bm ctx) f depth) <= verticalNormalThreshold)%Q as Hle.
    { apply Qlt_le_weak. eapply Qlt_le_trans; [exact Hz|].
      eapply Qle_trans; [|exact Ht]. by apply (Qopp_le_compat 0). }
    split.
    + rewrite Qabs_neg.
      * apply Qopp_lt_compat in Hz. by rewrite Qopp_involutive in Hz.
      * apply Qlt_le_weak. eapply Qlt_le_trans; [exact Hz|].
        by apply (Qopp_le_compat 0).
    + apply Qgtb_le in Hle. by rewrite Hle.
Qed.

End extrude.


(** ** Split *)

Lemma face_exists_false bm (vs : list nat) :
  (forall j g, m_faces bm !! j = Some (Some g) ->
     exists v, v ∈ vs /\ v ∉ f_verts g) ->
  face_exists bm vs = false.
Proof.
  intros Hg. unfold face_exists. apply not_true_iff_false.
  intros (o & Ho%list_elem_of_In & Hb)%existsb_exists.
  destruct o as [g|]; [|done].
  apply list_elem_of_lookup_1 in Ho as [j Hj].
  destruct (Hg _ _ Hj) as (v & Hv & Hnv).
  rewrite !andb_true_iff in Hb. destruct Hb as [[_ Hsub] _].
  apply bool_decide_eq_true in Hsub. by apply Hnv, Hsub.
Qed.

Lemma createSplitShape_ok bm a b c d :
  NoDup [a; b; c; d] ->
  a < length (m_verts bm) -> b < length (m_verts bm) ->
  c < length (m_verts bm) -> d < length (m_verts bm) ->
  face_exists bm [a; b; c; d] = false ->
  Rectangle.createSplitShape bm [a; b; c; d]
    = Ok (mkMesh (m_verts bm) (m_faces bm ++ [Some (mkFace [a; b; c; d] zero)]),
          mkShape2d RectangleClass (length (m_faces bm))
                    (length (m_faces bm), a) a None).
Proof.
  intros Hnd Ha Hb Hc Hd Hex. unfold Rectangle.createSplitShape, faces_new.
  rewrite decide_False by (simpl; lia).
  rewrite decide_True by (repeat constructor; done).
  rewrite decide_True by done. rewrite Hex. simpl.
  unfold face_loops_0, get_face. simpl.
  rewrite lookup_app_r, Nat.sub_diag by done. simpl.
  unfold Shape2d.__init__, loop_face, loop_vert, check_loop, get_face. simpl.
  rewrite lookup_app_r, Nat.sub_diag by done. simpl.
  rewrite decide_True by by left. simpl.
  unfold co. simpl. by destruct (lookup_lt_is_Some_2 (m_verts bm) a Ha) as [x ->].
Qed.

Lemma wf_extend bm cs g :
  wf bm -> NoDup (f_verts g) -> 3 <= length (f_verts g) ->
  Forall (fun v => v < length (m_verts bm) + length cs) (f_verts g) ->
  wf (mkMesh (m_verts bm ++ cs) (m_faces bm ++ [Some g])).
Proof.
  intros Hwf Hnd Hlen Hv i f Hi. simpl in *. rewrite length_app.
  apply lookup_app_Some in Hi as [Hi|[_ Hi]].
  - destruct (Hwf _ _ Hi) as (? & ? & Hf). split_and!; try done.
    eapply Forall_impl; [exact Hf|]. simpl. lia.
  - apply list_lookup_singleton_Some in Hi as [_ [= <-]]. done.
Qed.

Lemma NoDup_4 (a b c d : nat) :
  a <> b -> a <> c -> a <> d -> b <> c -> b <> d -> c <> d -> NoDup [a; b; c; d].
Proof.
  intros. repeat (apply NoDup_cons; split); try apply NoDup_nil_2;
    rewrite ?not_elem_of_cons; split_and?; try done; apply not_elem_of_nil.
Qed.

Section split.
Context `{Imports}.

Lemma cut_loop_ok direction origin1 origin2 o1 o2 vec1 vec2 e old cuts :
  forall bm prev1 prev2,
  wf bm -> old <= length (m_verts bm) -> e < old ->
  (forall j g, m_faces bm !! j = Some (Some g) -> e ∈ f_verts g ->
     Forall (fun v => v < old) (f_verts g)) ->
  co bm origin1 = Ok o1 -> co bm origin2 = Ok o2 ->
  prev1 <> prev2 ->
  prev1 < length (m_verts bm) -> prev2 < length (m_verts bm) ->
  prev1 <> e -> prev2 <> e ->
  exists bm' p1 p2 out,
    Rectangle.cut_loop direction bm origin1 origin2 vec1 vec2 prev1 prev2 cuts
      = Ok (bm', (p1, p2), out) /\
    wf bm' /\
    (forall j g, m_faces bm' !! j = Some (Some g) -> e ∈ f_verts g ->
       Forall (fun v => v < old) (f_verts g)) /\
    m_verts bm' = m_verts bm ++ cut_verts o1 o2 vec1 vec2 cuts /\
    length (m_faces bm') = length (m_faces bm) + length cuts /\
    (forall j, j < length (m_faces bm) -> m_faces bm' !! j = m_faces bm !! j) /\
    p1 <> p2 /\ p1 < length (m_verts bm') /\ p2 < length (m_verts bm') /\
    p1 <> e /\ p2 <> e /\
    ((cuts = [] /\ p1 = prev1 /\ p2 = prev2) \/ (cuts <> [] /\ old <= p1 /\ old <= p2)) /\
    length out = length cuts /\
    (forall t cut, cuts !! t = Some cut ->
       exists s, out !! t = Some (CutShape s, cut.2) /\
         cls s = RectangleClass /\ face s = length (m_faces bm) + t /\
         firstLoop s = (face s, origin s) /\ matrix s = None).
Proof.
  induction cuts as [|cut cuts IH];
    intros bm prev1 prev2 Hwf Hold He HS Ho1 Ho2 Hp Hp1 Hp2 Hpe1 Hpe2.
  - exists bm, prev1, prev2, []. simpl. unfold cut_verts. simpl.
    rewrite app_nil_r, Nat.add_0_r. split_and!; try done. by left.
  - set (nv := length (m_verts bm)). set (nf := length (m_faces bm)).
    set (c1 := add o1 (scale cut.1 vec1)). set (c2 := add o2 (scale cut.1 vec2)).
    set (vs := if decide (direction = pro.x)
               then [prev1; nv; nv + 1; prev2] else [prev2; prev1; nv; nv + 1]).
    set (bm2 := mkMesh ((m_verts bm ++ [c1]) ++ [c2]) (m_faces bm)).
    set (g := mkFace vs zero).
    set (bm3 := mkMesh (m_verts bm2) (m_faces bm ++ [Some g])).
    assert (length (m_verts bm2) = nv + 2) as Hlen2.
    { simpl. rewrite !length_app. simpl. fold nv. lia. }
    fold nv in Hp1, Hp2.
    assert (vs = [prev1; nv; nv + 1; prev2] \/ vs = [prev2; prev1; nv; nv + 1])
      as Hcases by (unfold vs; destruct (decide _); auto).
    assert (NoDup vs) as Hnd.
    { destruct Hcases as [E|E]; rewrite E; apply NoDup_4; lia. }
    assert (Forall (fun v => v < nv + 2) vs) as Hvs.
    { destruct Hcases as [E|E]; rewrite E; repeat constructor; lia. }
    assert (length vs = 4) as Hvs4.
    { by destruct Hcases as [E|E]; rewrite E. }
    assert (nv ∈ vs) as Hnvin.
    { destruct Hcases as [E|E]; rewrite E; set_solver. }
    assert (e ∉ vs) as Hevs.
    { assert (e < nv) by lia.
      destruct Hcases as [E|E]; rewrite E, !not_elem_of_cons; split_and!;
        try (done || lia || apply not_elem_of_nil). }
    assert (exists s, Rectangle.createSplitShape bm2 vs = Ok (bm3, s) /\
              cls s = RectangleClass /\ face s = nf /\
              firstLoop s = (face s, origin s) /\ matrix s = None)
      as (s & Hcreate & Hs1 & Hs2 & Hs3 & Hs4).
    { assert (face_exists bm2 vs = false) as Hfe.
      { apply face_exists_false. intros j g' Hg'. exists nv. split; [done|].
        destruct (Hwf _ _ Hg') as (_ & _ & Hv). rewrite Forall_forall in Hv.
        intros Hin%Hv. unfold nv in Hin. lia. }
      unfold bm3, g.
      destruct Hcases as [E|E]; rewrite E in *.
      - eexists. split; [apply (createSplitShape_ok bm2); try done; rewrite ?Hlen2; lia|].
        done.
      - eexists. split; [apply (createSplitShape_ok bm2); try done; rewrite ?Hlen2; lia|].
        done. }
    assert (wf bm3) as Hwf3.
    { unfold bm3, bm2. simpl. rewrite <- app_assoc.
      apply wf_extend; try done; simpl; lia. }
    destruct (IH bm3 nv (nv + 1)) as (bm' & p1 & p2 & out & Hrun & Hwf' & HS' & Hv' & Hf' & Hold' & Hq & Hq1 & Hq2 & Hqe1 & Hqe2 & Hdisj & Hlen & Hout); try done.
    { simpl. rewrite !length_app. simpl. lia. }
    { intros j g' Hg' Hin. simpl in Hg'.
      apply lookup_app_Some in Hg' as [Hg'|[_ Hg']]; [by eapply HS|].
      apply list_lookup_singleton_Some in Hg' as [_ [= <-]]. done. }
    { unfold co in *. simpl. rewrite <- app_assoc.
      destruct (m_verts bm !! origin1) eqn:E; [|done].
      by rewrite (lookup_app_l_Some _ _ _ _ E). }
    { unfold co in *. simpl. rewrite <- app_assoc.
      destruct (m_verts bm !! origin2) eqn:E; [|done].
      by rewrite (lookup_app_l_Some _ _ _ _ E). }
    { lia. }
    { simpl. rewrite !length_app. simpl. fold nv. lia. }
    { simpl. rewrite !length_app. simpl. fold nv. lia. }
    { unfold nv. lia. }
    { unfold nv. lia. }
    exists bm', p1, p2, ((CutShape s, cut.2) :: out).
    split_and!; try done.
    + simpl. rewrite Ho1. simpl. rewrite Ho2. simpl.
      unfold verts_new. simpl. fold nv c1 c2. rewrite length_app. simpl.
      fold nv. fold bm2. fold vs. rewrite Hcreate. simpl. rewrite Hrun. done.
    + rewrite Hv'. simpl. unfold cut_verts. simpl. fold c1 c2.
      rewrite <- !app_assoc. done.
    + rewrite Hf'. simpl. rewrite length_app. simpl. lia.
    + intros j Hj. rewrite Hold' by (simpl; rewrite length_app; lia).
      simpl. by rewrite lookup_app_l.
    + right. split; [done|]. assert (old <= nv) by done.
      destruct Hdisj as [(_ & -> & ->)|(_ & ? & ?)]; lia.
    + simpl. by rewrite Hlen.
    + intros [|t] cut' Ht; simpl in Ht.
      * injection Ht as <-. exists s. rewrite Nat.add_0_r. done.
      * destruct (Hout t cut' Ht) as (s' & Hs' & ? & Hface & ? & ?).
        exists s'. split_and!; try done. rewrite Hface. simpl.
        rewrite length_app. simpl. lia.
Qed.

Lemma getEndVertex_ok bm j g a b :
  get_face bm j = Ok g -> NoDup (f_verts g) -> dedge (f_verts g) a b ->
  getEndVertex bm (j, a) = Ok b.
Proof.
  intros Hg Hnd Hab. destruct (dedge_succ _ _ (dedge_r _ _ _ Hab)) as [c Hbc].
  destruct (loop_ops _ _ _ _ _ Hg Hnd Hab) as (Hn & _).
  destruct (loop_ops _ _ _ _ _ Hg Hnd Hbc) as (_ & _ & Hv & _).
  unfold getEndVertex. rewrite Hn. simpl. done.
Qed.

Lemma co_lt bm v : v < length (m_verts bm) -> exists c, co bm v = Ok c.
Proof.
  intros Hv. unfold co. destruct (lookup_lt_is_Some_2 _ _ Hv) as [c ->]. eauto.
Qed.

Lemma last_Some {A} (l : list A) : l <> [] -> exists x, last l = Some x.
Proof.
  intros Hl. destruct (last l) eqn:E; [eauto|]. by apply last_None in E.
Qed.

#[local] Arguments Rectangle.cut_loop : simpl never.
#[local] Arguments Rectangle.createSplitShape : simpl never.
#[local] Arguments Rectangle.cuts : simpl never.
#[local] Arguments Rectangle.referenceLoop : simpl never.
#[local] Arguments last : simpl never.
#[local] Arguments take : simpl never.
#[local] Arguments co : simpl never.

Lemma split_run ctx self direction parts f v0 :
  wf (pro.bm ctx) -> cls self = RectangleClass ->
  get_face (pro.bm ctx) (face self) = Ok f ->
  firstLoop self = (face self, v0) -> v0 ∈ f_verts f ->
  4 <= length (f_verts f) ->
  exists rl cs,
    Rectangle.referenceLoop (pro.bm ctx) self direction = Ok rl /\
    Rectangle.cuts (pro.bm ctx) rl parts = Ok cs /\
    (2 <= length cs ->
     exists ctx' out o1 o2 vec1 vec2,
       Rectangle.split ctx self direction parts = Ok (ctx', out) /\
       wf (pro.bm ctx') /\
       pro.facesForRemoval ctx' = pro.facesForRemoval ctx ++ [face self] /\
       m_verts (pro.bm ctx')
         = m_verts (pro.bm ctx)
             ++ cut_verts o1 o2 vec1 vec2 (take (length cs - 1) cs) /\
       co (pro.bm ctx) rl.2 = Ok o1 /\
       length (m_faces (pro.bm ctx'))
         = length (m_faces (pro.bm ctx)) + length cs /\
       (forall j, j < length (m_faces (pro.bm ctx)) ->
          m_faces (pro.bm ctx') !! j = m_faces (pro.bm ctx) !! j) /\
       length out = length cs /\
       (forall t cut, cs !! t = Some cut ->
          exists s, out !! t = Some (CutShape s, cut.2) /\
            cls s = RectangleClass /\
            face s = length (m_faces (pro.bm ctx)) + t /\
            firstLoop s = (face s, origin s) /\ matrix s = None)).
Proof.
  intros Hwf Hcls Hf Hfirst Hv0 Hn.
  destruct (base_facts _ _ _ Hwf Hf) as (Hl & Hlt & Hnd & _ & Hvs).
  set (bm := pro.bm ctx) in *. set (vs := f_verts f) in *. set (n := length vs) in *.
  assert (exists a r0, vs !! a = Some r0 /\
            Rectangle.referenceLoop bm self direction = Ok (face self, r0))
    as (a & r0 & Ha & Hrl).
  { apply list_elem_of_lookup_1 in Hv0 as [i0 Hi0].
    unfold Rectangle.referenceLoop. case_decide.
    - exists i0, v0. by rewrite Hfirst.
    - destruct (lookup_next f i0 v0 Hi0) as [v1 Hv1]. exists (cnext n i0), v1.
      split; [done|]. rewrite Hfirst.
      eapply loop_ops; [done..|]. by exists i0. }
  pose proof (lookup_lt_Some _ _ _ Ha) as Han.
  destruct (lookup_next f _ _ Ha) as [e1 He1].
  destruct (lookup_next f _ _ He1) as [e2 He2].
  destruct (lookup_next f _ _ He2) as [o2 Ho2].
  fold vs n in He1, He2, Ho2.
  assert (dedge vs r0 e1) as D1 by by exists a.
  assert (dedge vs e1 e2) as D2 by by exists (cnext n a).
  assert (dedge vs e2 o2) as D3 by by exists (cnext n (cnext n a)).
  assert (r0 < length (m_verts bm)) as Hr0 by (eapply Hvs, dedge_l, D1).
  assert (e1 < length (m_verts bm)) as He1v by (eapply Hvs, dedge_l, D2).
  assert (e2 < length (m_verts bm)) as He2v by (eapply Hvs, dedge_l, D3).
  assert (o2 < length (m_verts bm)) as Ho2v by (eapply Hvs, dedge_r, D3).
  pose proof (cnext_lt n a Han) as Ha1.
  pose proof (cnext_lt n _ Ha1) as Ha2.
  pose proof (cnext_lt n _ Ha2) as Ha3.
  assert (r0 <> e1 /\ r0 <> o2 /\ o2 <> e1 /\ e1 <> e2) as (N1 & N2 & N3 & N4).
  { split_and!; intros ->.
    - pose proof (NoDup_lookup _ _ _ _ Hnd Ha He1) as E.
      revert E. unfold cnext. repeat case_decide; lia.
    - pose proof (NoDup_lookup _ _ _ _ Hnd Ha Ho2) as E.
      revert E. unfold cnext. repeat case_decide; lia.
    - pose proof (NoDup_lookup _ _ _ _ Hnd He1 Ho2) as E.
      revert E. unfold cnext. repeat case_decide; lia.
    - pose proof (NoDup_lookup _ _ _ _ Hnd He1 He2) as E.
      revert E. unfold cnext. repeat case_decide; lia. }
  destruct (loop_ops _ _ _ _ _ Hf Hnd D1) as (Hn1 & Hedge & Hv1 & _).
  destruct (loop_ops _ _ _ _ _ Hf Hnd D2) as (Hn2 & _).
  destruct (loop_ops _ _ _ _ _ Hf Hnd D3) as (_ & _ & Hv3 & _).
  pose proof (getEndVertex_ok _ _ _ _ _ Hf Hnd D1) as Hend1.
  pose proof (getEndVertex_ok _ _ _ _ _ Hf Hnd D3) as Hend3.
  destruct (co_lt bm r0 Hr0) as [cr0 Hcr0].
  destruct (co_lt bm e1 He1v) as [ce1 Hce1].
  destruct (co_lt bm e2 He2v) as [ce2 Hce2].
  destruct (co_lt bm o2 Ho2v) as [co2 Hco2].
  assert (exists cs, Rectangle.cuts bm (face self, r0) parts = Ok cs) as [cs Hcs].
  { unfold Rectangle.cuts. rewrite Hedge. simpl.
    destruct (co_lt bm (r0 `max` e1)) as [c1 ->]; [lia|].
    destruct (co_lt bm (r0 `min` e1)) as [c0 ->]; [lia|]. simpl. eauto. }
  exists (face self, r0), cs. split; [done|]. split; [done|]. intros Hcs2.
  set (init := take (length cs - 1) cs).
  assert (length init = length cs - 1) as Hinit.
  { unfold init. rewrite length_take. lia. }
  destruct (cut_loop_ok direction r0 o2 cr0 co2 (sub ce1 cr0) (sub ce2 co2)
              e1 (length (m_verts bm)) init bm r0 o2)
    as (bm' & p1 & p2 & out & Hrun & Hwf' & HS' & Hv' & Hf' & Hold' & Hq & Hq1 & Hq2
        & Hqe1 & Hqe2 & Hdisj & Hlen & Hout); try done.
  { intros j g Hg _. by destruct (Hwf _ _ Hg) as (_ & _ & ?). }
  destruct Hdisj as [(Hnil & _)|(_ & Hp1 & Hp2)].
  { rewrite Hnil in Hinit. simpl in Hinit. lia. }
  assert (length (m_verts bm) <= length (m_verts bm')) as Hmono.
  { rewrite Hv', length_app. lia. }
  set (verts := if decide (direction = pro.x)
                then [p1; e1; e2; p2] else [p2; p1; e1; e2]).
  assert (verts = [p1; e1; e2; p2] \/ verts = [p2; p1; e1; e2])
    as Hcases by (unfold verts; destruct (decide _); auto).
  assert (exists s, Rectangle.createSplitShape bm' verts
            = Ok (mkMesh (m_verts bm') (m_faces bm' ++ [Some (mkFace verts zero)]), s) /\
            cls s = RectangleClass /\ face s = length (m_faces bm') /\
            firstLoop s = (face s, origin s) /\ matrix s = None)
    as (s & Hcreate & Hs1 & Hs2 & Hs3 & Hs4).
  { assert (face_exists bm' verts = false) as Hfe.
    { apply face_exists_false. intros j g Hg.
      destruct (decide (e1 ∈ f_verts g)) as [Hin|Hnin].
      - exists p1. split; [destruct Hcases as [-> | ->]; set_solver|].
        pose proof (HS' _ _ Hg Hin) as Hall. rewrite Forall_forall in Hall.
        intros Hp%Hall. lia.
      - exists e1. split; [destruct Hcases as [-> | ->]; set_solver|done]. }
    destruct Hcases as [E|E]; rewrite E in *.
    - eexists. split; [apply (createSplitShape_ok bm'); try done; try lia|done].
      apply NoDup_4; lia.
    - eexists. split; [apply (createSplitShape_ok bm'); try done; try lia|done].
      apply NoDup_4; lia. }
  destruct (last_Some cs) as [cut Hcut]; [intros ->; simpl in Hcs2; lia|].
  eexists _, (out ++ [(CutShape s, cut.2)]), cr0, co2, (sub ce1 cr0), (sub ce2 co2).
  split.
  { unfold Rectangle.split. rewrite Hcls. simpl. fold bm. rewrite Hrl. simpl.
    rewrite Hcs. simpl. rewrite Hn1. simpl. rewrite Hn2. simpl.
    rewrite Hv1. simpl. rewrite Hend3. simpl. rewrite Hend1. simpl.
    rewrite Hv3. simpl. rewrite Hce1. simpl. rewrite Hcr0. simpl.
    rewrite Hce2. simpl. rewrite Hco2. simpl.
    fold init. rewrite Hrun. simpl. fold verts. rewrite Hcreate. simpl.
    rewrite Hcut. simpl. reflexivity. }
  simpl. split_and!; try done.
  - pose proof (wf_extend bm' [] (mkFace verts zero) Hwf') as Hx.
    rewrite app_nil_r in Hx. apply Hx; simpl.
    + destruct Hcases as [-> | ->]; apply NoDup_4; lia.
    + destruct Hcases as [-> | ->]; simpl; lia.
    + rewrite Nat.add_0_r.
      destruct Hcases as [-> | ->]; repeat constructor; lia.
  - rewrite length_app, Hf', Hinit. simpl. lia.
  - intros j Hj. rewrite lookup_app_l by (rewrite Hf'; lia). by apply Hold'.
  - rewrite length_app, Hlen, Hinit. simpl. lia.
  - intros t cut' Ht. destruct (decide (t < length cs - 1)) as [Hlt'|Hge].
    + assert (init !! t = Some cut') as Ht'.
      { unfold init. by rewrite lookup_take_lt. }
      destruct (Hout t cut' Ht') as (s' & Hs' & ?).
      exists s'. split; [|done]. by apply lookup_app_l_Some.
    + pose proof (lookup_lt_Some _ _ _ Ht) as Htl.
      assert (t = length cs - 1) as -> by lia.
      assert (cut' = cut) as ->.
      { rewrite last_lookup in Hcut. replace (pred (length cs)) with (length cs - 1) in Hcut by lia.
        congruence. }
      exists s. split_and!; try done.
      * rewrite lookup_app_r by lia. rewrite Hlen, Hinit, Nat.sub_diag. done.
      * rewrite Hs2, Hf', Hinit. done.
Qed.

End split.


Section split_claims.
Context `{Imports}.

#[local] Arguments Rectangle.cut_loop : simpl never.
#[local] Arguments Rectangle.createSplitShape : simpl never.
#[local] Arguments Rectangle.cuts : simpl never.
#[local] Arguments Rectangle.referenceLoop : simpl never.
#[local] Arguments last : simpl never.
#[local] Arguments take : simpl never.
#[local] Arguments co : simpl never.

Lemma cuts_length bm rl parts cs :
  Rectangle.cuts bm rl parts = Ok cs ->
  (forall l, length (calculateSplit parts l) = length parts) ->
  length cs = length parts.
Proof.
  unfold Rectangle.cuts. intros Hcs Hcount.
  destruct (loop_edge bm rl) as [a| |]; simpl in Hcs; [|congruence..].
  destruct (co bm a.2); simpl in Hcs; [|congruence..].
  destruct (co bm a.1); simpl in Hcs; [|congruence..].
  injection Hcs as <-. apply Hcount.
Qed.

(** C1 (as the code has it). Splitting a rectangle (a face with four
    vertices) along any axis, when [calculateSplit] returns one cut per
    size and there are n >= 2 sizes, returns n entries in the order of
    the cuts. Each entry is a pair (shape, rule): slot 0 holds the
    [Rectangle] on the face created for the cut (the faces are created in
    the order of the cuts), which has replaced the cut parameter, and
    slot 1 still holds the rule that [calculateSplit] put there. The cut
    parameters are not returned: they are the positions of the vertices
    created on the reference edge and on the opposite edge. *)
Theorem split_entries ctx self direction parts f v0 :
  wf (pro.bm ctx) -> cls self = RectangleClass ->
  get_face (pro.bm ctx) (face self) = Ok f ->
  firstLoop self = (face self, v0) -> v0 ∈ f_verts f ->
  length (f_verts f) = 4 ->
  (forall l, length (calculateSplit parts l) = length parts) ->
  2 <= length parts ->
  exists rl cs ctx' out o1 o2 vec1 vec2,
    Rectangle.referenceLoop (pro.bm ctx) self direction = Ok rl /\
    Rectangle.cuts (pro.bm ctx) rl parts = Ok cs /\
    Rectangle.split ctx self direction parts = Ok (ctx', out) /\
    length out = length parts /\
    (forall t cut, cs !! t = Some cut ->
       exists s, out !! t = Some (CutShape s, cut.2) /\
         cls s = RectangleClass /\
         face s = length (m_faces (pro.bm ctx)) + t /\
         firstLoop s = (face s, origin s)) /\
    (forall e q, e ∈ out -> e.1 <> CutValue q) /\
    m_verts (pro.bm ctx')
      = m_verts (pro.bm ctx)
          ++ cut_verts o1 o2 vec1 vec2 (take (length cs - 1) cs) /\
    co (pro.bm ctx) rl.2 = Ok o1 /\
    pro.facesForRemoval ctx' = pro.facesForRemoval ctx ++ [face self].
Proof.
  intros Hwf Hcls Hf Hfirst Hv0 Hn Hcount Hparts.
  destruct (split_run ctx self direction parts f v0 Hwf Hcls Hf Hfirst Hv0)
    as (rl & cs & Hrl & Hcs & Hrun); [lia|].
  pose proof (cuts_length _ _ _ _ Hcs Hcount) as Hlen.
  destruct Hrun as (ctx' & out & o1 & o2 & vec1 & vec2 & Hsplit & _ & Hrem & Hv
                    & Ho1 & _ & _ & Hout & Hentries); [lia|].
  exists rl, cs, ctx', out, o1, o2, vec1, vec2. split_and!; try done.
  - congruence.
  - intros t cut Ht. destruct (Hentries t cut Ht) as (s & ? & ? & ? & ? & _). eauto.
  - intros e q (t & Ht)%list_elem_of_lookup_1 He.
    pose proof (lookup_lt_Some _ _ _ Ht) as Hlt. rewrite Hout in Hlt.
    destruct (lookup_lt_is_Some_2 cs t Hlt) as [cut Hcut].
    destruct (Hentries t cut Hcut) as (s & Hs & _).
    rewrite Hs in Ht. injection Ht as <-. done.
Qed.

Lemma split_triangle ctx self direction parts f v0 :
  wf (pro.bm ctx) -> cls self = RectangleClass ->
  get_face (pro.bm ctx) (face self) = Ok f ->
  firstLoop self = (face self, v0) -> v0 ∈ f_verts f ->
  length (f_verts f) = 3 ->
  Rectangle.split ctx self direction parts = Raise ValueError.
Proof.
  intros Hwf Hcls Hf Hfirst Hv0 Hn.
  destruct (base_facts _ _ _ Hwf Hf) as (Hl & Hlt & Hnd & _ & Hvs).
  assert (exists a r0, f_verts f !! a = Some r0 /\
            Rectangle.referenceLoop (pro.bm ctx) self direction = Ok (face self, r0))
    as (a & r0 & Ha & Hrl).
  { apply list_elem_of_lookup_1 in Hv0 as [i0 Hi0].
    unfold Rectangle.referenceLoop. case_decide.
    - exists i0, v0. by rewrite Hfirst.
    - destruct (lookup_next f i0 v0 Hi0) as [v1 Hv1]. eexists _, v1.
      split; [exact Hv1|]. rewrite Hfirst.
      eapply loop_ops; [done..|]. by exists i0. }
  pose proof (lookup_lt_Some _ _ _ Ha) as Han.
  destruct (lookup_next f _ _ Ha) as [e1 He1].
  destruct (lookup_next f _ _ He1) as [e2 He2].
  assert (f_verts f !! cnext (length (f_verts f))
            (cnext (length (f_verts f)) (cnext (length (f_verts f)) a)) = Some r0)
    as Ho2.
  { rewrite <- Ha. f_equal. rewrite Hn in *. unfold cnext. repeat case_decide; lia. }
  assert (dedge (f_verts f) r0 e1) as D1 by by exists a.
  assert (dedge (f_verts f) e1 e2) as D2 by by eexists.
  assert (dedge (f_verts f) e2 r0) as D3 by by eexists.
  assert (r0 < length (m_verts (pro.bm ctx))) as Hr0 by (eapply Hvs, dedge_l, D1).
  assert (e1 < length (m_verts (pro.bm ctx))) as He1v by (eapply Hvs, dedge_l, D2).
  assert (e2 < length (m_verts (pro.bm ctx))) as He2v by (eapply Hvs, dedge_l, D3).
  destruct (loop_ops _ _ _ _ _ Hf Hnd D1) as (Hn1 & Hedge & Hv1 & _).
  destruct (loop_ops _ _ _ _ _ Hf Hnd D2) as (Hn2 & _).
  destruct (loop_ops _ _ _ _ _ Hf Hnd D3) as (_ & _ & Hv3 & _).
  pose proof (getEndVertex_ok _ _ _ _ _ Hf Hnd D1) as Hend1.
  pose proof (getEndVertex_ok _ _ _ _ _ Hf Hnd D3) as Hend3.
  destruct (co_lt _ r0 Hr0) as [cr0 Hcr0].
  destruct (co_lt _ e1 He1v) as [ce1 Hce1].
  destruct (co_lt _ e2 He2v) as [ce2 Hce2].
  assert (exists cs, Rectangle.cuts (pro.bm ctx) (face self, r0) parts = Ok cs)
    as [cs Hcs].
  { unfold Rectangle.cuts. rewrite Hedge. simpl.
    destruct (co_lt (pro.bm ctx) (r0 `max` e1)) as [c1 ->]; [lia|].
    destruct (co_lt (pro.bm ctx) (r0 `min` e1)) as [c0 ->]; [lia|]. simpl. eauto. }
  assert (forall vs bm', ~ NoDup vs -> 3 <= length vs ->
            Forall (fun v => v < length (m_verts bm')) vs ->
            Rectangle.createSplitShape bm' vs = Raise ValueError) as Hdup.
  { intros vs bm' Hd Hlen Hvalid. unfold Rectangle.createSplitShape, faces_new.
    rewrite decide_False by lia. rewrite decide_True by done.
    by rewrite decide_False. }
  unfold Rectangle.split. rewrite Hcls. simpl. rewrite Hrl. simpl.
  rewrite Hcs. simpl. rewrite Hn1. simpl. rewrite Hn2. simpl.
  rewrite Hv1. simpl. rewrite Hend3. simpl. rewrite Hend1. simpl.
  rewrite Hv3. simpl. rewrite Hce1. simpl. rewrite Hcr0. simpl.
  rewrite Hce2. simpl.
  destruct (take (length cs - 1) cs) as [|cut init].
  - unfold Rectangle.cut_loop. simpl.
    case_decide; (rewrite Hdup; [done| |simpl; lia|repeat constructor; lia]).
    + intros Hd%NoDup_cons_1_1. apply Hd. set_solver.
    + intros Hd%NoDup_cons_1_1. apply Hd. set_solver.
  - unfold Rectangle.cut_loop. rewrite Hcr0. simpl.
    unfold verts_new. simpl. rewrite !length_app. simpl.
    case_decide; (rewrite Hdup; [done| |simpl; lia|]).
    + intros Hd%NoDup_cons_1_1. apply Hd. set_solver.
    + simpl. rewrite !length_app. simpl. repeat constructor; lia.
    + intros Hd%NoDup_cons_1_1. apply Hd. set_solver.
    + simpl. rewrite !length_app. simpl. repeat constructor; lia.
Qed.

(** C6 (as the code has it). [split] makes no check of the number of
    boundary vertices of its target. For a target with three boundary
    vertices it fails with the [ValueError] of the face creation of the
    mesh kernel, which refuses a face that uses a vertex twice. For a
    target with more than four boundary vertices it does not fail: with
    at least two cuts it returns one entry per cut, as for a
    quadrilateral, built on the reference edge and on the edge two steps
    further on the boundary. *)
Theorem split_vertex_count ctx self direction parts f v0 :
  wf (pro.bm ctx) -> cls self = RectangleClass ->
  get_face (pro.bm ctx) (face self) = Ok f ->
  firstLoop self = (face self, v0) -> v0 ∈ f_verts f ->
  length (f_verts f) <> 4 ->
  (length (f_verts f) = 3 /\
   Rectangle.split ctx self direction parts = Raise ValueError) \/
  (4 < length (f_verts f) /\
   exists rl cs,
     Rectangle.referenceLoop (pro.bm ctx) self direction = Ok rl /\
     Rectangle.cuts (pro.bm ctx) rl parts = Ok cs /\
     (2 <= length cs ->
      exists ctx' out,
        Rectangle.split ctx self direction parts = Ok (ctx', out) /\
        ~ raises (Rectangle.split ctx self direction parts) /\
        length out = length cs /\
        (forall t cut, cs !! t = Some cut ->
           exists s, out !! t = Some (CutShape s, cut.2) /\
             cls s = RectangleClass /\
             face s = length (m_faces (pro.bm ctx)) + t) /\
        pro.facesForRemoval ctx' = pro.facesForRemoval ctx ++ [face self])).
Proof.
  intros Hwf Hcls Hf Hfirst Hv0 Hn.
  destruct (base_facts _ _ _ Hwf Hf) as (_ & _ & _ & Hn3 & _).
  destruct (decide (length (f_verts f) = 3)) as [H3|H3].
  - left. split; [done|]. by eapply split_triangle.
  - right. split; [lia|].
    destruct (split_run ctx self direction parts f v0 Hwf Hcls Hf Hfirst Hv0)
      as (rl & cs & Hrl & Hcs & Hrun); [lia|].
    exists rl, cs. split_and!; try done. intros Hcs2.
    destruct (Hrun Hcs2) as (ctx' & out & o1 & o2 & vec1 & vec2 & Hsplit & _ & Hrem
                    & _ & _ & _ & _ & Hout & Hentries).
    exists ctx', out. split_and!; try done.
    + rewrite Hsplit. by intros [e He].
    + intros t cut Ht. destruct (Hentries t cut Ht) as (s & ? & ? & ? & _). eauto.
Qed.

End split_claims.


(** ** The statements on the sample values *)

(** the scenario of the sizing algorithm: sizes 1, 2, 1 *)
Example proportional_1_2_1 :
  sample.proportional [(1%Q, 7); (2%Q, 8); (1%Q, 9)] 10
    = [(1 # 4, 7); (3 # 4, 8); (1%Q, 9)].
Proof. reflexivity. Qed.

(** the faces of the rectangle after its extrusion: the base reversed,
    the cap, and the four walls *)
Example lot_extruded_faces :
  f_verts <$> omap id (extruded_faces sample.lot 0 (mkFace [0; 1; 2; 3] (vec 0 0 1)))
    = [[0; 3; 2; 1]; [4; 5; 6; 7];
       [0; 1; 5; 4]; [1; 2; 6; 5]; [2; 3; 7; 6]; [3; 0; 4; 7]].
Proof. reflexivity. Qed.

(** the constituents of the extruded rectangle, by class and first loop *)
Example lot_extrude_shapes :
  (r ← @Shape2d.extrude sample.imports 4 (sample.ctx sample.lot)
         (sample.shape Shape2dClass 0 0) 3;
   Ok ((fun s => (cls s, firstLoop s)) <$> shapes r.2))
    = Ok [(Shape2dClass, (0, 0)); (Shape2dClass, (1, 7));
          (RectangleClass, (5, 3)); (RectangleClass, (2, 0));
          (RectangleClass, (3, 1)); (RectangleClass, (4, 2))].
Proof. vm_compute. reflexivity. Qed.

(** three iterations do not close the ring of four walls *)
Example lot_extrude_fuel :
  @Shape2d.extrude sample.imports 3 (sample.ctx sample.lot)
    (sample.shape Shape2dClass 0 0) 3 = Fuel.
Proof. vm_compute. reflexivity. Qed.

(** one cut on a rectangle: the kernel refuses the face, which exists *)
Example lot_split_one_cut :
  @Rectangle.split sample.imports (sample.ctx sample.lot)
    (sample.shape RectangleClass 0 0) pro.x [(1%Q, 7)] = Raise ValueError.
Proof. vm_compute. reflexivity. Qed.

(** the cap of the face on the slope is not horizontal (its normal is
    (0, -0.8, 0.6)), and its extrusion raises nothing: it returns the base
    and the cap *)
Lemma slope_extrude_returns :
  (exists ctx' r,
     @Shape2d.extrude sample.imports 0 (sample.ctx sample.slope)
       (sample.shape Shape2dClass 0 0) 3 = Ok (ctx', r) /\
     face_normal (pro.bm ctx') 1 = Ok (vec 0 (-4 # 5) (3 # 5)) /\
     length (shapes r) = 2) /\
  (Qabs (vz (vec 0 (-4 # 5) (3 # 5))) <= @verticalNormalThreshold sample.imports)%Q /\
  ~ raises (@Shape2d.extrude sample.imports 0 (sample.ctx sample.slope)
              (sample.shape Shape2dClass 0 0) 3).
Proof.
  split; [|split].
  - eexists _, _. split; [vm_compute; reflexivity|]. split; reflexivity.
  - by vm_compute.
  - intros [e He]. vm_compute in He. discriminate He.
Qed.

(** C4. The walls are not walked for a cap that is horizontal and faces
    down. The rectangle that faces down is extruded by 3: the normal that
    the kernel calculates for the cap is (0, 0, -1), so the absolute value
    of its z component exceeds the threshold and the cap is horizontal;
    yet [extrude] wraps no wall and returns the base and the cap only,
    because line 67 compares the z component itself with the threshold.
    The same rectangle facing up is returned with its four walls. *)
Lemma lot_down_extrude_no_walls :
  (exists ctx' r cap,
     @Shape2d.extrude sample.imports 4 (sample.ctx sample.lot_down)
       (sample.shape Shape2dClass 0 0) 3 = Ok (ctx', r) /\
     face_normal (pro.bm ctx') 1 = Ok (vec 0 0 (-1)) /\
     shapes r = [sample.shape Shape2dClass 0 0; cap] /\ face cap = 1) /\
  (@verticalNormalThreshold sample.imports < Qabs (vz (vec 0 0 (-1))))%Q /\
  (vz (vec 0 0 (-1)) < - @verticalNormalThreshold sample.imports)%Q /\
  (exists ctx' r,
     @Shape2d.extrude sample.imports 4 (sample.ctx sample.lot)
       (sample.shape Shape2dClass 0 0) 3 = Ok (ctx', r) /\
     face_normal (pro.bm ctx') 1 = Ok (vec 0 0 1) /\
     cls <$> drop 2 (shapes r)
       = [RectangleClass; RectangleClass; RectangleClass; RectangleClass]).
Proof.
  split_and!.
  - eexists _, _, _. split; [vm_compute; reflexivity|].
    split; [reflexivity|]. split; reflexivity.
  - by vm_compute.
  - by vm_compute.
  - eexists _, _. split; [vm_compute; reflexivity|]. split; reflexivity.
Qed.

(** C3. The extrusion of a horizontal face that faces down has no walls.
    The triangle that faces down (N = 3) is extruded by 3: the normal
    that the kernel calculates for the cap is (0, 0, -1), the cap is
    horizontal, and [extrude] returns 2 constituents, the base and the
    cap, not N + 2 = 5: the walls exist in the mesh (faces 2, 3 and 4) but
    line 67, which compares the z component itself with the threshold,
    leaves them out. *)
Lemma triangle_down_extrude_shapes :
  exists ctx' r cap,
    @Shape2d.extrude sample.imports 3 (sample.ctx more.triangle_down)
      (sample.shape Shape2dClass 0 0) 3 = Ok (ctx', r) /\
    face_normal (pro.bm ctx') 1 = Ok (vec 0 0 (-1)) /\
    (@verticalNormalThreshold sample.imports < Qabs (vz (vec 0 0 (-1))))%Q /\
    shapes r = [sample.shape Shape2dClass 0 0; cap] /\
    cls cap = Shape2dClass /\ face cap = 1 /\
    length (shapes r) <> 3 + 2 /\
    f_verts <$> omap id (m_faces (pro.bm ctx'))
      = [[0; 1; 2]; [3; 4; 5]; [0; 2; 4; 3]; [2; 1; 5; 4]; [1; 0; 3; 5]].
Proof.
  eexists _, _, _. split; [vm_compute; reflexivity|].
  split; [reflexivity|]. split; [by vm_compute|].
  split; [reflexivity|]. split; [reflexivity|]. split; [reflexivity|].
  split; [simpl; lia|reflexivity].
Qed.

(** the 3D shape of the extruded rectangle starts at the first loop of
    the base, (0, 0), not at the loop (5, 3) found on the wall *)
Lemma lot_extrude_boundary_start :
  exists bm' ctx' r,
    @Shape2d.extruded sample.imports sample.lot (sample.shape Shape2dClass 0 0) 3
      = Ok (bm', 1) /\
    Shape2d.side_loops bm' (sample.shape Shape2dClass 0 0) 1 = Ok ((5, 3), (5, 4)) /\
    @Shape2d.extrude sample.imports 4 (sample.ctx sample.lot)
      (sample.shape Shape2dClass 0 0) 3 = Ok (ctx', r) /\
    firstLoop3 r = (0, 0) /\
    firstLoop3 r <> (5, 3).
Proof.
  eexists _, _, _. split; [vm_compute; reflexivity|].
  split; [vm_compute; reflexivity|]. split; [vm_compute; reflexivity|].
  split; [reflexivity|]. discriminate.
Qed.

(** the entries returned for three cuts of the rectangle hold no cut
    parameter *)
Lemma lot_split_slots :
  exists ctx' out,
    @Rectangle.split sample.imports (sample.ctx sample.lot)
      (sample.shape RectangleClass 0 0) pro.x [(1%Q, 7); (2%Q, 8); (1%Q, 9)]
      = Ok (ctx', out) /\
    ~ parameter_entries 3 out.
Proof.
  eexists _, _. split; [vm_compute; reflexivity|].
  intros (_ & ps & Hps & _). inversion Hps as [|e p out' ps' He]. discriminate He.
Qed.

(** a pentagon is split without an exception *)
Lemma pentagon_split_returns :
  get_face sample.pentagon 0 = Ok (mkFace [0; 1; 2; 3; 4] (vec 0 0 1)) /\
  length [0; 1; 2; 3; 4] <> 4 /\
  ~ raises (@Rectangle.split sample.imports (sample.ctx sample.pentagon)
              (sample.shape RectangleClass 0 0) pro.x
              [(1%Q, 7); (2%Q, 8); (1%Q, 9)]).
Proof.
  split; [reflexivity|]. split; [simpl; lia|].
  intros [e He]. vm_compute in He. discriminate He.
Qed.

(** the rectangle, extruded by 3: six constituents *)
Lemma extrude_constituents_witness :
  exists ctx' r,
    @Shape2d.extrude sample.imports 4 (sample.ctx sample.lot)
      (sample.shape Shape2dClass 0 0) 3 = Ok (ctx', r) /\
    length (shapes r) = 6.
Proof.
  destruct (@extrude_constituents sample.imports 4 (sample.ctx sample.lot)
              (sample.shape Shape2dClass 0 0) 3 (mkFace [0; 1; 2; 3] (vec 0 0 1)) 0)
    as (ctx' & r & i & cap & Hrun & _ & _ & _ & _ & _ & _ & _ & _ & _ & _ & Hlen).
  - apply wfb_wf. reflexivity.
  - reflexivity.
  - reflexivity.
  - apply list_elem_of_here.
  - by vm_compute.
  - simpl. lia.
  - exists ctx', r. split; [exact Hrun|exact Hlen].
Defined.

(** the face on the slope, extruded by 3: base and cap only *)
Lemma extrude_oblique_witness :
  exists ctx' r cap,
    @Shape2d.extrude sample.imports 0 (sample.ctx sample.slope)
      (sample.shape Shape2dClass 0 0) 3 = Ok (ctx', r) /\
    shapes r = [sample.shape Shape2dClass 0 0; cap].
Proof.
  destruct (@extrude_oblique sample.imports 0 (sample.ctx sample.slope)
              (sample.shape Shape2dClass 0 0) 3
              (mkFace [0; 1; 2; 3] (vec 0 (-(4 # 5)) (3 # 5))) 0)
    as (ctx' & r & cap & Hrun & _ & _ & _ & Hshapes & _).
  - apply wfb_wf. reflexivity.
  - reflexivity.
  - reflexivity.
  - apply list_elem_of_here.
  - by vm_compute.
  - exists ctx', r, cap. split; [exact Hrun|exact Hshapes].
Defined.

(** the top of the corner wrapped from its third vertex, extruded by 3:
    the first edge is shared with the wall and with the cut-off corner *)
Lemma extrude_first_loop_witness :
  exists ctx' r,
    @Shape2d.extrude sample.imports 4 (sample.ctx sample.corner)
      (sample.shape Shape2dClass 0 2) 3 = Ok (ctx', r) /\
    firstLoop3 r = (0, 2).
Proof.
  destruct (@extrude_first_loop sample.imports 4 (sample.ctx sample.corner)
              (sample.shape Shape2dClass 0 2) 3
              (mkFace [0; 1; 2; 3] (vec 0 0 1)) 2)
    as (ctx' & r & loop & opp & Hrun & _ & _ & Hfirst & _).
  - apply wfb_wf. reflexivity.
  - reflexivity.
  - reflexivity.
  - apply list_elem_of_further, list_elem_of_further, list_elem_of_here.
  - intros _. simpl. lia.
  - exists ctx', r. split; [exact Hrun|exact Hfirst].
Defined.

(** the pentagon turned to face down, extruded by 3: no walls *)
Lemma extrude_walk_condition_witness :
  exists ctx' r,
    @Shape2d.extrude sample.imports 5 (sample.ctx more.pentagon_down)
      (sample.shape Shape2dClass 0 0) 3 = Ok (ctx', r) /\
    drop 2 (shapes r) = [].
Proof.
  destruct (@extrude_walk_condition sample.imports 5 (sample.ctx more.pentagon_down)
              (sample.shape Shape2dClass 0 0) 3
              (mkFace [0; 4; 3; 2; 1] (vec 0 0 (-1))) 0)
    as (ctx' & r & Hrun & _ & _ & _ & _ & Hdown).
  - apply wfb_wf. reflexivity.
  - reflexivity.
  - reflexivity.
  - apply list_elem_of_here.
  - simpl. lia.
  - exists ctx', r. split; [exact Hrun|].
    apply Hdown; by vm_compute.
Defined.

(** the rectangle split in three along y *)
Lemma split_entries_witness :
  exists ctx' out,
    @Rectangle.split sample.imports (sample.ctx sample.lot)
      (sample.shape RectangleClass 0 0) pro.y [(1%Q, 7); (2%Q, 8); (1%Q, 9)]
      = Ok (ctx', out) /\
    length out = 3.
Proof.
  destruct (@split_entries sample.imports (sample.ctx sample.lot)
              (sample.shape RectangleClass 0 0) pro.y
              [(1%Q, 7); (2%Q, 8); (1%Q, 9)]
              (mkFace [0; 1; 2; 3] (vec 0 0 1)) 0)
    as (rl & cs & ctx' & out & o1 & o2 & vec1 & vec2 & _ & _ & Hrun & Hlen & _).
  - apply wfb_wf. reflexivity.
  - reflexivity.
  - reflexivity.
  - reflexivity.
  - apply list_elem_of_here.
  - reflexivity.
  - intros l. reflexivity.
  - simpl. lia.
  - exists ctx', out. split; [exact Hrun|exact Hlen].
Defined.

(** a triangle and a pentagon split in two along x *)
Lemma split_vertex_count_witness :
  @Rectangle.split sample.imports (sample.ctx sample.triangle)
    (sample.shape RectangleClass 0 0) pro.x [(1%Q, 7); (2%Q, 8)]
    = Raise ValueError /\
  exists ctx' out,
    @Rectangle.split sample.imports (sample.ctx sample.pentagon)
      (sample.shape RectangleClass 0 0) pro.x [(1%Q, 7); (2%Q, 8)]
      = Ok (ctx', out) /\
    length out = 2.
Proof.
  split.
  - destruct (@split_vertex_count sample.imports (sample.ctx sample.triangle)
                (sample.shape RectangleClass 0 0) pro.x [(1%Q, 7); (2%Q, 8)]
                (mkFace [0; 1; 2] (vec 0 0 1)) 0)
      as [[_ Hraise]|[Hlen _]].
    + apply wfb_wf. reflexivity.
    + reflexivity.
    + reflexivity.
    + reflexivity.
    + apply list_elem_of_here.
    + simpl. lia.
    + exact Hraise.
    + simpl in Hlen. lia.
  - destruct (@split_vertex_count sample.imports (sample.ctx sample.pentagon)
                (sample.shape RectangleClass 0 0) pro.x [(1%Q, 7); (2%Q, 8)]
                (mkFace [0; 1; 2; 3; 4] (vec 0 0 1)) 0)
      as [[Hlen _]|[_ (rl & cs & Hrl & Hcs & Hrun)]].
    + apply wfb_wf. reflexivity.
    + reflexivity.
    + reflexivity.
    + reflexivity.
    + apply list_elem_of_here.
    + simpl. lia.
    + simpl in Hlen. lia.
    + injection Hrl as <-. vm_compute in Hcs. injection Hcs as <-.
      destruct Hrun as (ctx' & out & Hsplit & _ & Hout & _); [simpl; lia|].
      exists ctx', out. split; [exact Hsplit|exact Hout].
Defined.

(** the three faces of the corner under the selector [all] *)
Lemma comp_fallback_buckets_witness :
  exists res,
    @Shape3d.comp sample.imports sample.corner sample.corner3d [pro.all]
      = Ok (mkShape3d (shapes sample.corner3d) (0, 0) 0 (Some sample.identity), res) /\
    res = {[ pro.all := shapes sample.corner3d ]}.
Proof.
  destruct (@comp_fallback_buckets sample.imports sample.corner sample.corner3d
              (mkShape3d (shapes sample.corner3d) (0, 0) 0 (Some sample.identity))
              sample.identity [pro.all])
    as (res & Hrun & _ & _ & Hall & _).
  - repeat constructor; eexists; reflexivity.
  - reflexivity.
  - exists res. split; [exact Hrun|]. exact (Hall eq_refl).
Defined.

(** the frame of the rectangle wrapped from its second vertex *)
Lemma getMatrix_frame_witness :
  exists self',
    @Shape2d.getMatrix sample.imports sample.lot (sample.shape Shape2dClass 0 1)
      = Ok (self', mul sample.identity (Translation (neg (vec 10 0 0)))) /\
    veq (mulvec (mul sample.identity (Translation (neg (vec 10 0 0)))) (vec 10 0 0))
        zero.
Proof.
  destruct (@getMatrix_frame sample.imports Shape2dClass sample.lot (0, 1)
              (sample.shape Shape2dClass 0 1) (vec 0 0 1) sample.identity)
    as (o & self' & Ho & Hrun & _ & _ & _ & _ & Hzero).
  - reflexivity.
  - reflexivity.
  - reflexivity.
  - injection Ho as <-. exists self'. split; [exact Hrun|].
    apply Hzero. repeat split; reflexivity.
Defined.

(** the cut-off corner: vertical, and on the side of [right] *)
Lemma comp_threshold_ties_witness :
  (exists res l,
     @Shape3d.comp sample.imports sample.corner sample.corner3d [pro.side]
       = Ok (mkShape3d (shapes sample.corner3d) (0, 0) 0 (Some sample.identity), res) /\
     res !! pro.side = Some l /\ sample.shape Shape2dClass 2 1 ∈ l) /\
  Shape3d.classify (mulvec sample.identity (vec (1 # 2) (1 # 2) (70711 # 100000)))
    = (pro.right, true).
Proof.
  destruct (@comp_threshold_ties sample.imports sample.corner sample.corner3d
              (mkShape3d (shapes sample.corner3d) (0, 0) 0 (Some sample.identity))
              sample.identity (sample.shape Shape2dClass 2 1)
              (vec (1 # 2) (1 # 2) (70711 # 100000)))
    as [Hz Hxy].
  - repeat constructor; eexists; reflexivity.
  - reflexivity.
  - apply list_elem_of_further, list_elem_of_further, list_elem_of_here.
  - reflexivity.
  - split.
    + apply Hz. reflexivity.
    + apply Hxy; by vm_compute.
Defined.


(** ** Further properties of [Shape3d.comp] and of the kept matrices *)

Section further_comp.
Context `{Imports}.

Lemma Qltb_compat (a a' b b' : Q) :
  (a == a')%Q -> (b == b')%Q -> Qltb a b = Qltb a' b'.
Proof.
  intros Ha Hb.
  destruct (Qltb a b) eqn:E, (Qltb a' b') eqn:E'; try done.
  - apply Qltb_lt in E. apply Qltb_ge in E'. lra.
  - apply Qltb_ge in E. apply Qltb_lt in E'. lra.
Qed.

Lemma Qabs_cases (a : Q) :
  (Qabs a == a /\ 0 <= a)%Q \/ (Qabs a == - a /\ a <= 0)%Q.
Proof.
  apply Qabs_case; intros Ha; [left|right]; split; try done; reflexivity.
Qed.

Lemma classify_veq (a b : Vector) :
  veq a b -> Shape3d.classify a = Shape3d.classify b.
Proof.
  intros (Hx & Hy & Hz). unfold Shape3d.classify, Qgtb.
  rewrite (Qltb_compat horizontalFaceThreshold horizontalFaceThreshold
             (Qabs (vz a)) (Qabs (vz b))) by (by rewrite ?Hz).
  rewrite (Qltb_compat 0 0 (vz a) (vz b)) by done.
  rewrite (Qltb_compat (Qabs (vy a)) (Qabs (vy b)) (Qabs (vx a)) (Qabs (vx b)))
    by (by rewrite ?Hx, ?Hy).
  rewrite (Qltb_compat 0 0 (vx a) (vx b)) by done.
  rewrite (Qltb_compat 0 0 (vy a) (vy b)) by done.
  done.
Qed.

Lemma mulvec_neg R n : linear R -> veq (mulvec R (neg n)) (neg (mulvec R n)).
Proof.
  destruct R as [[a0 a1 a2 a3] [b0 b1 b2 b3] [d0 d1 d2 d3] e], n as [x y z].
  unfold linear, veq, mulvec, neg, dot.
  cbn [vx vy vz c0 c1 c2 c3 r0 r1 r2 r3]. intros (Ha & Hb & Hd).
  rewrite Ha, Hb, Hd. repeat split; ring.
Qed.

Lemma mulvec_zero R n : linear R -> veq n zero -> veq (mulvec R n) zero.
Proof.
  destruct R as [[a0 a1 a2 a3] [b0 b1 b2 b3] [d0 d1 d2 d3] e], n as [x y z].
  unfold linear, veq, mulvec, zero, dot.
  cbn [vx vy vz c0 c1 c2 c3 r0 r1 r2 r3]. intros (Ha & Hb & Hd) (Hx & Hy & Hz).
  rewrite Ha, Hb, Hd, Hx, Hy, Hz. repeat split; ring.
Qed.

Lemma threshold_pos : (0 < horizontalFaceThreshold)%Q.
Proof. done. Qed.

Lemma classify_neg a :
  (~ (vx a == 0 /\ vy a == 0 /\ Qabs (vz a) <= horizontalFaceThreshold)%Q ->
   Shape3d.classify (neg a)
     = (opposite (Shape3d.classify a).1, (Shape3d.classify a).2)) /\
  ((vx a == 0 /\ vy a == 0 /\ Qabs (vz a) <= horizontalFaceThreshold)%Q ->
   Shape3d.classify (neg a) = (pro.left, true) /\
   Shape3d.classify a = (pro.left, true)).
Proof.
  pose proof threshold_pos as Ht.
  destruct a as [x y z]. unfold Shape3d.classify, neg, Qgtb.
  cbn [vx vy vz].
  destruct (Qabs_cases x) as [[Hx Hx']|[Hx Hx']],
           (Qabs_cases y) as [[Hy Hy']|[Hy Hy']],
           (Qabs_cases z) as [[Hz Hz']|[Hz Hz']],
           (Qabs_cases (- x)) as [[Hnx Hnx']|[Hnx Hnx']],
           (Qabs_cases (- y)) as [[Hny Hny']|[Hny Hny']],
           (Qabs_cases (- z)) as [[Hnz Hnz']|[Hnz Hnz']].
  all: destruct (Qltb horizontalFaceThreshold (Qabs z)) eqn:E1;
       [apply Qltb_lt in E1|apply Qltb_ge in E1].
  all: destruct (Qltb horizontalFaceThreshold (Qabs (- z))) eqn:E2;
       [apply Qltb_lt in E2|apply Qltb_ge in E2]; try lra.
  all: destruct (Qltb 0 z) eqn:E3; [apply Qltb_lt in E3|apply Qltb_ge in E3].
  all: destruct (Qltb 0 (- z)) eqn:E4; [apply Qltb_lt in E4|apply Qltb_ge in E4];
       try lra.
  all: try (split; [done|intros; lra]).
  all: destruct (Qltb (Qabs y) (Qabs x)) eqn:E5;
       [apply Qltb_lt in E5|apply Qltb_ge in E5].
  all: destruct (Qltb (Qabs (- y)) (Qabs (- x))) eqn:E6;
       [apply Qltb_lt in E6|apply Qltb_ge in E6]; try lra.
  all: destruct (Qltb 0 x) eqn:E7; [apply Qltb_lt in E7|apply Qltb_ge in E7].
  all: destruct (Qltb 0 (- x)) eqn:E8; [apply Qltb_lt in E8|apply Qltb_ge in E8];
       try lra.
  all: destruct (Qltb 0 y) eqn:E9; [apply Qltb_lt in E9|apply Qltb_ge in E9].
  all: destruct (Qltb 0 (- y)) eqn:E10; [apply Qltb_lt in E10|apply Qltb_ge in E10];
       try lra.
  all: simpl; split; [intros Hn|intros (? & ? & ?)]; try done; try lra.
  all: try (destruct Hn; lra).
Qed.

Lemma select_congr parts parts' t v :
  (forall k, k ∈ parts <-> k ∈ parts') ->
  Shape3d.select parts t v = Shape3d.select parts' t v.
Proof.
  intros Hp. unfold Shape3d.select.
  destruct (decide (t ∈ parts)) as [Ht|Ht], (decide (t ∈ parts')) as [Ht'|Ht'];
    try done; try (by apply Hp in Ht); try (by apply Hp in Ht').
  rewrite (bool_decide_ext _ _ (Hp pro.side)).
  destruct (bool_decide (pro.side ∈ parts') && v); [done|].
  destruct (decide (pro.all ∈ parts)) as [Ha|Ha], (decide (pro.all ∈ parts')) as [Ha'|Ha'];
    try done; try (by apply Hp in Ha); by apply Hp in Ha'.
Qed.

Lemma comp_loop_congr bm R parts parts' l res :
  (forall k, k ∈ parts <-> k ∈ parts') ->
  Shape3d.comp_loop bm R parts l res = Shape3d.comp_loop bm R parts' l res.
Proof.
  intros Hp. revert res. induction l as [|s l IH]; intros res; [done|].
  simpl. destruct (face_normal bm (face s)); simpl; [|done..].
  destruct (Shape3d.classify _) as [t v].
  by rewrite (select_congr _ _ _ _ Hp), IH.
Qed.

Lemma comp_loop_removed bm R parts l res s :
  s ∈ l -> m_faces bm !! face s = Some None ->
  Shape3d.comp_loop bm R parts l res = Raise ReferenceError.
Proof.
  intros Hs Hrem. revert res. induction l as [|a l IH]; intros res.
  - by apply not_elem_of_nil in Hs.
  - simpl. unfold face_normal, get_face.
    destruct (m_faces bm !! face a) as [[g|]|] eqn:E; simpl; try done.
    destruct (Shape3d.classify _) as [t v].
    apply elem_of_cons in Hs as [->|Hs]; [congruence|]. by apply IH.
Qed.

Lemma filter_key_sum {A} (g : A -> option pro.Selector) (l : list A) :
  sum_list ((fun k => length (filter (fun s => g s = Some k) l)) <$> selectors)
  = length (filter (fun s => is_Some (g s)) l).
Proof.
  induction l as [|a l IH]; [done|].
  unfold selectors in *. cbn [fmap list_fmap sum_list] in *.
  rewrite !filter_cons.
  destruct (g a) as [k|] eqn:E.
  - destruct (decide (is_Some (Some k))) as [_|Hn]; [|destruct Hn; eauto].
    cbn [length]. rewrite <- IH.
    destruct k; repeat (case_decide; try congruence); cbn [length];
      unfold id; lia.
  - destruct (decide (is_Some (@None pro.Selector))) as [[? ?]|_]; [done|].
    rewrite <- IH.
    repeat (case_decide; try congruence).
Qed.

Lemma filter_all {A} (P : A -> Prop) `{!forall x, Decision (P x)} (l : list A) :
  Forall P l -> filter P l = l.
Proof.
  induction 1 as [|a l Ha _ IH]; [done|].
  rewrite filter_cons, decide_True by done. by rewrite IH.
Qed.

Lemma select_all parts t v : pro.all ∈ parts -> is_Some (Shape3d.select parts t v).
Proof.
  intros Ha. unfold Shape3d.select.
  destruct (decide (t ∈ parts)); [eauto|].
  destruct (bool_decide (pro.side ∈ parts) && v); [eauto|].
  destruct (decide (pro.all ∈ parts)); [eauto|done].
Qed.

Lemma filter_comm {A} (P Q : A -> Prop) `{!forall x, Decision (P x)}
    `{!forall x, Decision (Q x)} (l : list A) :
  filter P (filter Q l) = filter Q (filter P l).
Proof. rewrite !list_filter_filter. apply list_filter_iff. tauto. Qed.

(** X1. [comp] files every constituent shape once at most, in one bucket:
    the bucket of a selector is the list of the constituent shapes whose
    key is that selector, in the order of the 3D shape, so whatever
    property of shapes is counted, the buckets together hold no more
    shapes with it than the 3D shape has. When [all] is requested no
    shape is left out: the buckets together hold exactly as many shapes
    with the property as the 3D shape, and every shape is in a bucket. *)
Theorem comp_all_files_every_shape bm self self' R parts :
  Forall (fun s => exists n, face_normal bm (face s) = Ok n) (shapes self) ->
  Shape3d.getRotationMatrix bm self = Ok (self', R) ->
  exists res, Shape3d.comp bm self parts = Ok (self', res) /\
    (forall k, default [] (res !! k)
               = filter (fun s => key bm R parts s = Some k) (shapes self)) /\
    (forall P, filed_with P res
               <= length (filter (fun s => P s = true) (shapes self))) /\
    (pro.all ∈ parts ->
       (forall P, filed_with P res
                  = length (filter (fun s => P s = true) (shapes self))) /\
       forall s, s ∈ shapes self -> exists k l, res !! k = Some l /\ s ∈ l).
Proof.
  intros Hl HR.
  destruct (comp_spec bm self self' R parts Hl HR) as (res & Hc & Hres).
  exists res. split; [done|].
  assert (forall k, default [] (res !! k)
                    = filter (fun s => key bm R parts s = Some k) (shapes self))
    as Hbucket.
  { intros k. rewrite Hres. by destruct (filter _ _). }
  assert (forall P, filed_with P res
            = length (filter (fun s => is_Some (key bm R parts s))
                             (filter (fun s => P s = true) (shapes self)))) as Hsum.
  { intros P. rewrite <- filter_key_sum. unfold filed_with. f_equal.
    apply list_fmap_ext. intros _ k _. by rewrite Hbucket, filter_comm. }
  split; [done|].
  split; [intros P; rewrite Hsum; apply length_filter|].
  intros Hall.
  assert (forall s, s ∈ shapes self -> is_Some (key bm R parts s)) as Hkey.
  { intros s Hs. rewrite Forall_forall in Hl. destruct (Hl s Hs) as [n Hn].
    unfold key, tentative. rewrite Hn.
    destruct (Shape3d.classify _). by apply select_all. }
  split.
  - intros P. rewrite Hsum. f_equal. apply filter_all. apply Forall_forall.
    intros s Hs%list_elem_of_filter. apply Hkey. tauto.
  - intros s Hs. destruct (Hkey s Hs) as [k Hk].
    destruct (comp_filed bm self self' R parts s k Hl HR Hs Hk)
      as (res' & l & Hc' & Hk' & Hin).
    exists k, l. split; [|done].
    rewrite Hc in Hc'. by injection Hc' as ->.
Qed.

(** X2. [comp] reads the stored normal of every constituent face: when
    the face of a constituent shape was removed from the mesh, [comp]
    raises [ReferenceError], whatever the selectors (also without any). *)
Theorem comp_removed_face bm self self' R parts s :
  Shape3d.getRotationMatrix bm self = Ok (self', R) ->
  s ∈ shapes self -> m_faces bm !! face s = Some None ->
  Shape3d.comp bm self parts = Raise ReferenceError.
Proof.
  intros HR Hs Hrem. unfold Shape3d.comp. rewrite HR. simpl.
  rewrite (getRotationMatrix_shapes _ _ _ _ HR).
  by rewrite (comp_loop_removed bm R parts _ ∅ s Hs Hrem).
Qed.

(** X3. [comp] looks at the selectors only through membership: two
    collections of selectors with the same members (in another order, or
    with repetitions) give the same result. *)
Theorem comp_selectors_as_set bm self parts parts' :
  (forall k, k ∈ parts <-> k ∈ parts') ->
  Shape3d.comp bm self parts = Shape3d.comp bm self parts'.
Proof.
  intros Hp. unfold Shape3d.comp.
  destruct (Shape3d.getRotationMatrix bm self) as [[self' R]| |]; simpl; [|done..].
  by rewrite (comp_loop_congr _ _ _ _ _ _ Hp).
Qed.

(** X4. A constituent face whose stored normal is zero (a face just
    created by [bm.faces.new], as [createSplitShape] does) is classified
    by [comp] as vertical and tentatively as [left], for every rotation
    matrix without translation part: it is filed under [left] when [left]
    is requested and else under [side] when [side] is. *)
Theorem comp_zero_normal bm self self' R parts s n :
  Forall (fun s => exists n, face_normal bm (face s) = Ok n) (shapes self) ->
  Shape3d.getRotationMatrix bm self = Ok (self', R) ->
  linear R ->
  s ∈ shapes self -> face_normal bm (face s) = Ok n -> veq n zero ->
  tentative bm R s = Some (pro.left, true) /\
  exists res, Shape3d.comp bm self parts = Ok (self', res) /\
    (pro.left ∈ parts -> exists l, res !! pro.left = Some l /\ s ∈ l) /\
    (pro.left ∉ parts -> pro.side ∈ parts ->
       exists l, res !! pro.side = Some l /\ s ∈ l).
Proof.
  intros Hl HR Hlin Hs Hn Hz.
  assert (tentative bm R s = Some (pro.left, true)) as Ht.
  { unfold tentative. rewrite Hn.
    by rewrite (classify_veq _ zero (mulvec_zero R n Hlin Hz)). }
  split; [done|].
  destruct (comp_spec bm self self' R parts Hl HR) as (res & Hc & _).
  exists res. split; [done|]. split.
  - intros Hp.
    destruct (comp_filed bm self self' R parts s pro.left Hl HR Hs)
      as (res' & l & Hc' & Hk' & Hin).
    { unfold key. rewrite Ht. unfold Shape3d.select. by rewrite decide_True. }
    rewrite Hc in Hc'. injection Hc' as <-. eauto.
  - intros Hnl Hside.
    destruct (comp_filed bm self self' R parts s pro.side Hl HR Hs)
      as (res' & l & Hc' & Hk' & Hin).
    { unfold key. rewrite Ht. unfold Shape3d.select.
      rewrite decide_False by done. by rewrite bool_decide_eq_true_2. }
    rewrite Hc in Hc'. injection Hc' as <-. eauto.
Qed.

(** X5. Two constituent faces with opposite stored normals (a face and
    its reversal, as the base and the cap of an extrusion) are classified
    by [comp] under opposite selectors ([top] and [bottom], [front] and
    [back], [right] and [left]) for every rotation matrix without
    translation part. The only exception is a rotated normal with
    x = y = 0 and |z| not above the threshold: both faces are then
    [left]. *)
Theorem comp_opposite_normals bm self self' R parts s s' n :
  Forall (fun s => exists n, face_normal bm (face s) = Ok n) (shapes self) ->
  Shape3d.getRotationMatrix bm self = Ok (self', R) ->
  linear R ->
  s ∈ shapes self -> s' ∈ shapes self ->
  face_normal bm (face s) = Ok n -> face_normal bm (face s') = Ok (neg n) ->
  let a := mulvec R n in
  (~ (vx a == 0 /\ vy a == 0 /\ Qabs (vz a) <= horizontalFaceThreshold)%Q ->
   exists res t v, Shape3d.comp bm self parts = Ok (self', res) /\
     tentative bm R s = Some (t, v) /\
     tentative bm R s' = Some (opposite t, v) /\
     opposite t <> t /\
     (t ∈ parts -> exists l, res !! t = Some l /\ s ∈ l) /\
     (opposite t ∈ parts -> exists l, res !! opposite t = Some l /\ s' ∈ l)) /\
  ((vx a == 0 /\ vy a == 0 /\ Qabs (vz a) <= horizontalFaceThreshold)%Q ->
   tentative bm R s = Some (pro.left, true) /\
   tentative bm R s' = Some (pro.left, true)).
Proof.
  intros Hl HR Hlin Hs Hs' Hn Hn' a.
  assert (tentative bm R s = Some (Shape3d.classify a)) as Ht
    by (unfold tentative; by rewrite Hn).
  assert (tentative bm R s' = Some (Shape3d.classify (neg a))) as Ht'.
  { unfold tentative. rewrite Hn'. f_equal. apply classify_veq.
    by apply mulvec_neg. }
  destruct (classify_neg a) as [Hopp Htie].
  split.
  - intros Hne. specialize (Hopp Hne).
    destruct (comp_spec bm self self' R parts Hl HR) as (res & Hc & _).
    destruct (Shape3d.classify a) as [t v] eqn:Hca. simpl in Hopp.
    exists res, t, v. split_and!; try done.
    + by rewrite Ht', Hopp.
    + pose proof (classify_tentative a) as [H1 H2]. rewrite Hca in H1, H2.
      simpl in *. by destruct t.
    + intros Hp.
      destruct (comp_filed bm self self' R parts s t Hl HR Hs)
        as (res' & l & Hc' & Hk' & Hin).
      { unfold key. rewrite Ht. unfold Shape3d.select. by rewrite decide_True. }
      rewrite Hc in Hc'. injection Hc' as <-. eauto.
    + intros Hp.
      destruct (comp_filed bm self self' R parts s' (opposite t) Hl HR Hs')
        as (res' & l & Hc' & Hk' & Hin).
      { unfold key. rewrite Ht', Hopp. unfold Shape3d.select.
        by rewrite decide_True. }
      rewrite Hc in Hc'. injection Hc' as <-. eauto.
  - intros Hz. destruct (Htie Hz) as [H1 H2]. by rewrite Ht, Ht', H1, H2.
Qed.

(** X6. The rotation matrix of a 3D shape is calculated once: after a
    call of [getRotationMatrix] (or of [comp]) that returned, the matrix
    is kept in the shape, and every later call returns this matrix for
    whatever state of the mesh, without calculating it again; a later
    [comp] classifies with it. The other attributes are not changed. *)
Theorem getRotationMatrix_kept bm self self' R :
  Shape3d.getRotationMatrix bm self = Ok (self', R) ->
  rotationMatrix self' = Some R /\
  shapes self' = shapes self /\ firstLoop3 self' = firstLoop3 self /\
  origin3 self' = origin3 self /\
  (forall bm', Shape3d.getRotationMatrix bm' self' = Ok (self', R)) /\
  (forall parts res, Shape3d.comp bm self parts = Ok (self', res) ->
     Shape3d.comp bm self' parts = Ok (self', res)) /\
  (forall bm' parts,
     Shape3d.comp bm' self' parts
     = res ← Shape3d.comp_loop bm' R parts (shapes self) ∅; Ok (self', res)).
Proof.
  intros HR.
  assert (rotationMatrix self' = Some R /\ shapes self' = shapes self /\
          firstLoop3 self' = firstLoop3 self /\ origin3 self' = origin3 self)
    as (Hm & Hsh & Hfl & Ho).
  { unfold Shape3d.getRotationMatrix in HR.
    destruct (rotationMatrix self) eqn:E.
    - by injection HR as <- <-.
    - destruct (rotation_zNormal_xHorizontal _ _ _); simpl in HR; [|done..].
      by injection HR as <- <-. }
  assert (forall bm', Shape3d.getRotationMatrix bm' self' = Ok (self', R)) as Hk.
  { intros bm'. unfold Shape3d.getRotationMatrix. by rewrite Hm. }
  split_and!; try done.
  - intros parts res. unfold Shape3d.comp. rewrite HR, Hk. simpl.
    by rewrite Hsh.
  - intros bm' parts. unfold Shape3d.comp. rewrite Hk. simpl. by rewrite Hsh.
Qed.

(** X7. The matrix of a 2D shape is calculated once: after a call of
    [getMatrix] that returned, the matrix is kept in the shape and every
    later call returns it for whatever state of the mesh (also when the
    vertices were moved since), without reading the mesh. The other
    attributes are not changed. *)
Theorem getMatrix_kept bm self self' M :
  Shape2d.getMatrix bm self = Ok (self', M) ->
  matrix self' = Some M /\
  cls self' = cls self /\ face self' = face self /\
  firstLoop self' = firstLoop self /\ origin self' = origin self /\
  (forall bm', Shape2d.getMatrix bm' self' = Ok (self', M)).
Proof.
  intros HM.
  assert (matrix self' = Some M /\ cls self' = cls self /\ face self' = face self /\
          firstLoop self' = firstLoop self /\ origin self' = origin self)
    as (Hm & ? & ? & ? & ?).
  { unfold Shape2d.getMatrix in HM. destruct (matrix self) eqn:E.
    - by injection HM as <- <-.
    - destruct (co bm (origin self)); simpl in HM; [|done..].
      destruct (Shape2d.getNormal bm self); simpl in HM; [|done..].
      destruct (rotation_zNormal_xHorizontal _ _ _); simpl in HM; [|done..].
      by injection HM as <- <-. }
  split_and!; try done.
  intros bm'. unfold Shape2d.getMatrix. by rewrite Hm.
Qed.

End further_comp.


(** ** The normal that the kernel calculates for a face

    Up to the equality of rationals, the vector of [face_normal_vector]
    is negated when the boundary is reversed, and it is the same after a
    translation of the face. *)

#[global] Instance veq_equivalence : Equivalence veq.
Proof.
  split.
  - intros a. unfold veq. repeat split; reflexivity.
  - intros a b (Hx & Hy & Hz). unfold veq. repeat split; by symmetry.
  - intros a b c (Hx & Hy & Hz) (Hx' & Hy' & Hz'). unfold veq.
    repeat split; etrans; eassumption.
Qed.

#[global] Instance add_veq : Proper (veq ==> veq ==> veq) add.
Proof.
  intros a a' (Hx & Hy & Hz) b b' (Hx' & Hy' & Hz'). unfold veq, add.
  cbn [vx vy vz]. rewrite Hx, Hy, Hz, Hx', Hy', Hz'. repeat split; reflexivity.
Qed.

#[global] Instance neg_veq : Proper (veq ==> veq) neg.
Proof.
  intros a a' (Hx & Hy & Hz). unfold veq, neg.
  cbn [vx vy vz]. rewrite Hx, Hy, Hz. repeat split; reflexivity.
Qed.

Ltac vring :=
  repeat match goal with
         | v : Vector |- _ => destruct v
         end;
  unfold veq, add, sub, neg, scale, cross, newell_cross, zero;
  cbn [vx vy vz]; repeat split; ring.

Lemma add_zero_l a : veq (add zero a) a.
Proof. vring. Qed.

Lemma add_zero_r a : veq (add a zero) a.
Proof. vring. Qed.

Lemma add_comm a b : veq (add a b) (add b a).
Proof. vring. Qed.

Lemma add_assoc a b c : veq (add a (add b c)) (add (add a b) c).
Proof. vring. Qed.

Lemma neg_add a b : veq (neg (add a b)) (add (neg a) (neg b)).
Proof. vring. Qed.

Lemma neg_zero : veq (neg zero) zero.
Proof. vring. Qed.

Lemma newell_cross_swap a b : veq (newell_cross b a) (neg (newell_cross a b)).
Proof. vring. Qed.

Lemma newell_cross_shift a b d :
  veq (newell_cross (add a d) (add b d))
      (add (newell_cross a b) (twist d (sub a b))).
Proof. unfold twist. vring. Qed.

Lemma twist_chain d a b c :
  veq (add (twist d (sub a b)) (twist d (sub b c))) (twist d (sub a c)).
Proof. unfold twist. vring. Qed.

Lemma twist_closed d a : veq (twist d (sub a a)) zero.
Proof. unfold twist. vring. Qed.

Lemma fold_left_add l acc : veq (fold_left add l acc) (add acc (vsum l)).
Proof.
  unfold vsum. revert acc. induction l as [|a l IH]; intros acc; simpl.
  - by rewrite add_zero_r.
  - rewrite (IH (add acc a)), (IH (add zero a)).
    by rewrite add_zero_l, add_assoc.
Qed.

Lemma vsum_cons a l : veq (vsum (a :: l)) (add a (vsum l)).
Proof. unfold vsum at 1. simpl. by rewrite fold_left_add, add_zero_l. Qed.

Lemma vsum_zip a l : veq (vsum (zip_with newell_cross (a :: l) l)) (psum (a :: l)).
Proof.
  revert a. induction l as [|b l IH]; intros a; [done|].
  change (zip_with newell_cross (a :: b :: l) (b :: l))
    with (newell_cross a b :: zip_with newell_cross (b :: l) l).
  rewrite vsum_cons, IH. done.
Qed.

Lemma psum_snoc a l x :
  veq (psum ((a :: l) ++ [x]))
      (add (psum (a :: l)) (newell_cross (default a (last (a :: l))) x)).
Proof.
  revert a. induction l as [|b l IH]; intros a.
  - simpl. by rewrite add_zero_l, add_zero_r.
  - change (psum ((a :: b :: l) ++ [x]))
      with (add (newell_cross a b) (psum ((b :: l) ++ [x]))).
    rewrite IH.
    change (psum (a :: b :: l)) with (add (newell_cross a b) (psum (b :: l))).
    change (last (a :: b :: l)) with (last (b :: l)).
    assert (default a (last (b :: l)) = default b (last (b :: l))) as ->.
    { destruct (last (b :: l)) eqn:E; [done|]. by apply last_None in E. }
    by rewrite add_assoc.
Qed.

Lemma psum_reverse l : veq (psum (reverse l)) (neg (psum l)).
Proof.
  induction l as [|a l IH]; [by rewrite neg_zero|].
  rewrite reverse_cons.
  destruct l as [|b l]; [by rewrite neg_zero|].
  destruct (reverse (b :: l)) as [|y ys] eqn:E.
  { apply (f_equal length) in E. rewrite length_reverse in E. done. }
  rewrite psum_snoc, IH.
  assert (last (y :: ys) = Some b) as ->.
  { rewrite <- E, last_reverse. done. }
  simpl default.
  change (psum (a :: b :: l)) with (add (newell_cross a b) (psum (b :: l))).
  by rewrite neg_add, newell_cross_swap, add_comm.
Qed.

Lemma psum_shift d a l :
  veq (psum ((fun c => add c d) <$> a :: l))
      (add (psum (a :: l)) (twist d (sub a (default a (last (a :: l)))))).
Proof.
  revert a. induction l as [|b l IH]; intros a.
  - simpl. by rewrite twist_closed, add_zero_l.
  - change (psum ((fun c => add c d) <$> a :: b :: l))
      with (add (newell_cross (add a d) (add b d))
                (psum ((fun c => add c d) <$> b :: l))).
    rewrite IH, newell_cross_shift.
    change (psum (a :: b :: l)) with (add (newell_cross a b) (psum (b :: l))).
    change (last (a :: b :: l)) with (last (b :: l)).
    assert (default a (last (b :: l)) = default b (last (b :: l))) as ->.
    { destruct (last (b :: l)) eqn:E; [done|]. by apply last_None in E. }
    rewrite <- (twist_chain d a b (default b (last (b :: l)))).
    generalize (twist d (sub a b)) (twist d (sub b (default b (last (b :: l)))))
               (newell_cross a b) (psum (b :: l)).
    intros. vring.
Qed.

Lemma face_normal_vector_newell cs :
  length cs <> 3 -> length cs <> 4 -> face_normal_vector cs = newell_sum cs.
Proof. destruct cs as [|a [|b [|c [|d [|e cs]]]]]; simpl; try done. Qed.

Lemma zip_with_longer {A B C} (f : A -> B -> C) l1 k l2 :
  length l2 <= length l1 -> zip_with f (l1 ++ k) l2 = zip_with f l1 l2.
Proof.
  revert l2. induction l1 as [|a l1 IH]; intros [|b l2] Hl; simpl in *;
    try done; try lia.
  - by destruct k.
  - f_equal. apply IH. lia.
Qed.

(** the sum around the boundary is the sum along the closed path that
    starts and ends at the first position *)
Lemma newell_sum_closed c rs : veq (newell_sum (c :: rs)) (psum (c :: rs ++ [c])).
Proof.
  destruct (exists_last (l := c :: rs)) as (init & lst & E); [done|].
  unfold newell_sum. rewrite E.
  assert (rotate (length (init ++ [lst]) - 1) (init ++ [lst]) = lst :: init) as ->.
  { unfold rotate. rewrite length_app. simpl.
    replace (length init + 1 - 1) with (length init) by lia.
    rewrite Nat.mod_small by lia.
    by rewrite drop_app_length, take_app_length. }
  rewrite <- (zip_with_longer _ (lst :: init) [lst])
    by (rewrite length_app; simpl; lia).
  change ((lst :: init) ++ [lst]) with (lst :: (init ++ [lst])).
  fold (vsum (zip_with newell_cross (lst :: (init ++ [lst])) (init ++ [lst]))).
  rewrite vsum_zip, <- E.
  change (psum (lst :: c :: rs)) with (add (newell_cross lst c) (psum (c :: rs))).
  change (c :: rs ++ [c]) with ((c :: rs) ++ [c]). rewrite psum_snoc.
  assert (last (c :: rs) = Some lst) as -> by (by rewrite E, last_snoc).
  simpl default. by rewrite add_comm.
Qed.

(** the normal of the reversed boundary is the opposite normal *)
Lemma face_normal_vector_reverse c rs :
  veq (face_normal_vector (c :: reverse rs)) (neg (face_normal_vector (c :: rs))).
Proof.
  destruct (decide (length rs = 2)) as [H2|H2].
  { destruct rs as [|a [|b [|]]]; try done. cbn. vring. }
  destruct (decide (length rs = 3)) as [H3|H3].
  { destruct rs as [|a [|b [|e [|]]]]; try done. cbn. vring. }
  rewrite !face_normal_vector_newell
    by (cbn [length]; rewrite ?length_reverse; lia).
  rewrite !newell_sum_closed.
  assert (c :: reverse rs ++ [c] = reverse (c :: rs ++ [c])) as ->.
  { by rewrite reverse_cons, reverse_app. }
  apply psum_reverse.
Qed.

(** the normal of a translated boundary is the same normal *)
Lemma face_normal_vector_shift cs d :
  veq (face_normal_vector ((fun c => add c d) <$> cs)) (face_normal_vector cs).
Proof.
  destruct (decide (length cs = 3)) as [H3|H3].
  { destruct cs as [|a [|b [|c [|]]]]; try done. cbn. vring. }
  destruct (decide (length cs = 4)) as [H4|H4].
  { destruct cs as [|a [|b [|c [|e [|]]]]]; try done. cbn. vring. }
  rewrite !face_normal_vector_newell by (rewrite ?length_fmap; lia).
  destruct cs as [|c rs]; [done|].
  rewrite fmap_cons, !newell_sum_closed.
  assert (add c d :: ((fun c0 => add c0 d) <$> rs) ++ [add c d]
          = (fun c0 => add c0 d) <$> c :: (rs ++ [c])) as ->.
  { by rewrite fmap_cons, fmap_app. }
  rewrite psum_shift.
  assert (last (c :: rs ++ [c]) = Some c) as ->.
  { change (c :: rs ++ [c]) with ((c :: rs) ++ [c]). by rewrite last_snoc. }
  simpl default. by rewrite twist_closed, add_zero_r.
Qed.


(** ** Further properties of [getInitialShape] *)

Lemma faces_0_Some bm f :
  faces_0 bm = Ok f <->
  (exists x, m_faces bm !! f = Some (Some x)) /\
  forall j, j < f -> m_faces bm !! j = Some None.
Proof.
  unfold faces_0. split.
  - destruct (list_find _ _) as [[i o]|] eqn:E; [|done]. intros [= ->].
    apply list_find_Some in E as (Hi & [x ->] & Hlt). split; [eauto|].
    intros j Hj.
    destruct (lookup_lt_is_Some_2 (m_faces bm) j) as [o Ho].
    { apply lookup_lt_Some in Hi. lia. }
    rewrite Ho. destruct o as [y|]; [|done].
    destruct (Hlt j (Some y) Ho Hj). eauto.
  - intros [[x Hx] Hlt].
    destruct (list_find _ _) as [[i o]|] eqn:E.
    + apply list_find_Some in E as (Hi & [y ->] & Hmin).
      destruct (decide (i = f)) as [->|Hne]; [done|].
      destruct (decide (i < f)) as [Hif|Hif].
      * rewrite (Hlt i Hif) in Hi. done.
      * destruct (Hmin f (Some x) Hx); [lia|eauto].
    + apply list_find_None in E. rewrite Forall_forall in E.
      destruct (E (Some x)); [|eauto]. by eapply list_elem_of_lookup_2.
Qed.

Lemma flip_head f : head (f_verts (flip f)) = head (f_verts f).
Proof. unfold flip. simpl. by destruct (f_verts f). Qed.

Lemma flip_verts_Permutation f : f_verts (flip f) ≡ₚ f_verts f.
Proof.
  unfold flip. simpl. destruct (f_verts f); [done|].
  by rewrite reverse_Permutation.
Qed.

Lemma flip_flip_verts f : f_verts (flip (flip f)) = f_verts f.
Proof.
  unfold flip. simpl. destruct (f_verts f); [done|]. by rewrite reverse_involutive.
Qed.

Lemma wf_set_flip bm f x :
  wf bm -> m_faces bm !! f = Some (Some x) -> wf (set_face bm f (Some (flip x))).
Proof.
  intros Hwf Hx i g. unfold set_face. simpl. intros Hi.
  destruct (decide (i = f)) as [->|Hne].
  - rewrite list_lookup_insert_eq in Hi by by eapply lookup_lt_Some.
    injection Hi as <-. destruct (Hwf _ _ Hx) as (Hnd & Hlen & Hv).
    split_and!.
    + by apply flip_verts_NoDup.
    + by rewrite flip_verts_length.
    + by rewrite flip_verts_Permutation.
  - rewrite list_lookup_insert_ne in Hi by done. by apply (Hwf i g).
Qed.

Lemma get_face_set_flip bm f x :
  get_face bm f = Ok x -> get_face (set_face bm f (Some (flip x))) f = Ok (flip x).
Proof.
  intros Hx%get_face_lookup. apply get_face_lookup. unfold set_face. simpl.
  rewrite list_lookup_insert_eq; [done|]. by eapply lookup_lt_Some.
Qed.

(** the positions along the reversed boundary *)
Lemma positions_flip bm x v r :
  f_verts x = v :: r ->
  positions bm (f_verts x) = default zero (m_verts bm !! v) :: positions bm r /\
  positions bm (f_verts (flip x))
    = default zero (m_verts bm !! v) :: reverse (positions bm r).
Proof.
  intros Hv. unfold flip, positions. simpl. rewrite Hv. simpl.
  by rewrite fmap_reverse.
Qed.

Section initial_run.
Context `{Imports}.

(** the wrapping of the first loop of a face (lines 21 and 28-34) *)
Lemma init_first bm1 f y v r :
  get_face bm1 f = Ok y -> f_verts y = v :: r -> v < length (m_verts bm1) ->
  face_loops_0 bm1 f = Ok (f, v) /\
  Shape2d.__init__ Shape2dClass bm1 (f, v)
    = Ok (mkShape2d Shape2dClass f (f, v) v None).
Proof.
  intros Hy Hv Hlt.
  destruct (lookup_lt_is_Some_2 (m_verts bm1) v Hlt) as [c Hc].
  unfold face_loops_0, Shape2d.__init__, loop_face, loop_vert, check_loop.
  simpl. rewrite Hy. simpl. rewrite Hv. simpl.
  destruct (decide (v ∈ v :: r)) as [_|Hn]; [|destruct Hn; by left].
  simpl. unfold co. by rewrite Hc.
Qed.

Lemma initial_mesh_face bm f x v r :
  get_face bm f = Ok x -> f_verts x = v :: r ->
  m_verts (initial_mesh bm f x) = m_verts bm /\
  exists y r', get_face (initial_mesh bm f x) f = Ok y /\ f_verts y = v :: r' /\
    y = (if Qltb (vz (f_normal x)) 0
         then mkFace (f_verts (flip x))
                     (calc_normal Vector_normalize bm (f_verts (flip x)))
         else x).
Proof.
  intros Hx Hv. unfold initial_mesh.
  destruct (Qltb (vz (f_normal x)) 0).
  - split; [done|].
    exists (mkFace (f_verts (flip x))
                   (calc_normal Vector_normalize bm (f_verts (flip x)))), (reverse r).
    split_and!; [|by unfold flip; simpl; rewrite Hv|done].
    by rewrite (normals_update_get_face _ _ _ _ (get_face_set_flip _ _ _ Hx)).
  - split; [done|]. exists x, r. done.
Qed.

Lemma getInitialShape_run bm f x v r :
  faces_0 bm = Ok f -> get_face bm f = Ok x -> f_verts x = v :: r ->
  v < length (m_verts bm) ->
  getInitialShape bm
  = Ok (initial_mesh bm f x, mkShape2d Shape2dClass f (f, v) v None).
Proof.
  intros Hf Hx Hv Hlt.
  destruct (initial_mesh_face bm f x v r Hx Hv) as (Hvs & y & r' & Hy & Hvy & _).
  destruct (init_first (initial_mesh bm f x) f y v r' Hy Hvy) as [Hl0 Hi].
  { by rewrite Hvs. }
  unfold getInitialShape. rewrite Hf. simpl.
  unfold face_normal. rewrite Hx. simpl.
  assert ((if Qltb (vz (f_normal x)) 0
           then reverse_faces Vector_normalize bm f else Ok bm)
          = Ok (initial_mesh bm f x)) as ->.
  { unfold initial_mesh, reverse_faces. rewrite Hx.
    by destruct (Qltb (vz (f_normal x)) 0). }
  simpl. rewrite Hl0. simpl. by rewrite Hi.
Qed.

Lemma getInitialShape_inv bm bm' s :
  getInitialShape bm = Ok (bm', s) ->
  exists f x v r,
    faces_0 bm = Ok f /\ get_face bm f = Ok x /\ f_verts x = v :: r /\
    v < length (m_verts bm) /\
    bm' = initial_mesh bm f x /\
    s = mkShape2d Shape2dClass f (f, v) v None.
Proof.
  intros Hg.
  assert (exists f x v r, faces_0 bm = Ok f /\ get_face bm f = Ok x /\
            f_verts x = v :: r /\ v < length (m_verts bm))
    as (f & x & v & r & Hf & Hx & Hv & Hlt).
  { unfold getInitialShape in Hg.
    destruct (faces_0 bm) as [f| |] eqn:Hf; simpl in Hg; [|done..].
    unfold face_normal in Hg.
    destruct (get_face bm f) as [x| |] eqn:Hx; simpl in Hg; [|done..].
    exists f, x.
    assert ((if Qltb (vz (f_normal x)) 0
             then reverse_faces Vector_normalize bm f else Ok bm)
            = Ok (initial_mesh bm f x)) as E.
    { unfold initial_mesh, reverse_faces. rewrite Hx.
      by destruct (Qltb (vz (f_normal x)) 0). }
    rewrite E in Hg. simpl in Hg.
    destruct (f_verts x) as [|v r] eqn:Hv.
    { exfalso. unfold face_loops_0, initial_mesh in Hg.
      destruct (Qltb (vz (f_normal x)) 0).
      - rewrite (normals_update_get_face _ _ _ _ (get_face_set_flip _ _ _ Hx)) in Hg.
        unfold flip in Hg. simpl in Hg. by rewrite Hv in Hg.
      - rewrite Hx in Hg. simpl in Hg. by rewrite Hv in Hg. }
    exists v, r. split_and!; try done.
    destruct (initial_mesh_face bm f x v r Hx Hv) as (Hvs & y & r' & Hy & Hvy & _).
    unfold face_loops_0 in Hg. rewrite Hy in Hg. simpl in Hg.
    rewrite Hvy in Hg. simpl in Hg.
    unfold Shape2d.__init__, loop_face, loop_vert in Hg.
    destruct (check_loop (initial_mesh bm f x) (f, v)); simpl in Hg; [|done..].
    unfold co in Hg. simpl in Hg. rewrite Hvs in Hg.
    destruct (m_verts bm !! v) eqn:E'; [|done]. by eapply lookup_lt_Some. }
  exists f, x, v, r. split_and!; try done.
  - rewrite (getInitialShape_run bm f x v r Hf Hx Hv Hlt) in Hg. by injection Hg.
  - rewrite (getInitialShape_run bm f x v r Hf Hx Hv Hlt) in Hg. by injection Hg.
Qed.

Lemma initial_mesh_wf bm f x :
  wf bm -> get_face bm f = Ok x -> wf (initial_mesh bm f x).
Proof.
  intros Hwf Hx. unfold initial_mesh. destruct (Qltb _ _); [|done].
  eapply (cycles_wf (set_face bm f (Some (flip x)))).
  - done.
  - symmetry. apply normals_update_cycles.
  - apply wf_set_flip; [done|]. by apply get_face_lookup.
Qed.

(** the normal that the kernel calculates for the reversed face is the
    opposite normal, for a normalisation that is odd and respects the
    equality of rationals *)
Lemma calc_normal_flip bm x :
  (forall u, veq (Vector_normalize (neg u)) (neg (Vector_normalize u))) ->
  (forall u w, veq u w -> veq (Vector_normalize u) (Vector_normalize w)) ->
  f_verts x <> [] ->
  veq (calc_normal Vector_normalize bm (f_verts (flip x)))
      (neg (calc_normal Vector_normalize bm (f_verts x))).
Proof.
  intros Hodd Hcompat Hne. destruct (f_verts x) as [|v r] eqn:Hv; [done|].
  destruct (positions_flip bm x v r Hv) as [Hp Hp'].
  unfold calc_normal. rewrite Hp', <- Hv, Hp.
  rewrite <- Hodd. apply Hcompat, face_normal_vector_reverse.
Qed.

End initial_run.

Section further_init.
Context `{Imports}.

(** C9 (as the code has it). [getInitialShape] reverses the first face of
    the mesh when the z component of its stored normal is negative, and
    the kernel then calculates the normal of the face again, from the
    positions of its vertices along the reversed boundary; otherwise the
    mesh is left as it is. The shape returned wraps the first loop of
    that face. The z component of the normal of the face is then not
    negative when the face was not reversed, and also when the normal
    stored before the call was the one of the geometry of the face (the
    normalisation being odd and compatible with the equality of
    rationals); a stored normal that was out of date can leave a face
    whose normal points down. *)
Theorem getInitialShape_upward bm f x v r o :
  faces_0 bm = Ok f ->
  get_face bm f = Ok x ->
  f_verts x = v :: r ->
  co bm v = Ok o ->
  exists bm' s x',
    getInitialShape bm = Ok (bm', s) /\
    face s = f /\
    get_face bm' f = Ok x' /\
    face_loops_0 bm' f = Ok (firstLoop s) /\
    ((vz (f_normal x) < 0)%Q ->
       reverse_faces Vector_normalize bm f = Ok bm' /\
       x' = mkFace (f_verts (flip x))
                   (calc_normal Vector_normalize bm (f_verts (flip x)))) /\
    ((0 <= vz (f_normal x))%Q -> bm' = bm /\ x' = x) /\
    ((forall u, veq (Vector_normalize (neg u)) (neg (Vector_normalize u))) ->
     (forall u w, veq u w -> veq (Vector_normalize u) (Vector_normalize w)) ->
     veq (f_normal x) (calc_normal Vector_normalize bm (f_verts x)) ->
     (0 <= vz (f_normal x'))%Q).
Proof.
  intros Hf Hx Hv Ho.
  assert (v < length (m_verts bm)) as Hlt.
  { unfold co in Ho. destruct (m_verts bm !! v) eqn:E; [|done].
    by eapply lookup_lt_Some. }
  destruct (initial_mesh_face bm f x v r Hx Hv) as (Hvs & y & r' & Hy & Hvy & Ey).
  destruct (init_first (initial_mesh bm f x) f y v r' Hy Hvy) as [Hl0 _].
  { by rewrite Hvs. }
  exists (initial_mesh bm f x), (mkShape2d Shape2dClass f (f, v) v None), y.
  split; [by apply (getInitialShape_run bm f x v r)|].
  split; [done|]. split; [done|]. split; [done|].
  unfold initial_mesh, reverse_faces in *. rewrite Hx.
  destruct (Qltb (vz (f_normal x)) 0) eqn:Hz.
  - apply Qltb_lt in Hz. split_and!.
    + done.
    + intros Hge. lra.
    + intros Hodd Hcompat Hup. rewrite Ey. cbn [f_normal].
      destruct (calc_normal_flip bm x Hodd Hcompat) as (_ & _ & Hnz).
      { by rewrite Hv. }
      destruct Hup as (_ & _ & Hupz). rewrite Hnz. unfold neg. cbn [vz].
      rewrite <- Hupz. lra.
  - apply Qltb_ge in Hz. split_and!.
    + intros Hlt'. lra.
    + done.
    + intros _ _ _. by rewrite Ey.
Qed.

(** X8. [getInitialShape] on a mesh without a face (an empty mesh, or one
    whose faces were all removed) raises [IndexError]. *)
Theorem getInitialShape_no_face bm :
  Forall (fun o => o = None) (m_faces bm) ->
  getInitialShape bm = Raise IndexError.
Proof.
  intros Hno. unfold getInitialShape, faces_0.
  destruct (list_find _ _) as [[i o]|] eqn:E; [|done].
  apply list_find_Some in E as (Hi & [x ->] & _).
  rewrite Forall_forall in Hno.
  by specialize (Hno _ (list_elem_of_lookup_2 _ _ _ Hi)).
Qed.

(** X9. [getInitialShape] called again on the mesh it left returns the
    same shape. The second call leaves that mesh as it is when the normal
    of the first face does not point down there, which is the case
    whenever the first call did not reverse the face. When the first call
    reversed a face whose stored normal was out of date, so that the
    normal calculated for the reversed face points down, the second call
    reverses the face again: every face has then the boundary it had
    before the first call. *)
Theorem getInitialShape_again bm bm' s :
  getInitialShape bm = Ok (bm', s) ->
  exists bm'' x x',
    getInitialShape bm' = Ok (bm'', s) /\
    get_face bm (face s) = Ok x /\ get_face bm' (face s) = Ok x' /\
    m_verts bm'' = m_verts bm /\
    ((0 <= vz (f_normal x))%Q -> bm' = bm /\ bm'' = bm) /\
    ((0 <= vz (f_normal x'))%Q -> bm'' = bm') /\
    ((vz (f_normal x) < 0)%Q -> (vz (f_normal x') < 0)%Q ->
       cycles (m_faces bm'') = cycles (m_faces bm)).
Proof.
  intros Hg.
  destruct (getInitialShape_inv _ _ _ Hg)
    as (f & x & v & r & Hf & Hx & Hv & Hlt & -> & ->).
  destruct (initial_mesh_face bm f x v r Hx Hv) as (Hvs & y & r' & Hy & Hvy & Ey).
  assert (faces_0 (initial_mesh bm f x) = Ok f) as Hf'.
  { apply get_face_lookup in Hy. unfold initial_mesh in Hy |- *.
    destruct (Qltb _ _); [|done].
    apply faces_0_Some. apply faces_0_Some in Hf as [_ Hmin]. split.
    - eauto.
    - intros j Hj. rewrite normals_update_lookup. unfold set_face. simpl.
      rewrite list_lookup_insert_ne by lia. by rewrite (Hmin j Hj). }
  exists (initial_mesh (initial_mesh bm f x) f y), x, y. simpl.
  split; [apply (getInitialShape_run _ f y v r'); try done; by rewrite Hvs|].
  split; [done|]. split; [done|].
  split.
  { destruct (initial_mesh_face _ f y v r' Hy Hvy) as (Hvs' & _). by rewrite Hvs'. }
  split_and!.
  - intros Hz%Qltb_ge. unfold initial_mesh in Ey |- *. rewrite Hz in Ey |- *.
    subst y. by rewrite Hz.
  - intros Hz%Qltb_ge. unfold initial_mesh at 1. by rewrite Hz.
  - intros Hz%Qltb_lt Hz'%Qltb_lt. unfold initial_mesh at 1. rewrite Hz'.
    rewrite normals_update_cycles. unfold initial_mesh in Ey |- *.
    rewrite Hz in Ey |- *. subst y. unfold set_face. cbn [m_faces m_verts].
    apply list_eq. intros j. unfold cycles. rewrite !list_lookup_fmap.
    apply get_face_lookup in Hx.
    assert (f < length (m_faces bm)) as Hfl by by eapply lookup_lt_Some.
    destruct (decide (j = f)) as [->|Hne].
    + rewrite list_lookup_insert_eq
        by (by rewrite normals_update_faces_length; simpl; rewrite length_insert).
      rewrite Hx. simpl. do 2 f_equal. apply (flip_flip_verts x).
    + rewrite list_lookup_insert_ne by done.
      rewrite normals_update_lookup. simpl.
      rewrite list_lookup_insert_ne by done.
      by destruct (m_faces bm !! j) as [[g|]|].
Qed.

(** X10. [getInitialShape] keeps the invariant of the kernel, moves no
    vertex and changes the boundary of no face but the first one. The
    first face keeps its vertices and its first vertex, whether it is
    reversed or not: the origin of the shape returned is the first vertex
    of the first face as the mesh had it before the call; only the
    direction of its boundary changes when it is reversed. When the face
    is reversed every face of the mesh stores afterwards the normal that
    the kernel calculates from the positions of its vertices; when it is
    not, the mesh is untouched. *)
Theorem getInitialShape_keeps_mesh bm bm' s :
  wf bm -> getInitialShape bm = Ok (bm', s) ->
  wf bm' /\ m_verts bm' = m_verts bm /\
  length (m_faces bm') = length (m_faces bm) /\
  (forall j, j <> face s -> cycles (m_faces bm') !! j = cycles (m_faces bm) !! j) /\
  faces_0 bm = Ok (face s) /\
  exists x x',
    get_face bm (face s) = Ok x /\ get_face bm' (face s) = Ok x' /\
    f_verts x' ≡ₚ f_verts x /\
    head (f_verts x) = Some (origin s) /\ head (f_verts x') = Some (origin s) /\
    firstLoop s = (face s, origin s) /\
    (forall a b, dedge (f_verts x') a b <->
       if Qltb (vz (f_normal x)) 0 then dedge (f_verts x) b a
       else dedge (f_verts x) a b) /\
    ((vz (f_normal x) < 0)%Q -> normals_updated bm') /\
    ((0 <= vz (f_normal x))%Q -> bm' = bm).
Proof.
  intros Hwf Hg.
  destruct (getInitialShape_inv _ _ _ Hg)
    as (f & x & v & r & Hf & Hx & Hv & Hlt & -> & ->).
  destruct (initial_mesh_face bm f x v r Hx Hv) as (Hvs & y & r' & Hy & Hvy & Ey).
  pose proof (proj1 (get_face_lookup _ _ _) Hx) as Hl.
  assert (f < length (m_faces bm)) as Hfl by by eapply lookup_lt_Some.
  simpl. split; [by apply initial_mesh_wf|]. split; [done|].
  unfold initial_mesh in *.
  destruct (Qltb (vz (f_normal x)) 0) eqn:Hz.
  - split_and!; try done.
    + rewrite normals_update_faces_length. unfold set_face. simpl.
      by rewrite length_insert.
    + intros j Hj. rewrite normals_update_cycles. unfold set_face, cycles. simpl.
      by rewrite !list_lookup_fmap, list_lookup_insert_ne.
    + exists x, y. subst y. cbn [f_verts]. split_and!; try done.
      * apply flip_verts_Permutation.
      * by rewrite Hv.
      * by rewrite flip_head, Hv.
      * intros a b. rewrite Hz. apply dedge_flip.
      * intros _ j g Hg'. rewrite normals_update_lookup in Hg'.
        destruct (_ !! j) as [[g0|]|]; simpl in Hg'; try done.
        injection Hg' as <-. simpl. by apply calc_normal_verts.
      * apply Qltb_lt in Hz. intros Hge. lra.
  - split_and!; try done.
    exists x, x. split_and!; try done; try by rewrite Hv.
    + intros a b. by rewrite Hz.
    + apply Qltb_ge in Hz. intros Hlt'. lra.
Qed.

(** X11. The shape that [getInitialShape] returns can be extruded,
    whatever the first face of the mesh was: on a mesh that keeps the
    invariant of the kernel, [extrude] of the initial shape raises
    nothing. The 3D shape returned starts with the initial shape and has
    its first loop; it has N + 2 constituents (N the number of sides of
    the first face) when the z component of the normal of the cap exceeds
    the threshold, and 2 otherwise. *)
Theorem getInitialShape_extrude fuel bm rem bm' s depth :
  wf bm -> getInitialShape bm = Ok (bm', s) ->
  exists x',
    get_face bm' (face s) = Ok x' /\
    (((verticalNormalThreshold < vz (cap_normal bm' x' depth))%Q ->
      length (f_verts x') <= fuel) ->
     exists ctx' r,
       Shape2d.extrude fuel (pro.mkContext bm' rem) s depth = Ok (ctx', r) /\
       shapes r !! 0 = Some s /\
       firstLoop3 r = firstLoop s /\
       face_normal (pro.bm ctx') (length (m_faces bm))
         = Ok (cap_normal bm' x' depth) /\
       length (shapes r)
         = (if Qgtb (vz (cap_normal bm' x' depth)) verticalNormalThreshold
            then length (f_verts x') + 2 else 2) /\
       pro.facesForRemoval ctx' = rem).
Proof.
  intros Hwf Hg.
  destruct (getInitialShape_inv _ _ _ Hg)
    as (f & x & v & r & Hf & Hx & Hv & Hlt & -> & ->).
  destruct (initial_mesh_face bm f x v r Hx Hv) as (Hvs & y & r' & Hy & Hvy & Ey).
  pose proof (initial_mesh_wf bm f x Hwf Hx) as Hwf'.
  assert (length (m_faces (initial_mesh bm f x)) = length (m_faces bm)) as Hnf.
  { unfold initial_mesh. destruct (Qltb _ _); [|done].
    rewrite normals_update_faces_length. unfold set_face. simpl.
    by rewrite length_insert. }
  exists y. split; [done|]. intros Hfuel.
  assert (v ∈ f_verts y) as Hin by (rewrite Hvy; by left).
  destruct (first_vertex_pred _ _ Hin) as (i & w & Hi & Hi').
  destruct (extrude_run fuel (pro.mkContext (initial_mesh bm f x) rem)
              (mkShape2d Shape2dClass f (f, v) v None) depth y i w v)
    as (bm2 & Hex & HF & Hverts & Hup & Hnorm & Hside & Hext); try done.
  { intros Hz%Qgtb_gt. by apply Hfuel. }
  cbn [pro.bm] in *. rewrite Hnf in Hnorm.
  eexists _, _. split; [exact Hext|]. cbn [shapes firstLoop3 pro.bm pro.facesForRemoval].
  split_and!; try done.
  destruct (Qgtb _ _); simpl; [|done].
  rewrite length_fmap, cfrom_length. lia.
Qed.

End further_init.

(** ** The normalisation of the sample values *)

Lemma sample_root_compat (p q : Q) : (p == q)%Q -> sample.root p = sample.root q.
Proof. intros E. unfold sample.root. by rewrite (Qred_complete _ _ E). Qed.

Lemma sample_sgn_compat (p q : Q) : (p == q)%Q -> sample.sgn p = sample.sgn q.
Proof.
  intros E. unfold sample.sgn.
  rewrite (Qltb_compat 0 0 p q) by done.
  by rewrite (Qltb_compat p q 0 0) by done.
Qed.

Lemma sample_sgn_opp (q : Q) : (sample.sgn (- q) == - sample.sgn q)%Q.
Proof.
  unfold sample.sgn.
  destruct (Qltb 0 (- q)) eqn:E1; destruct (Qltb (- q) 0) eqn:E2;
    destruct (Qltb 0 q) eqn:E3; destruct (Qltb q 0) eqn:E4.
  all: repeat match goal with
              | H : Qltb _ _ = true |- _ => apply Qltb_lt in H
              | H : Qltb _ _ = false |- _ => apply Qltb_ge in H
              end.
  all: try lra; reflexivity.
Qed.

Lemma sample_normalize_veq u w :
  veq u w -> veq (sample.normalize u) (sample.normalize w).
Proof.
  intros (Hx & Hy & Hz). unfold sample.normalize.
  rewrite (sample_root_compat
             (vx u * vx u + vy u * vy u + vz u * vz u)
             (vx w * vx w + vy w * vy w + vz w * vz w)) by (by rewrite Hx, Hy, Hz).
  destruct (Qltb 0 _).
  - unfold veq. cbn [vx vy vz]. rewrite !Qred_correct, Hx, Hy, Hz.
    repeat split; reflexivity.
  - unfold veq. cbn [vx vy vz].
    rewrite (sample_sgn_compat _ _ Hx), (sample_sgn_compat _ _ Hy),
      (sample_sgn_compat _ _ Hz).
    repeat split; reflexivity.
Qed.

Lemma sample_normalize_odd u :
  veq (sample.normalize (neg u)) (neg (sample.normalize u)).
Proof.
  unfold sample.normalize, neg. cbn [vx vy vz].
  rewrite (sample_root_compat
             (- vx u * - vx u + - vy u * - vy u + - vz u * - vz u)
             (vx u * vx u + vy u * vy u + vz u * vz u)) by ring.
  destruct (Qltb 0 _) eqn:E.
  - apply Qltb_lt in E. unfold veq. cbn [vx vy vz]. rewrite !Qred_correct.
    repeat split; field; lra.
  - unfold veq. cbn [vx vy vz]. repeat split; apply sample_sgn_opp.
Qed.

(** ** The initial shape on the sample values *)

(** the rectangle whose stored normal is out of date: the boundary runs
    counter-clockwise seen from above and the stored normal points down;
    [getInitialShape] reverses the face, and the normal that the kernel
    then calculates points down *)
Lemma stale_initial_shape :
  exists bm' s x',
    @getInitialShape sample.imports more.stale = Ok (bm', s) /\
    face_normal more.stale 0 = Ok (vec 0 0 (-1)) /\
    firstLoop s = (0, 0) /\
    get_face bm' (face s) = Ok x' /\
    f_verts x' = [0; 3; 2; 1] /\
    f_normal x' = vec 0 0 (-1) /\
    (vz (f_normal x') < 0)%Q.
Proof.
  eexists _, _, _. split; [vm_compute; reflexivity|].
  split; [reflexivity|]. split; [reflexivity|]. split; [reflexivity|].
  split; [reflexivity|]. split; [reflexivity|]. by vm_compute.
Qed.

(** the initial shape of the rectangle that faces down *)
Lemma getInitialShape_upward_witness :
  exists bm' s x',
    @getInitialShape sample.imports sample.lot_down = Ok (bm', s) /\
    get_face bm' (face s) = Ok x' /\
    (0 <= vz (f_normal x'))%Q.
Proof.
  destruct (@getInitialShape_upward sample.imports sample.lot_down 0
              (mkFace [0; 3; 2; 1] (vec 0 0 (-1))) 0 [3; 2; 1] (vec 0 0 0))
    as (bm' & s & x' & Hrun & Hface & Hx' & _ & _ & _ & Hz).
  - reflexivity.
  - reflexivity.
  - reflexivity.
  - reflexivity.
  - exists bm', s, x'. rewrite Hface. split; [exact Hrun|]. split; [exact Hx'|].
    apply Hz.
    + exact sample_normalize_odd.
    + exact sample_normalize_veq.
    + by vm_compute.
Defined.


(** ** Further properties of [Shape2d.extrude] *)

Lemma wf_extruded bm bm' fi f :
  wf bm -> get_face bm fi = Ok f ->
  cycles (m_faces bm') = cycles (extruded_faces bm fi f) ->
  length (m_verts bm') = length (m_verts bm) + length (f_verts f) ->
  wf bm'.
Proof.
  intros Hwf Hf HF HV j g Hg.
  destruct (base_facts _ _ _ Hwf Hf) as (Hl & Hlt & Hnd & Hn & Hvs).
  split; [by eapply (extruded_NoDup bm bm' fi f)|].
  rewrite HV.
  destruct (proj1 (extruded_lookup bm bm' fi f Hwf Hf HF HV j (f_verts g))
                  (ex_intro _ g (conj Hg eq_refl)))
    as [[_ (g0 & Hg0 & <-)]|[[_ ->]|[[_ ->]|(i & v & _ & Hi & ->)]]].
  - destruct (Hwf _ _ Hg0) as (_ & ? & Hv). split; [done|].
    eapply Forall_impl; [exact Hv|]. simpl. lia.
  - rewrite flip_verts_length, flip_verts_Permutation. split; [done|].
    apply Forall_forall. intros v Hv. specialize (Hvs v Hv). lia.
  - rewrite length_seq. split; [done|].
    apply Forall_forall. intros v Hv%elem_of_seq. lia.
  - pose proof (lookup_lt_Some _ _ _ Hi) as Hi'.
    pose proof (cnext_lt _ _ Hi') as Hc.
    destruct (lookup_lt_is_Some_2 _ _ Hc) as [v' Hv'].
    unfold side_face. simpl. rewrite Hv'. simpl. split; [lia|].
    assert (v < length (m_verts bm)) by by eapply Hvs, list_elem_of_lookup_2.
    assert (v' < length (m_verts bm)) by by eapply Hvs, list_elem_of_lookup_2.
    repeat (apply Forall_cons; split); try lia. apply Forall_nil_2.
Qed.

(** the positions of vertices that were in the mesh before vertices were
    appended *)
Lemma positions_old (l k : list Vector) fs fs' vs :
  Forall (fun v => v < length l) vs ->
  positions (mkMesh (l ++ k) fs) vs = positions (mkMesh l fs') vs.
Proof.
  intros Hvs. unfold positions. simpl. apply Forall_fmap_ext_1.
  eapply Forall_impl; [exact Hvs|]. simpl. intros v Hv.
  by rewrite lookup_app_l.
Qed.

Lemma mulvec_veq R a b : veq a b -> veq (mulvec R a) (mulvec R b).
Proof.
  intros (Hx & Hy & Hz). unfold veq, mulvec, dot. cbn [vx vy vz c0 c1 c2 c3].
  rewrite Hx, Hy, Hz. repeat split; reflexivity.
Qed.

Lemma cfrom_lt n i r j : i < n -> r <= n -> j ∈ cfrom n i r -> j < n.
Proof.
  intros Hi Hr (t & Ht)%list_elem_of_lookup_1.
  pose proof (lookup_lt_Some _ _ _ Ht) as Hlt. rewrite cfrom_length in Hlt.
  rewrite cfrom_lookup in Ht by done. injection Ht as <-.
  rewrite cnext_iter by lia. case_decide; lia.
Qed.

(** the recalculation of the normals only reads the positions of the
    vertices and the boundaries of the faces *)
Lemma normals_update_ext N V F1 F2 :
  cycles F1 = cycles F2 ->
  normals_update N (mkMesh V F1) = normals_update N (mkMesh V F2).
Proof.
  intros HF. unfold normals_update. cbn [m_verts m_faces]. f_equal.
  apply list_eq. intros j. rewrite !list_lookup_fmap.
  pose proof (f_equal (fun l => l !! j) HF) as Hl.
  unfold cycles in Hl. rewrite !list_lookup_fmap in Hl.
  destruct (F1 !! j) as [[f1|]|], (F2 !! j) as [[f2|]|]; simpl in *; try done.
  injection Hl as ->. done.
Qed.

Section further_extrude.
Context `{Imports}.

#[local] Arguments Rectangle.split : simpl never.

(** the normal of the cap is the normal of the geometry of the face *)
Lemma cap_normal_veq bm f depth :
  (forall u w, veq u w -> veq (Vector_normalize u) (Vector_normalize w)) ->
  veq (cap_normal bm f depth) (extruded_normal bm f).
Proof.
  intros Hcompat. unfold cap_normal, extruded_normal, calc_normal, cap_positions.
  apply Hcompat, face_normal_vector_shift.
Qed.

(** X12. [extrude] of a face with N sides keeps the invariant of the
    kernel and only adds to the mesh: N vertices and N + 1 faces (the cap
    and the walls) are added, the other faces keep their boundary and the
    vertices that existed their position, the face of the shape is still
    in the mesh with its boundary reversed, and nothing is recorded for
    removal. Every face of the mesh stores afterwards the normal that the
    kernel calculates from the positions of its vertices. *)
Theorem extrude_keeps_mesh fuel ctx self depth f v' :
  wf (pro.bm ctx) ->
  get_face (pro.bm ctx) (face self) = Ok f ->
  firstLoop self = (face self, v') -> v' ∈ f_verts f ->
  ((verticalNormalThreshold < vz (cap_normal (pro.bm ctx) f depth))%Q ->
   length (f_verts f) <= fuel) ->
  let n := length (f_verts f) in
  let nv := length (m_verts (pro.bm ctx)) in
  let nf := length (m_faces (pro.bm ctx)) in
  exists ctx' r g,
    Shape2d.extrude fuel ctx self depth = Ok (ctx', r) /\
    wf (pro.bm ctx') /\
    length (m_verts (pro.bm ctx')) = nv + n /\
    length (m_faces (pro.bm ctx')) = nf + 1 + n /\
    (forall j, j < nf -> j <> face self ->
       cycles (m_faces (pro.bm ctx')) !! j = cycles (m_faces (pro.bm ctx)) !! j) /\
    get_face (pro.bm ctx') (face self) = Ok g /\
    f_verts g = f_verts (flip f) /\
    (forall v, v < nv -> co (pro.bm ctx') v = co (pro.bm ctx) v) /\
    normals_updated (pro.bm ctx') /\
    pro.facesForRemoval ctx' = pro.facesForRemoval ctx.
Proof.
  intros Hwf Hf Hfirst Hv' Hfuel n nv nf. subst n nv nf.
  destruct (first_vertex_pred _ _ Hv') as (i & v & Hi & Hi').
  destruct (extrude_run fuel ctx self depth f i v v' Hwf Hf Hi Hi' Hfirst)
    as (bm2 & Hex & HF & Hverts & Hup & Hnorm & Hside & Hrun).
  { intros Hz. by apply Hfuel, Qgtb_gt. }
  assert (length (m_verts bm2)
          = length (m_verts (pro.bm ctx)) + length (f_verts f)) as HV.
  { rewrite Hverts, length_app. unfold cap_positions.
    by rewrite length_fmap, positions_length. }
  destruct (base_facts _ _ _ Hwf Hf) as (Hl & Hlt & Hnd & Hn & Hvs).
  destruct (proj2 (extruded_lookup _ bm2 _ f Hwf Hf HF HV (face self)
                     (f_verts (flip f)))) as (g & Hg & Hvg); [auto|].
  eexists _, _, g. split; [exact Hrun|]. simpl. split_and!; try done.
  - by eapply wf_extruded.
  - apply (f_equal length) in HF. unfold cycles, extruded_faces in HF.
    rewrite !length_fmap, length_app, length_insert in HF. simpl in HF.
    rewrite length_imap in HF. lia.
  - intros j Hj Hne. rewrite HF. unfold cycles, extruded_faces.
    rewrite !list_lookup_fmap, lookup_app_l by by rewrite length_insert.
    by rewrite list_lookup_insert_ne.
  - by apply get_face_lookup.
  - intros w Hw. unfold co. by rewrite Hverts, lookup_app_l.
Qed.

(** X13. The cap of an extrusion is a copy of the face moved by [depth]
    times the normal that the kernel calculates from the positions of the
    vertices of the face, whatever normal the face stores: its i-th
    vertex is a new vertex at the position of the i-th vertex of the face
    plus [depth] times this normal. With depth 0 the cap lies on the
    face. The cap stores the normal calculated from its own positions,
    which is the normal of the face when the normalisation is compatible
    with the equality of rationals. *)
Theorem extrude_cap_position fuel ctx self depth f v' :
  wf (pro.bm ctx) ->
  get_face (pro.bm ctx) (face self) = Ok f ->
  firstLoop self = (face self, v') -> v' ∈ f_verts f ->
  ((verticalNormalThreshold < vz (cap_normal (pro.bm ctx) f depth))%Q ->
   length (f_verts f) <= fuel) ->
  let n := length (f_verts f) in
  let nv := length (m_verts (pro.bm ctx)) in
  let nf := length (m_faces (pro.bm ctx)) in
  let d := scale depth (extruded_normal (pro.bm ctx) f) in
  exists ctx' r cap g,
    Shape2d.extrude fuel ctx self depth = Ok (ctx', r) /\
    shapes r !! 1 = Some cap /\ face cap = nf /\
    get_face (pro.bm ctx') nf = Ok g /\
    f_verts g = seq nv n /\
    f_normal g = cap_normal (pro.bm ctx) f depth /\
    (forall i v c, f_verts f !! i = Some v -> co (pro.bm ctx) v = Ok c ->
       co (pro.bm ctx') (nv + i) = Ok (add c d) /\
       (depth == 0 -> veq (add c d) c)%Q) /\
    (forall i v, f_verts f !! i = Some v -> exists c, co (pro.bm ctx) v = Ok c) /\
    ((forall u w, veq u w -> veq (Vector_normalize u) (Vector_normalize w)) ->
     veq (f_normal g) (extruded_normal (pro.bm ctx) f)).
Proof.
  intros Hwf Hf Hfirst Hv' Hfuel n nv nf d. subst n nv nf d.
  destruct (first_vertex_pred _ _ Hv') as (i & v & Hi & Hi').
  destruct (extrude_run fuel ctx self depth f i v v' Hwf Hf Hi Hi' Hfirst)
    as (bm2 & Hex & HF & Hverts & Hup & Hnorm & Hside & Hrun).
  { intros Hz. by apply Hfuel, Qgtb_gt. }
  assert (length (m_verts bm2)
          = length (m_verts (pro.bm ctx)) + length (f_verts f)) as HV.
  { rewrite Hverts, length_app. unfold cap_positions.
    by rewrite length_fmap, positions_length. }
  destruct (base_facts _ _ _ Hwf Hf) as (Hl & Hlt & Hnd & Hn & Hvs).
  unfold face_normal in Hnorm.
  destruct (get_face bm2 (length (m_faces (pro.bm ctx)))) as [g| |] eqn:Hg;
    simpl in Hnorm; [|done..]. injection Hnorm as Hnorm.
  assert (f_verts g = seq (length (m_verts (pro.bm ctx))) (length (f_verts f))) as Hvg.
  { apply get_face_lookup in Hg.
    destruct (proj1 (extruded_lookup _ bm2 _ f Hwf Hf HF HV _ (f_verts g))
                    (ex_intro _ g (conj Hg eq_refl)))
      as [[_ (g0 & Hg0 & _)]|[[? _]|[[_ ?]|(k & w & ? & _)]]]; try done; try lia.
    apply lookup_lt_Some in Hg0. lia. }
  eexists _, _, _, g. split; [exact Hrun|]. simpl. split_and!; try done.
  - intros j w c Hj Hc. split.
    + unfold co in *. destruct (m_verts (pro.bm ctx) !! w) as [c'|] eqn:E; [|done].
      injection Hc as ->. rewrite Hverts.
      pose proof (lookup_lt_Some _ _ _ Hj).
      rewrite lookup_app_r by lia.
      replace (length (m_verts (pro.bm ctx)) + j - length (m_verts (pro.bm ctx)))
        with j by lia.
      unfold cap_positions. rewrite list_lookup_fmap.
      by rewrite (positions_lookup _ _ _ _ _ Hj E).
    + intros Hd. destruct c as [cx cy cz], (extruded_normal (pro.bm ctx) f) as [nx ny nz].
      unfold veq, add, scale. cbn [vx vy vz]. rewrite Hd. repeat split; ring.
  - intros j w Hj. apply co_lt, Hvs. by eapply list_elem_of_lookup_2.
  - intros Hcompat. rewrite Hnorm. by apply cap_normal_veq.
Qed.

(** X14. Every wall of an extrusion can be split. When the walls are
    wrapped (the z component of the normal of the cap exceeds the
    threshold), each of them is a [Rectangle] on a face with four
    vertices of a mesh that keeps the invariant of the kernel, so [split]
    along any axis with at least two cuts returns one entry per cut. The
    cap is a plain [Shape2d], which has no method [split]: the call
    raises [AttributeError]. *)
Theorem extrude_walls_split fuel ctx self depth f v' direction parts :
  wf (pro.bm ctx) ->
  get_face (pro.bm ctx) (face self) = Ok f ->
  firstLoop self = (face self, v') -> v' ∈ f_verts f ->
  (verticalNormalThreshold < vz (cap_normal (pro.bm ctx) f depth))%Q ->
  length (f_verts f) <= fuel ->
  exists ctx' r,
    Shape2d.extrude fuel ctx self depth = Ok (ctx', r) /\
    length (drop 2 (shapes r)) = length (f_verts f) /\
    (forall w, w ∈ drop 2 (shapes r) ->
       exists g rl cs,
         get_face (pro.bm ctx') (face w) = Ok g /\ length (f_verts g) = 4 /\
         Rectangle.referenceLoop (pro.bm ctx') w direction = Ok rl /\
         Rectangle.cuts (pro.bm ctx') rl parts = Ok cs /\
         (2 <= length cs ->
          exists ctx'' out,
            Rectangle.split ctx' w direction parts = Ok (ctx'', out) /\
            length out = length cs /\ wf (pro.bm ctx''))) /\
    (forall cap, shapes r !! 1 = Some cap ->
       Rectangle.split ctx' cap direction parts = Raise AttributeError).
Proof.
  intros Hwf Hf Hfirst Hv' Hz Hfuel.
  destruct (first_vertex_pred _ _ Hv') as (i & v & Hi & Hi').
  destruct (extrude_run fuel ctx self depth f i v v' Hwf Hf Hi Hi' Hfirst)
    as (bm2 & Hex & HF & Hverts & Hup & Hnorm & Hside & Hrun); [done|].
  assert (length (m_verts bm2)
          = length (m_verts (pro.bm ctx)) + length (f_verts f)) as HV.
  { rewrite Hverts, length_app. unfold cap_positions.
    by rewrite length_fmap, positions_length. }
  apply Qgtb_gt in Hz. rewrite Hz in Hrun.
  destruct (base_facts _ _ _ Hwf Hf) as (Hl & Hlt & Hnd & Hn & Hvs).
  pose proof (wf_extruded _ bm2 _ _ Hwf Hf HF HV) as Hwf2.
  eexists _, _. split; [exact Hrun|]. cbn [shapes drop pro.bm lookup list_lookup].
  rewrite drop_0. split_and!.
  - by rewrite length_fmap, cfrom_length.
  - intros w (j & -> & Hj)%list_elem_of_fmap.
    assert (j < length (f_verts f)) as Hjn.
    { apply (cfrom_lt _ i (length (f_verts f)));
        [by eapply lookup_lt_Some|lia|exact Hj]. }
    destruct (lookup_lt_is_Some_2 _ _ Hjn) as [a Ha].
    destruct (lookup_lt_is_Some_2 _ _ (cnext_lt _ _ Hjn)) as [b Hb].
    destruct (proj2 (extruded_lookup _ bm2 _ f Hwf Hf HF HV
                       (length (m_faces (pro.bm ctx)) + 1 + j)
                       (f_verts (side_face (f_verts f)
                                   (length (m_verts (pro.bm ctx))) j a))))
      as (g & Hg%get_face_lookup & Hgv).
    { right. right. right. eauto. }
    rewrite (side_face_verts _ f _ _ _ Ha Hb) in Hgv.
    destruct (split_run (pro.mkContext bm2 (pro.facesForRemoval ctx))
                (wall (f_verts f) (length (m_faces (pro.bm ctx))) j)
                direction parts g a) as (rl & cs & Hrl & Hcs & Hsplit);
      try done.
    { unfold wall. simpl. by rewrite Ha. }
    { rewrite Hgv. by left. }
    { by rewrite Hgv. }
    exists g, rl, cs. split_and!; try done; [by rewrite Hgv|].
    intros Hlen. destruct (Hsplit Hlen)
      as (ctx'' & out & o1 & o2 & vec1 & vec2 & Hs & Hwf'' & _ & _ & _ & _ & _ & Hout & _).
    eauto.
  - intros cap [= <-]. unfold Rectangle.split. done.
Qed.

(** X15. [comp] on the 3D shape of an extrusion files the cap and the
    base under opposite selectors. After the extrusion the cap stores the
    normal of the geometry of the face and the base, which was reversed,
    the opposite normal (up to the equality of rationals, for a
    normalisation that is odd and compatible with it), whatever normal
    the face stored before. For a rotation matrix without translation
    part that leaves the z component of the normal of the geometry above
    [horizontalFaceThreshold], the cap is filed under [top] and the base
    under [bottom] when both are requested. *)
Theorem extrude_comp_top_bottom fuel ctx self depth f v' parts :
  wf (pro.bm ctx) ->
  get_face (pro.bm ctx) (face self) = Ok f ->
  firstLoop self = (face self, v') -> v' ∈ f_verts f ->
  ((verticalNormalThreshold < vz (cap_normal (pro.bm ctx) f depth))%Q ->
   length (f_verts f) <= fuel) ->
  (forall u, veq (Vector_normalize (neg u)) (neg (Vector_normalize u))) ->
  (forall u w, veq u w -> veq (Vector_normalize u) (Vector_normalize w)) ->
  pro.top ∈ parts -> pro.bottom ∈ parts ->
  exists ctx' r cap nc nb,
    Shape2d.extrude fuel ctx self depth = Ok (ctx', r) /\
    shapes r !! 0 = Some self /\ shapes r !! 1 = Some cap /\
    face_normal (pro.bm ctx') (face cap) = Ok nc /\
    veq nc (extruded_normal (pro.bm ctx) f) /\
    face_normal (pro.bm ctx') (face self) = Ok nb /\
    veq nb (neg (extruded_normal (pro.bm ctx) f)) /\
    forall r' R,
      Shape3d.getRotationMatrix (pro.bm ctx') r = Ok (r', R) ->
      linear R ->
      (horizontalFaceThreshold < vz (mulvec R (extruded_normal (pro.bm ctx) f)))%Q ->
      exists res top bottom,
        Shape3d.comp (pro.bm ctx') r parts = Ok (r', res) /\
        res !! pro.top = Some top /\ cap ∈ top /\
        res !! pro.bottom = Some bottom /\ self ∈ bottom.
Proof.
  intros Hwf Hf Hfirst Hv' Hfuel Hodd Hcompat Htop Hbot.
  destruct (first_vertex_pred _ _ Hv') as (i & v & Hi & Hi').
  destruct (extrude_run fuel ctx self depth f i v v' Hwf Hf Hi Hi' Hfirst)
    as (bm2 & Hex & HF & Hverts & Hup & Hnorm & Hside & Hrun).
  { intros Hz. by apply Hfuel, Qgtb_gt. }
  assert (length (m_verts bm2)
          = length (m_verts (pro.bm ctx)) + length (f_verts f)) as HV.
  { rewrite Hverts, length_app. unfold cap_positions.
    by rewrite length_fmap, positions_length. }
  destruct (base_facts _ _ _ Hwf Hf) as (Hl & Hlt & Hnd & Hn & Hvs).
  set (nb := calc_normal Vector_normalize (pro.bm ctx) (f_verts (flip f))).
  assert (face_normal bm2 (face self) = Ok nb) as Hbase.
  { destruct (proj2 (extruded_lookup _ bm2 _ f Hwf Hf HF HV (face self)
                       (f_verts (flip f)))) as (g & Hg & Hvg); [auto|].
    unfold face_normal. rewrite (proj2 (get_face_lookup _ _ _) Hg). simpl.
    rewrite (Hup _ _ Hg), Hvg. unfold nb, calc_normal. do 3 f_equal.
    destruct bm2 as [vs2 fs2]. simpl in Hverts. subst vs2.
    apply (positions_old _ _ _ (m_faces (pro.bm ctx))).
    apply Forall_forall. intros w Hw. apply Hvs.
    by rewrite <- (flip_verts_Permutation f). }
  assert (veq nb (neg (extruded_normal (pro.bm ctx) f))) as Hnb.
  { apply calc_normal_flip; [done..|]. intros E. rewrite E in Hn. simpl in Hn. lia. }
  pose proof (cap_normal_veq (pro.bm ctx) f depth Hcompat) as Hnc.
  eexists _, _, _, _, nb. split; [exact Hrun|]. cbn [shapes pro.bm].
  split_and!; try done.
  intros r' R HR Hlin Hz.
  set (cap := mkShape2d Shape2dClass (length (m_faces (pro.bm ctx)))
                (length (m_faces (pro.bm ctx)), length (m_verts (pro.bm ctx)) + i)
                (length (m_verts (pro.bm ctx)) + i) None) in *.
  set (r := mkShape3d _ _ _ _) in *.
  assert (Forall (fun s => exists n, face_normal bm2 (face s) = Ok n) (shapes r)) as Hall.
  { simpl. apply Forall_cons. split; [eauto|]. apply Forall_cons. split; [eauto|].
    destruct (Qgtb _ _); [|done]. apply Forall_forall.
    intros w (j & -> & Hj)%list_elem_of_fmap.
    assert (j < length (f_verts f)) as Hjn.
    { apply (cfrom_lt _ i (length (f_verts f)));
        [by eapply lookup_lt_Some|lia|exact Hj]. }
    destruct (lookup_lt_is_Some_2 _ _ Hjn) as [a Ha].
    destruct (proj2 (extruded_lookup _ bm2 _ f Hwf Hf HF HV
                       (length (m_faces (pro.bm ctx)) + 1 + j)
                       (f_verts (side_face (f_verts f)
                                   (length (m_verts (pro.bm ctx))) j a))))
      as (g & Hg%get_face_lookup & _).
    { right. right. right. eauto. }
    exists (f_normal g). unfold face_normal, wall. simpl. by rewrite Hg. }
  pose proof threshold_pos as Hthr.
  set (e := extruded_normal (pro.bm ctx) f) in *.
  assert (Shape3d.classify (mulvec R e) = (pro.top, false)) as Hc.
  { unfold Shape3d.classify.
    rewrite (proj2 (Qgtb_gt _ _)).
    - rewrite (proj2 (Qgtb_gt _ _)); [done|lra].
    - destruct (Qabs_cases (vz (mulvec R e))) as [[? ?]|[? ?]]; lra. }
  assert (Shape3d.classify (mulvec R (neg e)) = (pro.bottom, false)) as Hc'.
  { rewrite (classify_veq _ _ (mulvec_neg R _ Hlin)).
    destruct (classify_neg (mulvec R e)) as [Hopp _].
    rewrite Hopp, Hc; [done|].
    intros (_ & _ & Ha).
    destruct (Qabs_cases (vz (mulvec R e))) as [[? ?]|[? ?]]; lra. }
  destruct (comp_spec bm2 r r' R parts Hall HR) as (res & Hcomp & _).
  destruct (comp_filed bm2 r r' R parts cap pro.top Hall HR)
    as (res1 & top & Hc1 & Hk1 & Hin1).
  { simpl. right. by left. }
  { unfold key, tentative. simpl. rewrite Hnorm.
    rewrite (classify_veq _ _ (mulvec_veq R _ _ Hnc)), Hc.
    unfold Shape3d.select. by rewrite decide_True. }
  destruct (comp_filed bm2 r r' R parts self pro.bottom Hall HR)
    as (res2 & bottom & Hc2 & Hk2 & Hin2).
  { simpl. by left. }
  { unfold key, tentative. rewrite Hbase.
    rewrite (classify_veq _ _ (mulvec_veq R _ _ Hnb)), Hc'.
    unfold Shape3d.select. by rewrite decide_True. }
  rewrite Hcomp in Hc1, Hc2. injection Hc1 as <-. injection Hc2 as <-.
  exists res, top, bottom. done.
Qed.

(** X24. [extrude] reads no normal that the mesh stores when it is
    called: for two meshes with the same vertices and the same boundaries
    of faces, whatever normals their faces store, [extrude] gives the
    same result, exception or mesh and 3D shape. *)
Theorem extrude_ignores_stored_normals fuel ctx1 ctx2 self depth :
  m_verts (pro.bm ctx1) = m_verts (pro.bm ctx2) ->
  cycles (m_faces (pro.bm ctx1)) = cycles (m_faces (pro.bm ctx2)) ->
  pro.facesForRemoval ctx1 = pro.facesForRemoval ctx2 ->
  Shape2d.extrude fuel ctx1 self depth = Shape2d.extrude fuel ctx2 self depth.
Proof.
  destruct ctx1 as [[V F1] rem1], ctx2 as [[V2 F2] rem2]. simpl.
  intros <- HF <-.
  assert (extrude_face_region Vector_normalize (mkMesh V F1) (face self)
          = extrude_face_region Vector_normalize (mkMesh V F2) (face self)) as Hreg.
  { unfold extrude_face_region, get_face. cbn [m_faces m_verts].
    pose proof (f_equal (fun l => l !! face self) HF) as Hl.
    pose proof (f_equal length HF) as Hlen.
    unfold cycles in Hl, Hlen. rewrite !list_lookup_fmap in Hl.
    rewrite !length_fmap in Hlen.
    destruct (F1 !! face self) as [[f1|]|], (F2 !! face self) as [[f2|]|];
      simpl in Hl; try done.
    injection Hl as Hv. simpl. rewrite Hv.
    destruct (mapM _ (f_verts f2)) as [cs| |]; simpl; [|done..].
    rewrite Hlen. f_equal. f_equal.
    apply normals_update_ext. unfold cycles in *.
    rewrite !fmap_app, !list_fmap_insert, HF. simpl. by rewrite Hv. }
  unfold Shape2d.extrude, Shape2d.extruded. cbn [pro.bm pro.facesForRemoval].
  by rewrite Hreg.
Qed.

End further_extrude.


(** ** Further properties of [Rectangle.split] *)

Ltac cons_lia :=
  repeat match goal with
         | |- (_ :: _) = (_ :: _) => f_equal; try lia
         end;
  try done.

Lemma chain_indices (vs : list nat) v0 v1 v2 v3 v4 :
  NoDup vs ->
  dedge vs v0 v1 -> dedge vs v1 v2 -> dedge vs v2 v3 -> dedge vs v3 v4 ->
  exists i, i < length vs /\
    vs !! i = Some v0 /\
    vs !! cnext (length vs) i = Some v1 /\
    vs !! cnext (length vs) (cnext (length vs) i) = Some v2 /\
    vs !! cnext (length vs) (cnext (length vs) (cnext (length vs) i)) = Some v3 /\
    vs !! cnext (length vs) (cnext (length vs) (cnext (length vs)
            (cnext (length vs) i))) = Some v4.
Proof.
  intros Hnd (i0 & H0 & H1) (i1 & H1' & H2) (i2 & H2' & H3) (i3 & H3' & H4).
  pose proof (NoDup_lookup _ _ _ _ Hnd H1' H1) as ->.
  pose proof (NoDup_lookup _ _ _ _ Hnd H2' H2) as ->.
  pose proof (NoDup_lookup _ _ _ _ Hnd H3' H3) as ->.
  exists i0. split_and!; try done. by eapply lookup_lt_Some.
Qed.

Lemma cut_verts_lookup {R} (o1 o2 vec1 vec2 : Vector) (cuts : list (Q * R)) t cut :
  cuts !! t = Some cut ->
  cut_verts o1 o2 vec1 vec2 cuts !! (2 * t) = Some (add o1 (scale cut.1 vec1)) /\
  cut_verts o1 o2 vec1 vec2 cuts !! (2 * t + 1) = Some (add o2 (scale cut.1 vec2)).
Proof.
  revert t. induction cuts as [|c cuts IH]; intros t Ht; [done|].
  destruct t as [|t]; simpl in Ht.
  - by injection Ht as ->.
  - destruct (IH t Ht) as [IH1 IH2].
    replace (2 * S t) with (S (S (2 * t))) by lia.
    replace (S (S (2 * t)) + 1) with (S (S (2 * t + 1))) by lia. done.
Qed.

Lemma cut_verts_length {R} (o1 o2 vec1 vec2 : Vector) (cuts : list (Q * R)) :
  length (cut_verts o1 o2 vec1 vec2 cuts) = 2 * length cuts.
Proof.
  induction cuts as [|c cuts IH]; [done|].
  unfold cut_verts in *. cbn [mbind list_bind length app] in *. lia.
Qed.

Section further_split.
Context `{Imports}.

Lemma createSplitShape_inv bm verts bm' s :
  Rectangle.createSplitShape bm verts = Ok (bm', s) ->
  exists v, head verts = Some v /\
    bm' = mkMesh (m_verts bm) (m_faces bm ++ [Some (mkFace verts zero)]) /\
    s = mkShape2d RectangleClass (length (m_faces bm)) (length (m_faces bm), v) v None.
Proof.
  unfold Rectangle.createSplitShape, faces_new.
  destruct (decide (length verts < 3)); [done|].
  destruct (decide (Forall _ verts)); [|done].
  destruct (decide (NoDup verts)); [|done].
  destruct (face_exists bm verts); [done|]. simpl.
  unfold face_loops_0, get_face. simpl.
  rewrite lookup_app_r, Nat.sub_diag by done. simpl.
  destruct verts as [|v r]; [done|]. simpl.
  unfold Shape2d.__init__, loop_face, loop_vert, check_loop, get_face. simpl.
  rewrite lookup_app_r, Nat.sub_diag by done. simpl.
  rewrite decide_True by by left. simpl.
  destruct (co _ v); simpl; [|done..].
  intros [= <- <-]. eauto.
Qed.

Lemma cut_loop_inv direction origin1 origin2 o1 o2 vec1 vec2 cuts :
  forall bm prev1 prev2 bm' p out,
  co bm origin1 = Ok o1 -> co bm origin2 = Ok o2 ->
  Rectangle.cut_loop direction bm origin1 origin2 vec1 vec2 prev1 prev2 cuts
    = Ok (bm', p, out) ->
  let nv := length (m_verts bm) in
  let nf := length (m_faces bm) in
  let P t := if decide (t = 0) then prev1 else nv + 2 * (t - 1) in
  let Q t := if decide (t = 0) then prev2 else nv + 2 * (t - 1) + 1 in
  let V t := if decide (direction = pro.x) then [P t; P (S t); Q (S t); Q t]
             else [Q t; P t; P (S t); Q (S t)] in
  m_verts bm' = m_verts bm ++ cut_verts o1 o2 vec1 vec2 cuts /\
  length (m_faces bm') = nf + length cuts /\
  (forall j, j < nf -> m_faces bm' !! j = m_faces bm !! j) /\
  (forall t, t < length cuts ->
     m_faces bm' !! (nf + t) = Some (Some (mkFace (V t) zero))) /\
  p = (P (length cuts), Q (length cuts)) /\
  length out = length cuts /\
  (forall t cut, cuts !! t = Some cut ->
     out !! t = Some (CutShape (mkShape2d RectangleClass (nf + t)
                                  (nf + t, default 0 (head (V t)))
                                  (default 0 (head (V t))) None), cut.2)).
Proof.
  induction cuts as [|cut cuts IH]; intros bm prev1 prev2 bm' p out Ho1 Ho2 Hrun.
  - simpl in Hrun. injection Hrun as <- <- <-. simpl.
    rewrite app_nil_r. split_and!; try done; try lia.
  - simpl in Hrun. rewrite Ho1, Ho2 in Hrun. simpl in Hrun.
    destruct (Rectangle.createSplitShape _ _) as [[bm1 s]| |] eqn:Hc;
      simpl in Hrun; [|done..].
    apply createSplitShape_inv in Hc as (v & Hv & -> & ->). simpl in Hrun, Hv.
    destruct (Rectangle.cut_loop _ _ _ _ _ _ _ _ cuts) as [[[bm2 p2] out2]| |] eqn:Hr;
      simpl in Hrun; [|done..].
    injection Hrun as <- <- <-.
    apply IH in Hr; simpl.
    2:{ unfold co in *. simpl. rewrite <- !app_assoc.
        destruct (m_verts bm !! origin1) eqn:E; [|done].
        by rewrite (lookup_app_l_Some _ _ _ _ E). }
    2:{ unfold co in *. simpl. rewrite <- !app_assoc.
        destruct (m_verts bm !! origin2) eqn:E; [|done].
        by rewrite (lookup_app_l_Some _ _ _ _ E). }
    simpl in Hr. rewrite !length_app in Hr. simpl in Hr.
    destruct Hr as (Hvs & Hlen & Hold & Hnew & Hp & Hlo & Hout).
    split_and!.
    + rewrite Hvs. unfold cut_verts. simpl. by rewrite <- !app_assoc.
    + lia.
    + intros j Hj. rewrite Hold by lia. by rewrite lookup_app_l.
    + intros t Ht. destruct t as [|t].
      * rewrite Nat.add_0_r, Hold by lia.
        rewrite lookup_app_r, Nat.sub_diag by done. simpl.
        do 3 f_equal. repeat case_decide; try lia; cons_lia.
      * replace (length (m_faces bm) + S t) with (length (m_faces bm) + 1 + t) by lia.
        rewrite Hnew by lia. do 3 f_equal.
        destruct t; repeat case_decide; try lia; cons_lia.
    + rewrite Hp. destruct cuts; simpl; repeat case_decide; try lia; f_equal; lia.
    + lia.
    + intros t c Ht. destruct t as [|t].
      * simpl in Ht. injection Ht as <-. simpl. rewrite Nat.add_0_r.
        do 4 f_equal.
        -- case_decide; simpl in Hv |- *; injection Hv as <-; f_equal; lia.
        -- case_decide; simpl in Hv |- *; injection Hv as <-; lia.
      * simpl in Ht. simpl. rewrite (Hout t c Ht).
        replace (length (m_faces bm) + S t) with (length (m_faces bm) + 1 + t) by lia.
        do 4 f_equal.
        -- f_equal. destruct t; repeat case_decide; simpl; lia.
        -- destruct t; repeat case_decide; simpl; lia.
Qed.

#[local] Arguments Rectangle.cut_loop : simpl never.
#[local] Arguments Rectangle.createSplitShape : simpl never.
#[local] Arguments Rectangle.cuts : simpl never.
#[local] Arguments Rectangle.referenceLoop : simpl never.
#[local] Arguments last : simpl never.
#[local] Arguments take : simpl never.
#[local] Arguments co : simpl never.

Lemma split_unfold ctx self direction parts f v0 v1 v2 v3 v4 o1 e1 e2 o2 :
  wf (pro.bm ctx) -> cls self = RectangleClass ->
  get_face (pro.bm ctx) (face self) = Ok f ->
  firstLoop self = (face self, v0) ->
  dedge (f_verts f) v0 v1 -> dedge (f_verts f) v1 v2 ->
  dedge (f_verts f) v2 v3 -> dedge (f_verts f) v3 v4 ->
  split_corners direction v0 v1 v2 v3 v4 = (o1, e1, e2, o2) ->
  exists cs c1 d1 d2 c2,
    Rectangle.referenceLoop (pro.bm ctx) self direction = Ok (face self, o1) /\
    Rectangle.cuts (pro.bm ctx) (face self, o1) parts = Ok cs /\
    co (pro.bm ctx) o1 = Ok c1 /\ co (pro.bm ctx) e1 = Ok d1 /\
    co (pro.bm ctx) e2 = Ok d2 /\ co (pro.bm ctx) o2 = Ok c2 /\
    dedge (f_verts f) o1 e1 /\ dedge (f_verts f) e1 e2 /\ dedge (f_verts f) e2 o2 /\
    Rectangle.split ctx self direction parts =
      ('(bm', (p1, p2), out) ←
         Rectangle.cut_loop direction (pro.bm ctx) o1 o2 (sub d1 c1) (sub d2 c2)
                            o1 o2 (take (length cs - 1) cs);
       '(bm'', s) ← Rectangle.createSplitShape bm'
                      (if decide (direction = pro.x)
                       then [p1; e1; e2; p2] else [p2; p1; e1; e2]);
       r ← match last cs with
           | Some cut => Ok (CutShape s, cut.2)
           | None => Raise IndexError
           end;
       Ok (pro.mkContext bm'' (pro.facesForRemoval ctx ++ [face self]), out ++ [r])).
Proof.
  intros Hwf Hcls Hf Hfirst C0 C1 C2 C3 Hcorners.
  destruct (base_facts _ _ _ Hwf Hf) as (Hl & Hlt & Hnd & _ & Hvs).
  assert (Rectangle.referenceLoop (pro.bm ctx) self direction = Ok (face self, o1) /\
          dedge (f_verts f) o1 e1 /\ dedge (f_verts f) e1 e2 /\
          dedge (f_verts f) e2 o2) as (Hrl & D1 & D2 & D3).
  { unfold split_corners in Hcorners. unfold Rectangle.referenceLoop.
    destruct (decide (direction = pro.x)); injection Hcorners as <- <- <- <-.
    - by rewrite Hfirst.
    - rewrite Hfirst. split_and!; try done.
      by destruct (loop_ops _ _ _ _ _ Hf Hnd C0) as (-> & _). }
  destruct (loop_ops _ _ _ _ _ Hf Hnd D1) as (Hn1 & Hedge & Hv1 & _).
  destruct (loop_ops _ _ _ _ _ Hf Hnd D2) as (Hn2 & _).
  destruct (loop_ops _ _ _ _ _ Hf Hnd D3) as (_ & _ & Hv3 & _).
  pose proof (getEndVertex_ok _ _ _ _ _ Hf Hnd D1) as Hend1.
  pose proof (getEndVertex_ok _ _ _ _ _ Hf Hnd D3) as Hend3.
  destruct (co_lt (pro.bm ctx) o1) as [c1 Hc1]; [eapply Hvs, dedge_l, D1|].
  destruct (co_lt (pro.bm ctx) e1) as [d1 Hd1]; [eapply Hvs, dedge_l, D2|].
  destruct (co_lt (pro.bm ctx) e2) as [d2 Hd2]; [eapply Hvs, dedge_l, D3|].
  destruct (co_lt (pro.bm ctx) o2) as [c2 Hc2]; [eapply Hvs, dedge_r, D3|].
  assert (exists cs, Rectangle.cuts (pro.bm ctx) (face self, o1) parts = Ok cs)
    as [cs Hcs].
  { unfold Rectangle.cuts. rewrite Hedge. simpl.
    destruct (co_lt (pro.bm ctx) (o1 `max` e1)) as [a ->].
    { apply Hvs. destruct (Nat.max_spec o1 e1) as [[_ ->]|[_ ->]];
        [eapply dedge_r, D1|eapply dedge_l, D1]. }
    destruct (co_lt (pro.bm ctx) (o1 `min` e1)) as [b ->].
    { apply Hvs. destruct (Nat.min_spec o1 e1) as [[_ ->]|[_ ->]];
        [eapply dedge_l, D1|eapply dedge_r, D1]. }
    simpl. eauto. }
  exists cs, c1, d1, d2, c2. split_and!; try done.
  unfold Rectangle.split. rewrite Hcls. simpl. rewrite Hrl. simpl.
  rewrite Hcs. simpl. rewrite Hn1. simpl. rewrite Hn2. simpl.
  rewrite Hv1. simpl. rewrite Hend3. simpl. rewrite Hend1. simpl.
  rewrite Hv3. simpl. rewrite Hd1. simpl. rewrite Hc1. simpl.
  rewrite Hd2. simpl. rewrite Hc2. simpl. reflexivity.
Qed.

Lemma split_inv ctx self direction parts f v0 v1 v2 v3 v4 o1 e1 e2 o2 ctx' out :
  wf (pro.bm ctx) -> cls self = RectangleClass ->
  get_face (pro.bm ctx) (face self) = Ok f ->
  firstLoop self = (face self, v0) ->
  dedge (f_verts f) v0 v1 -> dedge (f_verts f) v1 v2 ->
  dedge (f_verts f) v2 v3 -> dedge (f_verts f) v3 v4 ->
  split_corners direction v0 v1 v2 v3 v4 = (o1, e1, e2, o2) ->
  Rectangle.split ctx self direction parts = Ok (ctx', out) ->
  exists cs c1 d1 d2 c2,
    Rectangle.cuts (pro.bm ctx) (face self, o1) parts = Ok cs /\
    co (pro.bm ctx) o1 = Ok c1 /\ co (pro.bm ctx) e1 = Ok d1 /\
    co (pro.bm ctx) e2 = Ok d2 /\ co (pro.bm ctx) o2 = Ok c2 /\
    0 < length cs /\ length out = length cs /\
    m_verts (pro.bm ctx')
      = m_verts (pro.bm ctx)
          ++ cut_verts c1 c2 (sub d1 c1) (sub d2 c2) (take (length cs - 1) cs) /\
    length (m_faces (pro.bm ctx')) = length (m_faces (pro.bm ctx)) + length cs /\
    (forall j, j < length (m_faces (pro.bm ctx)) ->
       m_faces (pro.bm ctx') !! j = m_faces (pro.bm ctx) !! j) /\
    (forall t, t < length cs ->
       m_faces (pro.bm ctx') !! (length (m_faces (pro.bm ctx)) + t)
       = Some (Some (mkFace (tile direction (length (m_verts (pro.bm ctx)))
                                  o1 e1 o2 e2 (length cs) t) zero))) /\
    (forall t cut, cs !! t = Some cut ->
       exists h,
         head (tile direction (length (m_verts (pro.bm ctx))) o1 e1 o2 e2
                    (length cs) t) = Some h /\
         out !! t = Some (CutShape (mkShape2d RectangleClass
                                      (length (m_faces (pro.bm ctx)) + t)
                                      (length (m_faces (pro.bm ctx)) + t, h) h None),
                          cut.2)) /\
    pro.facesForRemoval ctx' = pro.facesForRemoval ctx ++ [face self].
Proof.
  intros Hwf Hcls Hf Hfirst C0 C1 C2 C3 Hcorners Hsplit.
  destruct (split_unfold ctx self direction parts f v0 v1 v2 v3 v4 o1 e1 e2 o2)
    as (cs & c1 & d1 & d2 & c2 & Hrl & Hcs & Hc1 & Hd1 & Hd2 & Hc2 & _ & _ & _ & Heq);
    try done.
  rewrite Heq in Hsplit. clear Heq.
  destruct (Rectangle.cut_loop _ _ _ _ _ _ _ _ _) as [[[bm1 [p1 p2]] out1]| |] eqn:Hloop;
    simpl in Hsplit; [|done..].
  destruct (Rectangle.createSplitShape _ _) as [[bm2 s]| |] eqn:Hcreate;
    simpl in Hsplit; [|done..].
  destruct (last cs) as [lastcut|] eqn:Hlast; simpl in Hsplit; [|done].
  injection Hsplit as <- <-.
  apply createSplitShape_inv in Hcreate as (h & Hh & -> & ->).
  pose proof (cut_loop_inv _ _ _ _ _ _ _ _ _ _ _ _ _ _ Hc1 Hc2 Hloop) as Hinv.
  cbv zeta in Hinv.
  destruct Hinv as (Hvs & Hlen & Hold & Hnew & Hp & Hlo & Hout).
  assert (0 < length cs) as Hpos.
  { destruct cs; [done|simpl; lia]. }
  assert (length (take (length cs - 1) cs) = length cs - 1) as Htake.
  { rewrite length_take. lia. }
  rewrite Htake in *. injection Hp as -> ->.
  set (nv := length (m_verts (pro.bm ctx))) in *.
  set (nf := length (m_faces (pro.bm ctx))) in *.
  set (n := length cs) in *.
  exists cs, c1, d1, d2, c2. cbn [pro.bm pro.facesForRemoval m_verts m_faces].
  split_and!; try done.
  - rewrite length_app, Hlo. simpl. lia.
  - rewrite length_app, Hlen. simpl. lia.
  - intros j Hj. rewrite lookup_app_l by lia. by apply Hold.
  - intros t Ht. destruct (decide (t < n - 1)) as [Hlt|Hge].
    + rewrite lookup_app_l by lia. rewrite Hnew by done.
      do 3 f_equal. unfold tile, cut_vertex.
      repeat case_decide; try lia; cons_lia.
    + assert (t = n - 1) as -> by lia.
      rewrite lookup_app_r by lia. rewrite Hlen, Nat.sub_diag. simpl.
      do 3 f_equal. unfold tile, cut_vertex.
      repeat case_decide; try lia; cons_lia.
  - intros t cut Ht. pose proof (lookup_lt_Some _ _ _ Ht) as Hlt. fold n in Hlt.
    destruct (decide (t < n - 1)) as [Hlt'|Hge].
    + assert (take (n - 1) cs !! t = Some cut) as Ht' by by rewrite lookup_take_lt.
      specialize (Hout t cut Ht').
      eexists. split; [|rewrite lookup_app_l by lia; rewrite Hout; reflexivity].
      unfold tile, cut_vertex. repeat case_decide; try lia; simpl; f_equal; lia.
    + assert (t = n - 1) as -> by lia.
      assert (cut = lastcut) as ->.
      { rewrite last_lookup in Hlast.
        replace (pred (length cs)) with (n - 1) in Hlast by (unfold n; lia).
        congruence. }
      exists h. split.
      * rewrite <- Hh. unfold tile, cut_vertex.
        repeat case_decide; try lia; simpl; f_equal; lia.
      * rewrite lookup_app_r by lia. rewrite Hlo, Nat.sub_diag. simpl.
        rewrite Hlen. done.
Qed.

(** X16. The faces that [split] creates tile the shape: with n cuts on a
    boundary that runs v0, v1, v2, v3, v4 from the first loop on, the face
    of the cut t lies between the positions t and t + 1 of the reference
    edge and of the opposite edge, position 0 being the origins of the two
    edges, position n their ends, and the positions in between the
    vertices created for the cuts. The faces are appended to the mesh in
    the order of the cuts with a zero normal, and the shape of the cut t
    starts at the first vertex of its face: on the reference edge for the
    direction x, on the opposite edge otherwise. On a face with four
    vertices the first shape returned has the origin of the shape that is
    split, in both directions. *)
Theorem split_tiles ctx self direction parts f v0 v1 v2 v3 v4 o1 e1 e2 o2 :
  wf (pro.bm ctx) -> cls self = RectangleClass ->
  get_face (pro.bm ctx) (face self) = Ok f ->
  firstLoop self = (face self, v0) -> 4 <= length (f_verts f) ->
  dedge (f_verts f) v0 v1 -> dedge (f_verts f) v1 v2 ->
  dedge (f_verts f) v2 v3 -> dedge (f_verts f) v3 v4 ->
  split_corners direction v0 v1 v2 v3 v4 = (o1, e1, e2, o2) ->
  let nv := length (m_verts (pro.bm ctx)) in
  let nf := length (m_faces (pro.bm ctx)) in
  exists cs,
    Rectangle.cuts (pro.bm ctx) (face self, o1) parts = Ok cs /\
    (2 <= length cs ->
     exists ctx' out,
       Rectangle.split ctx self direction parts = Ok (ctx', out) /\
       length (m_faces (pro.bm ctx')) = nf + length cs /\
       (forall t, t < length cs ->
          get_face (pro.bm ctx') (nf + t)
            = Ok (mkFace (tile direction nv o1 e1 o2 e2 (length cs) t) zero) /\
          exists s rule,
            out !! t = Some (CutShape s, rule) /\ face s = nf + t /\
            firstLoop s = (face s, origin s) /\
            head (tile direction nv o1 e1 o2 e2 (length cs) t) = Some (origin s)) /\
       (length (f_verts f) = 4 ->
        exists s rule, out !! 0 = Some (CutShape s, rule) /\ origin s = v0)).
Proof.
  intros Hwf Hcls Hf Hfirst Hn C0 C1 C2 C3 Hcorners nv nf.
  destruct (base_facts _ _ _ Hwf Hf) as (Hl & Hlt & Hnd & _ & Hvs).
  destruct (split_run ctx self direction parts f v0 Hwf Hcls Hf Hfirst)
    as (rl & cs & Hrl & Hcs & Hrun); [by eapply dedge_l|done|].
  destruct (split_unfold ctx self direction parts f v0 v1 v2 v3 v4 o1 e1 e2 o2)
    as (cs' & _ & _ & _ & _ & Hrl' & Hcs' & _); try done.
  rewrite Hrl in Hrl'. injection Hrl' as ->. rewrite Hcs in Hcs'. injection Hcs' as <-.
  exists cs. split; [done|]. intros Hlen.
  destruct (Hrun Hlen) as (ctx' & out & _ & _ & _ & _ & Hsplit & _).
  destruct (split_inv ctx self direction parts f v0 v1 v2 v3 v4 o1 e1 e2 o2 ctx' out)
    as (cs' & c1 & d1 & d2 & c2 & Hcs' & _ & _ & _ & _ & _ & Hout & _ & Hfl & _ & Hnew
        & Hsh & _); try done.
  rewrite Hcs in Hcs'. injection Hcs' as <-.
  exists ctx', out. split_and!; try done.
  - intros t Ht. split; [by apply get_face_lookup, Hnew|].
    destruct (lookup_lt_is_Some_2 cs t Ht) as [cut Hcut].
    destruct (Hsh t cut Hcut) as (h & Hh & Ho).
    eexists _, _. split; [exact Ho|]. done.
  - intros H4. destruct (lookup_lt_is_Some_2 cs 0) as [cut Hcut]; [lia|].
    destruct (Hsh 0 cut Hcut) as (h & Hh & Ho).
    eexists _, _. split; [exact Ho|]. simpl.
    unfold tile, cut_vertex, split_corners in *.
    destruct (decide (direction = pro.x)); injection Hcorners as <- <- <- <-;
      simpl in Hh; injection Hh as <-; [done|].
    destruct (chain_indices _ _ _ _ _ _ Hnd C0 C1 C2 C3)
      as (i & Hi & H0 & _ & _ & _ & H4').
    rewrite H4 in *.
    replace (cnext 4 (cnext 4 (cnext 4 (cnext 4 i)))) with i in H4'
      by (unfold cnext; repeat case_decide; lia).
    congruence.
Qed.

(** X17. The vertices that [split] creates lie on the reference edge and
    on the opposite edge at the cut parameters: for the cut t before the
    last one, of parameter c, the new vertex on the reference edge is at
    [origin1 + c * (end1 - origin1)] and the one on the opposite edge at
    [origin2 + c * (end2 - origin2)]. Two vertices are created per cut but
    the last one, whose parameter is not read; no vertex that existed is
    moved. *)
Theorem split_cut_positions ctx self direction parts f v0 v1 v2 v3 v4 o1 e1 e2 o2 :
  wf (pro.bm ctx) -> cls self = RectangleClass ->
  get_face (pro.bm ctx) (face self) = Ok f ->
  firstLoop self = (face self, v0) -> 4 <= length (f_verts f) ->
  dedge (f_verts f) v0 v1 -> dedge (f_verts f) v1 v2 ->
  dedge (f_verts f) v2 v3 -> dedge (f_verts f) v3 v4 ->
  split_corners direction v0 v1 v2 v3 v4 = (o1, e1, e2, o2) ->
  let nv := length (m_verts (pro.bm ctx)) in
  exists cs c1 d1 d2 c2,
    Rectangle.cuts (pro.bm ctx) (face self, o1) parts = Ok cs /\
    co (pro.bm ctx) o1 = Ok c1 /\ co (pro.bm ctx) e1 = Ok d1 /\
    co (pro.bm ctx) e2 = Ok d2 /\ co (pro.bm ctx) o2 = Ok c2 /\
    (2 <= length cs ->
     exists ctx' out,
       Rectangle.split ctx self direction parts = Ok (ctx', out) /\
       length (m_verts (pro.bm ctx')) = nv + 2 * (length cs - 1) /\
       (forall v, v < nv -> co (pro.bm ctx') v = co (pro.bm ctx) v) /\
       (forall t cut, t < length cs - 1 -> cs !! t = Some cut ->
          co (pro.bm ctx') (cut_vertex nv o1 e1 0 (length cs) (S t))
            = Ok (add c1 (scale cut.1 (sub d1 c1))) /\
          co (pro.bm ctx') (cut_vertex nv o2 e2 1 (length cs) (S t))
            = Ok (add c2 (scale cut.1 (sub d2 c2))))).
Proof.
  intros Hwf Hcls Hf Hfirst Hn C0 C1 C2 C3 Hcorners nv.
  destruct (split_run ctx self direction parts f v0 Hwf Hcls Hf Hfirst)
    as (rl & cs & Hrl & Hcs & Hrun); [by eapply dedge_l|done|].
  destruct (split_unfold ctx self direction parts f v0 v1 v2 v3 v4 o1 e1 e2 o2)
    as (cs' & c1 & d1 & d2 & c2 & Hrl' & Hcs' & Hc1 & Hd1 & Hd2 & Hc2 & _); try done.
  rewrite Hrl in Hrl'. injection Hrl' as ->. rewrite Hcs in Hcs'. injection Hcs' as <-.
  exists cs, c1, d1, d2, c2. split_and!; try done. intros Hlen.
  destruct (Hrun Hlen) as (ctx' & out & _ & _ & _ & _ & Hsplit & _).
  destruct (split_inv ctx self direction parts f v0 v1 v2 v3 v4 o1 e1 e2 o2 ctx' out)
    as (cs' & c1' & d1' & d2' & c2' & Hcs' & Hc1' & Hd1' & Hd2' & Hc2' & _ & _ & Hvs & _);
    try done.
  rewrite Hcs in Hcs'. injection Hcs' as <-.
  rewrite Hc1 in Hc1'. injection Hc1' as <-. rewrite Hd1 in Hd1'. injection Hd1' as <-.
  rewrite Hd2 in Hd2'. injection Hd2' as <-. rewrite Hc2 in Hc2'. injection Hc2' as <-.
  exists ctx', out. split_and!; try done.
  - rewrite Hvs, length_app, cut_verts_length, length_take. fold nv. lia.
  - intros v Hv. unfold co. rewrite Hvs. by rewrite lookup_app_l.
  - intros t cut Ht Hcut.
    assert (take (length cs - 1) cs !! t = Some cut) as Ht' by by rewrite lookup_take_lt.
    destruct (cut_verts_lookup c1 c2 (sub d1 c1) (sub d2 c2) _ t cut Ht') as [H1 H2].
    unfold cut_vertex, co. rewrite Hvs.
    rewrite !decide_False by lia. fold nv.
    rewrite !lookup_app_r by lia.
    replace (nv + 2 * (S t - 1) + 0 - length (m_verts (pro.bm ctx)))
      with (2 * t) by (unfold nv; lia).
    replace (nv + 2 * (S t - 1) + 1 - length (m_verts (pro.bm ctx)))
      with (2 * t + 1) by (unfold nv; lia).
    by rewrite H1, H2.
Qed.

(** X18. [split] removes nothing from the mesh: the face of the shape is
    still in the mesh after the call, unchanged (it is only recorded in
    [facesForRemoval]), as is every other face and the position of every
    vertex that existed; the invariant of the kernel is kept. *)
Theorem split_keeps_mesh ctx self direction parts f v0 :
  wf (pro.bm ctx) -> cls self = RectangleClass ->
  get_face (pro.bm ctx) (face self) = Ok f ->
  firstLoop self = (face self, v0) -> v0 ∈ f_verts f ->
  4 <= length (f_verts f) ->
  exists rl cs,
    Rectangle.referenceLoop (pro.bm ctx) self direction = Ok rl /\
    Rectangle.cuts (pro.bm ctx) rl parts = Ok cs /\
    (2 <= length cs ->
     exists ctx' out,
       Rectangle.split ctx self direction parts = Ok (ctx', out) /\
       wf (pro.bm ctx') /\
       get_face (pro.bm ctx') (face self) = Ok f /\
       (forall j, j < length (m_faces (pro.bm ctx)) ->
          m_faces (pro.bm ctx') !! j = m_faces (pro.bm ctx) !! j) /\
       (forall v, v < length (m_verts (pro.bm ctx)) ->
          co (pro.bm ctx') v = co (pro.bm ctx) v) /\
       face self ∈ pro.facesForRemoval ctx').
Proof.
  intros Hwf Hcls Hf Hfirst Hv0 Hn.
  destruct (base_facts _ _ _ Hwf Hf) as (Hl & Hlt & _).
  destruct (split_run ctx self direction parts f v0 Hwf Hcls Hf Hfirst Hv0 Hn)
    as (rl & cs & Hrl & Hcs & Hrun).
  exists rl, cs. split_and!; try done. intros Hlen.
  destruct (Hrun Hlen) as (ctx' & out & o1 & o2 & vec1 & vec2 & Hsplit & Hwf' & Hrem
                           & Hvs & _ & _ & Hold & _).
  exists ctx', out. split_and!; try done.
  - apply get_face_lookup. by rewrite Hold.
  - intros v Hv. unfold co. rewrite Hvs. by rewrite lookup_app_l.
  - rewrite Hrem. apply elem_of_app. right. by left.
Qed.

End further_split.


Lemma quad_chain (vs : list nat) v0 v1 v2 v3 :
  NoDup vs -> length vs = 4 ->
  dedge vs v0 v1 -> dedge vs v1 v2 -> dedge vs v2 v3 ->
  dedge vs v3 v0 /\ NoDup [v0; v1; v2; v3] /\
  (forall w, w ∈ vs <-> w ∈ [v0; v1; v2; v3]).
Proof.
  intros Hnd Hlen C0 C1 C2.
  destruct (dedge_succ vs v3 (dedge_r _ _ _ C2)) as [v4 C3].
  destruct (chain_indices _ _ _ _ _ _ Hnd C0 C1 C2 C3)
    as (i & Hi & H0 & H1 & H2 & H3 & H4).
  rewrite Hlen in *.
  assert (v4 = v0) as ->.
  { replace (cnext 4 (cnext 4 (cnext 4 (cnext 4 i)))) with i in H4
      by (unfold cnext; repeat case_decide; lia).
    congruence. }
  split; [done|].
  destruct vs as [|a [|b [|c [|d [|? ?]]]]]; simpl in Hlen; try lia.
  apply NoDup_cons in Hnd as [Ha Hnd]. apply NoDup_cons in Hnd as [Hb Hnd].
  apply NoDup_cons in Hnd as [Hc _].
  rewrite !not_elem_of_cons in Ha. rewrite !not_elem_of_cons in Hb.
  rewrite !not_elem_of_cons in Hc.
  destruct Ha as (? & ? & ? & _), Hb as (? & ? & _), Hc as (? & _).
  assert (i = 0 \/ i = 1 \/ i = 2 \/ i = 3) as [->|[->|[->| ->]]] by lia;
    vm_compute in H0, H1, H2, H3;
    apply (inj Some) in H0, H1, H2, H3; subst;
    (split; [apply NoDup_4; congruence
            |intros w; rewrite !elem_of_cons, !elem_of_nil; tauto]).
Qed.

Section further_split2.
Context `{Imports}.

#[local] Arguments Rectangle.cut_loop : simpl never.
#[local] Arguments Rectangle.createSplitShape : simpl never.
#[local] Arguments Rectangle.cuts : simpl never.
#[local] Arguments Rectangle.referenceLoop : simpl never.
#[local] Arguments last : simpl never.
#[local] Arguments co : simpl never.

Lemma face_exists_true bm j g (vs : list nat) :
  m_faces bm !! j = Some (Some g) ->
  length (f_verts g) = length vs -> (forall w, w ∈ f_verts g <-> w ∈ vs) ->
  face_exists bm vs = true.
Proof.
  intros Hg Hlen Hsame. unfold face_exists. apply existsb_exists.
  exists (Some g). split.
  - apply list_elem_of_In. by eapply list_elem_of_lookup_2.
  - rewrite !andb_true_iff, !bool_decide_eq_true. split_and!; try done.
    + intros w. apply Hsame.
    + intros w. apply Hsame.
Qed.

(** X19. [split] of a face with four vertices into fewer than two cuts
    raises [ValueError]: no vertex is created, and the face that would be
    created for the last cut is on the four vertices of the face itself,
    which the kernel refuses as a face that exists already. *)
Theorem split_few_cuts ctx self direction parts f v0 v1 v2 v3 :
  wf (pro.bm ctx) -> cls self = RectangleClass ->
  get_face (pro.bm ctx) (face self) = Ok f ->
  firstLoop self = (face self, v0) -> length (f_verts f) = 4 ->
  dedge (f_verts f) v0 v1 -> dedge (f_verts f) v1 v2 ->
  dedge (f_verts f) v2 v3 ->
  exists rl cs,
    Rectangle.referenceLoop (pro.bm ctx) self direction = Ok rl /\
    Rectangle.cuts (pro.bm ctx) rl parts = Ok cs /\
    (length cs <= 1 ->
     Rectangle.split ctx self direction parts = Raise ValueError).
Proof.
  intros Hwf Hcls Hf Hfirst Hn C0 C1 C2.
  destruct (base_facts _ _ _ Hwf Hf) as (Hl & Hlt & Hnd & _ & Hvs).
  destruct (quad_chain _ _ _ _ _ Hnd Hn C0 C1 C2) as (C3 & Hnd4 & Hsame).
  destruct (split_corners direction v0 v1 v2 v3 v0) as [[[o1 e1] e2] o2] eqn:Hcorners.
  destruct (split_unfold ctx self direction parts f v0 v1 v2 v3 v0 o1 e1 e2 o2)
    as (cs & c1 & d1 & d2 & c2 & Hrl & Hcs & Hc1 & Hd1 & Hd2 & Hc2 & _ & _ & _ & Heq);
    try done.
  exists (face self, o1), cs. split_and!; try done. intros Hlen.
  rewrite Heq.
  assert (take (length cs - 1) cs = []) as ->.
  { destruct cs as [|c [|c' cs]]; simpl in Hlen; try done. lia. }
  assert (forall verts, (forall w, w ∈ f_verts f <-> w ∈ verts) -> NoDup verts ->
            length verts = 4 ->
            Rectangle.createSplitShape (pro.bm ctx) verts = Raise ValueError)
    as Hraise.
  { intros verts Hv Hndv Hlv. unfold Rectangle.createSplitShape, faces_new.
    rewrite decide_False by lia.
    rewrite decide_True.
    2:{ apply Forall_forall. intros w Hw. by apply Hvs, Hv. }
    rewrite decide_True by done.
    rewrite (face_exists_true _ _ _ _ Hl); try done. by rewrite Hlv. }
  unfold Rectangle.cut_loop. simpl.
  unfold split_corners in Hcorners.
  destruct (decide (direction = pro.x)); injection Hcorners as <- <- <- <-.
  - rewrite (Hraise [v0; v1; v2; v3]); done.
  - rewrite (Hraise [v0; v1; v2; v3]); done.
Qed.

(** X20. The shapes returned by [split] can be split again: every shape
    of the result is a [Rectangle] on a face with four vertices of a mesh
    that keeps the invariant of the kernel, and [split] of it along any
    axis with at least two cuts returns one entry per cut. *)
Theorem split_again ctx self direction parts f v0 v1 v2 v3 v4 o1 e1 e2 o2
    direction' parts' :
  wf (pro.bm ctx) -> cls self = RectangleClass ->
  get_face (pro.bm ctx) (face self) = Ok f ->
  firstLoop self = (face self, v0) -> 4 <= length (f_verts f) ->
  dedge (f_verts f) v0 v1 -> dedge (f_verts f) v1 v2 ->
  dedge (f_verts f) v2 v3 -> dedge (f_verts f) v3 v4 ->
  split_corners direction v0 v1 v2 v3 v4 = (o1, e1, e2, o2) ->
  exists cs,
    Rectangle.cuts (pro.bm ctx) (face self, o1) parts = Ok cs /\
    (2 <= length cs ->
     exists ctx' out,
       Rectangle.split ctx self direction parts = Ok (ctx', out) /\
       length out = length cs /\
       forall e, e ∈ out ->
         exists s g rl cs',
           e.1 = CutShape s /\
           get_face (pro.bm ctx') (face s) = Ok g /\ length (f_verts g) = 4 /\
           Rectangle.referenceLoop (pro.bm ctx') s direction' = Ok rl /\
           Rectangle.cuts (pro.bm ctx') rl parts' = Ok cs' /\
           (2 <= length cs' ->
            exists ctx'' out',
              Rectangle.split ctx' s direction' parts' = Ok (ctx'', out') /\
              length out' = length cs')).
Proof.
  intros Hwf Hcls Hf Hfirst Hn C0 C1 C2 C3 Hcorners.
  destruct (split_run ctx self direction parts f v0 Hwf Hcls Hf Hfirst)
    as (rl & cs & Hrl & Hcs & Hrun); [by eapply dedge_l|done|].
  destruct (split_unfold ctx self direction parts f v0 v1 v2 v3 v4 o1 e1 e2 o2)
    as (cs' & _ & _ & _ & _ & Hrl' & Hcs' & _); try done.
  rewrite Hrl in Hrl'. injection Hrl' as ->. rewrite Hcs in Hcs'. injection Hcs' as <-.
  exists cs. split; [done|]. intros Hlen.
  destruct (Hrun Hlen) as (ctx' & out & _ & _ & _ & _ & Hsplit & Hwf' & _).
  destruct (split_inv ctx self direction parts f v0 v1 v2 v3 v4 o1 e1 e2 o2 ctx' out)
    as (cs' & c1 & d1 & d2 & c2 & Hcs' & _ & _ & _ & _ & _ & Hout & _ & Hfl & _ & Hnew
        & Hsh & _); try done.
  rewrite Hcs in Hcs'. injection Hcs' as <-.
  exists ctx', out. split_and!; try done.
  intros e (t & Ht)%list_elem_of_lookup_1.
  pose proof (lookup_lt_Some _ _ _ Ht) as Hlt. rewrite Hout in Hlt.
  destruct (lookup_lt_is_Some_2 cs t Hlt) as [cut Hcut].
  destruct (Hsh t cut Hcut) as (h & Hh & Ho).
  rewrite Ho in Ht. injection Ht as <-.
  set (g := mkFace (tile direction (length (m_verts (pro.bm ctx))) o1 e1 o2 e2
                         (length cs) t) zero).
  assert (get_face (pro.bm ctx') (length (m_faces (pro.bm ctx)) + t) = Ok g) as Hg
    by by apply get_face_lookup, Hnew.
  assert (length (f_verts g) = 4) as Hg4.
  { unfold g, tile. simpl. by case_decide. }
  destruct (split_run ctx' (mkShape2d RectangleClass (length (m_faces (pro.bm ctx)) + t)
                              (length (m_faces (pro.bm ctx)) + t, h) h None)
              direction' parts' g h Hwf')
    as (rl' & cs' & Hrl' & Hcs' & Hrun'); try done.
  { unfold g. simpl. destruct (tile _ _ _ _ _ _ _ _) as [|a l]; [done|].
    injection Hh as ->. by left. }
  { lia. }
  eexists _, g, rl', cs'. split_and!; try done.
  intros Hlen'.
  destruct (Hrun' Hlen') as (ctx'' & out' & _ & _ & _ & _ & Hs' & _ & _ & _ & _ & _ & _
                             & Hout' & _).
  eauto.
Qed.

End further_split2.

Section further_split3.
Context `{Imports}.

Lemma cut_loop_y_z bm origin1 origin2 vec1 vec2 cuts :
  forall prev1 prev2,
  Rectangle.cut_loop pro.y bm origin1 origin2 vec1 vec2 prev1 prev2 cuts
  = Rectangle.cut_loop pro.z bm origin1 origin2 vec1 vec2 prev1 prev2 cuts.
Proof.
  revert bm. induction cuts as [|cut cuts IH]; intros bm prev1 prev2; [done|].
  cbn [Rectangle.cut_loop].
  destruct (co bm origin1); [|reflexivity..]. cbn [mbind result_bind].
  destruct (co bm origin2); [|reflexivity..]. cbn [mbind result_bind].
  cbn [verts_new].
  rewrite (decide_False (P := pro.y = pro.x)) by done.
  rewrite (decide_False (P := pro.z = pro.x)) by done.
  destruct (Rectangle.createSplitShape _ _) as [[bm1 s]| |]; [|reflexivity..].
  cbn [mbind result_bind]. by rewrite IH.
Qed.

(** X21. [split] knows two directions only: every axis other than x is
    treated as y, so that a split along z is the split along y. *)
Theorem split_z_as_y ctx self parts :
  Rectangle.split ctx self pro.z parts = Rectangle.split ctx self pro.y parts.
Proof.
  unfold Rectangle.split, Rectangle.referenceLoop.
  rewrite (decide_False (P := pro.y = pro.x)) by done.
  rewrite (decide_False (P := pro.z = pro.x)) by done.
  destruct (cls self); [reflexivity|]. cbn [mbind result_bind].
  destruct (link_loop_next _ (firstLoop self)) as [rl| |]; [|reflexivity..].
  cbn [mbind result_bind].
  destruct (Rectangle.cuts _ _ _) as [cs| |]; [|reflexivity..]. cbn [mbind result_bind].
  destruct (link_loop_next _ rl) as [l| |]; [|reflexivity..]. cbn [mbind result_bind].
  destruct (link_loop_next _ l) as [opp| |]; [|reflexivity..]. cbn [mbind result_bind].
  destruct (loop_vert _ rl) as [origin1| |]; [|reflexivity..]. cbn [mbind result_bind].
  destruct (getEndVertex _ opp) as [origin2| |]; [|reflexivity..]. cbn [mbind result_bind].
  destruct (getEndVertex _ rl) as [end1| |]; [|reflexivity..]. cbn [mbind result_bind].
  destruct (loop_vert _ opp) as [end2| |]; [|reflexivity..]. cbn [mbind result_bind].
  destruct (co _ end1); [|reflexivity..]. cbn [mbind result_bind].
  destruct (co _ origin1); [|reflexivity..]. cbn [mbind result_bind].
  destruct (co _ end2); [|reflexivity..]. cbn [mbind result_bind].
  destruct (co _ origin2); [|reflexivity..]. cbn [mbind result_bind].
  by rewrite cut_loop_y_z.
Qed.

End further_split3.


(** ** Further properties of [Shape2d.getNormal] *)

Section further_normal.
Context `{Imports}.

(** X22. [getNormal] calculates the normal from the positions of the
    first three vertices of the boundary: it is the normalised cross
    product of the first edge and of the second edge, taken from the first
    loop on. The stored normal of the face is not read, so that the
    result is the same for a face just created, whose stored normal is
    zero. *)
Theorem getNormal_first_edges bm self j g a b c ca cb cc :
  get_face bm j = Ok g -> NoDup (f_verts g) ->
  firstLoop self = (j, a) ->
  dedge (f_verts g) a b -> dedge (f_verts g) b c ->
  co bm a = Ok ca -> co bm b = Ok cb -> co bm c = Ok cc ->
  Shape2d.getNormal bm self
    = Ok (Vector_normalize (cross (sub cb ca) (sub cc cb))) /\
  forall n, Shape2d.getNormal (set_face bm j (Some (mkFace (f_verts g) n))) self
            = Shape2d.getNormal bm self.
Proof.
  intros Hg Hnd Hfirst Hab Hbc Ha Hb Hc.
  assert (forall bm', get_face bm' j = Ok g \/
                      (exists n, get_face bm' j = Ok (mkFace (f_verts g) n)) ->
            m_verts bm' = m_verts bm ->
            Shape2d.getNormal bm' self
              = Ok (Vector_normalize (cross (sub cb ca) (sub cc cb)))) as Hgen.
  { intros bm' Hg' Hvs.
    assert (exists g', get_face bm' j = Ok g' /\ f_verts g' = f_verts g)
      as (g' & Hgj & Hsame).
    { destruct Hg' as [?|[n ?]]; eauto. }
    rewrite <- Hsame in Hnd, Hab, Hbc.
    destruct (loop_ops _ _ _ _ _ Hgj Hnd Hab) as (Hn1 & _ & Hv1 & _).
    destruct (loop_ops _ _ _ _ _ Hgj Hnd Hbc) as (_ & _ & Hv2 & _).
    pose proof (getEndVertex_ok _ _ _ _ _ Hgj Hnd Hab) as He1.
    pose proof (getEndVertex_ok _ _ _ _ _ Hgj Hnd Hbc) as He2.
    assert (forall v, co bm' v = co bm v) as Hco.
    { intros v. unfold co. by rewrite Hvs. }
    unfold Shape2d.getNormal. rewrite Hfirst, He1. simpl.
    rewrite Hco, Hb. simpl. rewrite Hv1. simpl. rewrite Hco, Ha. simpl.
    rewrite Hn1. simpl. rewrite He2. simpl. rewrite Hco, Hc. simpl.
    rewrite Hv2. simpl. by rewrite Hco, Hb. }
  split; [by apply Hgen; auto|].
  intros n. rewrite (Hgen bm) by auto. apply Hgen; [|done].
  right. exists n. apply get_face_lookup. unfold set_face. simpl.
  apply get_face_lookup in Hg.
  by rewrite list_lookup_insert_eq by by eapply lookup_lt_Some.
Qed.

End further_normal.


(** ** The further properties on the sample values *)

(** the rectangle extruded by 3, then [comp] with the six directions: the
    faces filed under each selector (0 the base, 1 the cap, 2 to 5 the
    walls on the edges of the base in their order) *)
Example lot_extrude_comp :
  ('(ctx', r) ← @Shape2d.extrude sample.imports 4 (sample.ctx sample.lot)
                  (sample.shape Shape2dClass 0 0) 3;
   '(_, res) ← @Shape3d.comp sample.imports (pro.bm ctx') r
                 [pro.front; pro.back; pro.left; pro.right; pro.top; pro.bottom];
   Ok ((fun k => (k, face <$> default [] (res !! k)))
         <$> [pro.front; pro.back; pro.left; pro.right; pro.top; pro.bottom]))
  = Ok [(pro.front, [3]); (pro.back, [5]); (pro.left, [2]); (pro.right, [4]);
        (pro.top, [1]); (pro.bottom, [0])].
Proof. vm_compute. reflexivity. Qed.

(** the three faces of the corner under [top] and [all] *)
Lemma comp_all_files_every_shape_witness :
  exists res,
    @Shape3d.comp sample.imports sample.corner sample.corner3d [pro.top; pro.all]
      = Ok (mkShape3d (shapes sample.corner3d) (0, 0) 0 (Some sample.identity), res) /\
    filed_with (fun s => if cls s is Shape2dClass then true else false) res = 2.
Proof.
  destruct (@comp_all_files_every_shape sample.imports sample.corner sample.corner3d
              (mkShape3d (shapes sample.corner3d) (0, 0) 0 (Some sample.identity))
              sample.identity [pro.top; pro.all])
    as (res & Hrun & _ & _ & Hall).
  - repeat constructor; eexists; reflexivity.
  - reflexivity.
  - exists res. split; [exact Hrun|].
    apply (proj1 (Hall (list_elem_of_further _ _ _ (list_elem_of_here _ _)))).
Defined.

(** the corner after its wall was removed *)
Lemma comp_removed_face_witness :
  @Shape3d.comp sample.imports more.corner_removed sample.corner3d [pro.top]
    = Raise ReferenceError.
Proof.
  apply (@comp_removed_face sample.imports more.corner_removed sample.corner3d
           (mkShape3d (shapes sample.corner3d) (0, 0) 0 (Some sample.identity))
           sample.identity [pro.top] (sample.shape RectangleClass 1 4)).
  - reflexivity.
  - apply list_elem_of_further, list_elem_of_here.
  - reflexivity.
Defined.

(** the selectors [top], [side] in two orders, one with a repetition *)
Lemma comp_selectors_as_set_witness :
  @Shape3d.comp sample.imports sample.corner sample.corner3d [pro.top; pro.side]
  = @Shape3d.comp sample.imports sample.corner sample.corner3d
      [pro.side; pro.top; pro.side].
Proof.
  apply (@comp_selectors_as_set sample.imports).
  intros k. rewrite !elem_of_cons, !elem_of_nil. tauto.
Defined.

(** the two halves of a split, with the selectors [left] and [side] *)
Lemma comp_zero_normal_witness :
  exists res l,
    @Shape3d.comp sample.imports more.halves more.halves3d [pro.left; pro.side]
      = Ok (mkShape3d (shapes more.halves3d) (0, 0) 0 (Some sample.identity), res) /\
    res !! pro.left = Some l /\ sample.shape RectangleClass 2 4 ∈ l.
Proof.
  destruct (@comp_zero_normal sample.imports more.halves more.halves3d
              (mkShape3d (shapes more.halves3d) (0, 0) 0 (Some sample.identity))
              sample.identity [pro.left; pro.side]
              (sample.shape RectangleClass 2 4) zero)
    as (_ & res & Hrun & Hleft & _).
  - repeat constructor; eexists; reflexivity.
  - reflexivity.
  - repeat split; reflexivity.
  - apply list_elem_of_further, list_elem_of_here.
  - reflexivity.
  - repeat split; reflexivity.
  - destruct Hleft as (l & Hl & Hin); [apply list_elem_of_here|].
    exists res, l. split; [exact Hrun|]. split; [exact Hl|exact Hin].
Defined.

(** the top and the bottom of the slab *)
Lemma comp_opposite_normals_witness :
  exists res t b,
    @Shape3d.comp sample.imports more.slab more.slab3d [pro.top; pro.bottom]
      = Ok (mkShape3d (shapes more.slab3d) (0, 0) 0 (Some sample.identity), res) /\
    res !! pro.top = Some t /\ sample.shape Shape2dClass 1 4 ∈ t /\
    res !! pro.bottom = Some b /\ sample.shape Shape2dClass 0 0 ∈ b.
Proof.
  destruct (@comp_opposite_normals sample.imports more.slab more.slab3d
              (mkShape3d (shapes more.slab3d) (0, 0) 0 (Some sample.identity))
              sample.identity [pro.top; pro.bottom]
              (sample.shape Shape2dClass 1 4) (sample.shape Shape2dClass 0 0)
              (vec 0 0 1))
    as [Hopp _].
  - repeat constructor; eexists; reflexivity.
  - reflexivity.
  - repeat split; reflexivity.
  - apply list_elem_of_further, list_elem_of_here.
  - apply list_elem_of_here.
  - reflexivity.
  - reflexivity.
  - destruct Hopp as (res & t & v & Hrun & Ht & _ & _ & Htop & Hbot).
    + intros (_ & _ & Hz). vm_compute in Hz. by apply Hz.
    + vm_compute in Ht. injection Ht as <- <-.
      destruct Htop as (lt & Hlt & Hint); [apply list_elem_of_here|].
      destruct Hbot as (lb & Hlb & Hinb);
        [apply list_elem_of_further, list_elem_of_here|].
      exists res, lt, lb. split; [exact Hrun|].
      split; [exact Hlt|]. split; [exact Hint|]. split; [exact Hlb|exact Hinb].
Defined.

(** the matrix of the corner, kept and returned on the empty mesh *)
Lemma getRotationMatrix_kept_witness :
  @Shape3d.getRotationMatrix sample.imports more.empty
    (mkShape3d (shapes sample.corner3d) (0, 0) 0 (Some sample.identity))
  = Ok (mkShape3d (shapes sample.corner3d) (0, 0) 0 (Some sample.identity),
        sample.identity).
Proof.
  destruct (@getRotationMatrix_kept sample.imports sample.corner sample.corner3d
              (mkShape3d (shapes sample.corner3d) (0, 0) 0 (Some sample.identity))
              sample.identity)
    as (_ & _ & _ & _ & Hkept & _).
  - reflexivity.
  - apply Hkept.
Defined.

(** the matrix of the rectangle, kept and returned on the empty mesh *)
Lemma getMatrix_kept_witness :
  exists self' M,
    @Shape2d.getMatrix sample.imports sample.lot (sample.shape Shape2dClass 0 1)
      = Ok (self', M) /\
    @Shape2d.getMatrix sample.imports more.empty self' = Ok (self', M).
Proof.
  eexists _, _. split; [reflexivity|].
  refine (proj2 (proj2 (proj2 (proj2 (proj2
    (@getMatrix_kept sample.imports sample.lot (sample.shape Shape2dClass 0 1)
       _ _ _))))) more.empty).
  reflexivity.
Defined.

(** the mesh without a face *)
Lemma getInitialShape_no_face_witness :
  @getInitialShape sample.imports more.empty = Raise IndexError.
Proof. apply getInitialShape_no_face. apply Forall_nil_2. Defined.

(** the rectangle whose stored normal is out of date, twice: the second
    call reverses the face back *)
Lemma getInitialShape_again_witness :
  exists bm' bm'' s,
    @getInitialShape sample.imports more.stale = Ok (bm', s) /\
    @getInitialShape sample.imports bm' = Ok (bm'', s) /\
    cycles (m_faces bm'') = cycles (m_faces more.stale).
Proof.
  destruct (@getInitialShape_again sample.imports more.stale _ _ eq_refl)
    as (bm'' & x & x' & Hrun & Hx & Hx' & _ & _ & _ & Hback).
  eexists _, bm'', _. split; [reflexivity|]. split; [exact Hrun|].
  injection Hx as <-. injection Hx' as <-. apply Hback; by vm_compute.
Defined.

(** the rectangle that faces down: its vertices stay where they are *)
Lemma getInitialShape_keeps_mesh_witness :
  exists bm' s,
    @getInitialShape sample.imports sample.lot_down = Ok (bm', s) /\
    wf bm' /\ m_verts bm' = sample.corners.
Proof.
  eexists _, _. split; [reflexivity|].
  destruct (@getInitialShape_keeps_mesh sample.imports sample.lot_down _ _
              ltac:(apply wfb_wf; reflexivity) eq_refl)
    as (Hwf & Hv & _).
  split; [exact Hwf|exact Hv].
Defined.

(** the rectangle that faces down, wrapped and extruded by 3 *)
Lemma getInitialShape_extrude_witness :
  exists bm' s ctx' r,
    @getInitialShape sample.imports sample.lot_down = Ok (bm', s) /\
    @Shape2d.extrude sample.imports 4 (pro.mkContext bm' []) s 3 = Ok (ctx', r) /\
    length (shapes r) = 6.
Proof.
  destruct (@getInitialShape_extrude sample.imports 4 sample.lot_down [] _ _ 3
              ltac:(apply wfb_wf; reflexivity) eq_refl)
    as (x' & Hx' & Hext).
  injection Hx' as <-.
  destruct Hext as (ctx' & r & Hrun & _ & _ & _ & Hlen & _).
  - intros _. simpl. lia.
  - eexists _, _, ctx', r. split; [reflexivity|]. split; [exact Hrun|exact Hlen].
Defined.

(** the top of the corner extruded by 3: four vertices and five faces
    more, beside the wall and the cut-off corner that share its edge *)
Lemma extrude_keeps_mesh_witness :
  exists ctx' r,
    @Shape2d.extrude sample.imports 4 (sample.ctx sample.corner)
      (sample.shape Shape2dClass 0 2) 3 = Ok (ctx', r) /\
    wf (pro.bm ctx') /\
    length (m_verts (pro.bm ctx')) = 11 /\ length (m_faces (pro.bm ctx')) = 8.
Proof.
  destruct (@extrude_keeps_mesh sample.imports 4 (sample.ctx sample.corner)
              (sample.shape Shape2dClass 0 2) 3 (mkFace [0; 1; 2; 3] (vec 0 0 1)) 2)
    as (ctx' & r & g & Hrun & Hwf & Hv & Hf & _).
  - apply wfb_wf. reflexivity.
  - reflexivity.
  - reflexivity.
  - apply list_elem_of_further, list_elem_of_further, list_elem_of_here.
  - intros _. simpl. lia.
  - exists ctx', r. split; [exact Hrun|]. split; [exact Hwf|].
    split; [exact Hv|exact Hf].
Defined.

(** the rectangle whose stored normal points down, extruded by 3: the cap
    vertex is above (10, 4, 0) *)
Lemma extrude_cap_position_witness :
  exists ctx' r,
    @Shape2d.extrude sample.imports 4 (sample.ctx more.stale)
      (sample.shape Shape2dClass 0 0) 3 = Ok (ctx', r) /\
    co (pro.bm ctx') 6 = Ok (add (vec 10 4 0) (scale 3 (vec 0 0 1))).
Proof.
  destruct (@extrude_cap_position sample.imports 4 (sample.ctx more.stale)
              (sample.shape Shape2dClass 0 0) 3 (mkFace [0; 1; 2; 3] (vec 0 0 (-1))) 0)
    as (ctx' & r & cap & g & Hrun & _ & _ & _ & _ & _ & Hpos & _).
  - apply wfb_wf. reflexivity.
  - reflexivity.
  - reflexivity.
  - apply list_elem_of_here.
  - intros _. simpl. lia.
  - exists ctx', r. split; [exact Hrun|].
    exact (proj1 (Hpos 2 2 (vec 10 4 0) eq_refl eq_refl)).
Defined.

(** the rectangle with a zero normal, extruded by 3: six constituents,
    and the third vertex of the cap is at (10, 4, 3) *)
Example blank_extrude :
  ('(ctx', r) ← @Shape2d.extrude sample.imports 4 (sample.ctx more.blank)
                  (sample.shape Shape2dClass 0 0) 3;
   c ← co (pro.bm ctx') 6;
   Ok (length (shapes r), c))
  = Ok (6, vec 10 4 3).
Proof. vm_compute. reflexivity. Qed.

(** the rectangle with a zero normal and the rectangle facing up *)
Lemma extrude_ignores_stored_normals_witness :
  @Shape2d.extrude sample.imports 4 (sample.ctx more.blank)
    (sample.shape Shape2dClass 0 0) 3
  = @Shape2d.extrude sample.imports 4 (sample.ctx sample.lot)
      (sample.shape Shape2dClass 0 0) 3.
Proof.
  apply (@extrude_ignores_stored_normals sample.imports 4 (sample.ctx more.blank)
           (sample.ctx sample.lot)); reflexivity.
Defined.

(** the rectangle extruded by 3: four walls, and the cap cannot be split *)
Lemma extrude_walls_split_witness :
  exists ctx' r,
    @Shape2d.extrude sample.imports 4 (sample.ctx sample.lot)
      (sample.shape Shape2dClass 0 0) 3 = Ok (ctx', r) /\
    length (drop 2 (shapes r)) = 4.
Proof.
  destruct (@extrude_walls_split sample.imports 4 (sample.ctx sample.lot)
              (sample.shape Shape2dClass 0 0) 3 (mkFace [0; 1; 2; 3] (vec 0 0 1)) 0
              pro.x more.sizes)
    as (ctx' & r & Hrun & Hlen & _).
  - apply wfb_wf. reflexivity.
  - reflexivity.
  - reflexivity.
  - apply list_elem_of_here.
  - by vm_compute.
  - simpl. lia.
  - exists ctx', r. split; [exact Hrun|exact Hlen].
Defined.

(** the rectangle whose stored normal points down, extruded by 3, then
    [comp] with [top] and [bottom] *)
Lemma extrude_comp_top_bottom_witness :
  exists ctx' r cap,
    @Shape2d.extrude sample.imports 4 (sample.ctx more.stale)
      (sample.shape Shape2dClass 0 0) 3 = Ok (ctx', r) /\
    shapes r !! 1 = Some cap /\
    exists r' res top bottom,
      @Shape3d.comp sample.imports (pro.bm ctx') r [pro.top; pro.bottom]
        = Ok (r', res) /\
      res !! pro.top = Some top /\ cap ∈ top /\
      res !! pro.bottom = Some bottom /\ sample.shape Shape2dClass 0 0 ∈ bottom.
Proof.
  destruct (@extrude_comp_top_bottom sample.imports 4 (sample.ctx more.stale)
              (sample.shape Shape2dClass 0 0) 3 (mkFace [0; 1; 2; 3] (vec 0 0 (-1))) 0
              [pro.top; pro.bottom])
    as (ctx' & r & cap & nc & nb & Hrun & _ & Hcap & _ & _ & _ & _ & Hcomp).
  - apply wfb_wf. reflexivity.
  - reflexivity.
  - reflexivity.
  - apply list_elem_of_here.
  - intros _. simpl. lia.
  - exact sample_normalize_odd.
  - exact sample_normalize_veq.
  - apply list_elem_of_here.
  - apply list_elem_of_further, list_elem_of_here.
  - exists ctx', r, cap. split; [exact Hrun|]. split; [exact Hcap|].
    destruct (Hcomp (mkShape3d (shapes r) (firstLoop3 r) (origin3 r)
                       (Some sample.identity)) sample.identity)
      as (res & top & bottom & Hc & Htop & Hint & Hbot & Hinb).
    + vm_compute in Hrun. injection Hrun as <- <-. reflexivity.
    + repeat split; reflexivity.
    + by vm_compute.
    + eexists _, res, top, bottom. split; [exact Hc|].
      split; [exact Htop|]. split; [exact Hint|]. split; [exact Hbot|exact Hinb].
Defined.

(** the rectangle split in three along x: the face in the middle *)
Lemma split_tiles_witness :
  exists ctx' out,
    @Rectangle.split sample.imports (sample.ctx sample.lot)
      (sample.shape RectangleClass 0 0) pro.x more.sizes = Ok (ctx', out) /\
    get_face (pro.bm ctx') 2 = Ok (mkFace [4; 6; 7; 5] zero).
Proof.
  destruct (@split_tiles sample.imports (sample.ctx sample.lot)
              (sample.shape RectangleClass 0 0) pro.x more.sizes
              (mkFace [0; 1; 2; 3] (vec 0 0 1)) 0 1 2 3 0 0 1 2 3)
    as (cs & Hcs & Hrun).
  - apply wfb_wf. reflexivity.
  - reflexivity.
  - reflexivity.
  - reflexivity.
  - simpl. lia.
  - exists 0. split; reflexivity.
  - exists 1. split; reflexivity.
  - exists 2. split; reflexivity.
  - exists 3. split; reflexivity.
  - reflexivity.
  - vm_compute in Hcs. injection Hcs as <-.
    destruct Hrun as (ctx' & out & Hsplit & _ & Htiles & _); [simpl; lia|].
    exists ctx', out. split; [exact Hsplit|].
    exact (proj1 (Htiles 1 ltac:(simpl; lia))).
Defined.

(** the rectangle split in three along x: the first cut, at a quarter *)
Lemma split_cut_positions_witness :
  exists ctx' out,
    @Rectangle.split sample.imports (sample.ctx sample.lot)
      (sample.shape RectangleClass 0 0) pro.x more.sizes = Ok (ctx', out) /\
    co (pro.bm ctx') 4
      = Ok (add (vec 0 0 0) (scale (1 # 4) (sub (vec 10 0 0) (vec 0 0 0)))).
Proof.
  destruct (@split_cut_positions sample.imports (sample.ctx sample.lot)
              (sample.shape RectangleClass 0 0) pro.x more.sizes
              (mkFace [0; 1; 2; 3] (vec 0 0 1)) 0 1 2 3 0 0 1 2 3)
    as (cs & c1 & d1 & d2 & c2 & Hcs & Hc1 & Hd1 & _ & _ & Hrun).
  - apply wfb_wf. reflexivity.
  - reflexivity.
  - reflexivity.
  - reflexivity.
  - simpl. lia.
  - exists 0. split; reflexivity.
  - exists 1. split; reflexivity.
  - exists 2. split; reflexivity.
  - exists 3. split; reflexivity.
  - reflexivity.
  - vm_compute in Hcs. injection Hcs as <-.
    injection Hc1 as <-. injection Hd1 as <-.
    destruct Hrun as (ctx' & out & Hsplit & _ & _ & Hpos); [simpl; lia|].
    exists ctx', out. split; [exact Hsplit|].
    exact (proj1 (Hpos 0 (1 # 4, 7) ltac:(simpl; lia) eq_refl)).
Defined.

(** the rectangle split in three along y: its face is still in the mesh *)
Lemma split_keeps_mesh_witness :
  exists ctx' out,
    @Rectangle.split sample.imports (sample.ctx sample.lot)
      (sample.shape RectangleClass 0 0) pro.y more.sizes = Ok (ctx', out) /\
    get_face (pro.bm ctx') 0 = Ok (mkFace [0; 1; 2; 3] (vec 0 0 1)) /\
    0 ∈ pro.facesForRemoval ctx'.
Proof.
  destruct (@split_keeps_mesh sample.imports (sample.ctx sample.lot)
              (sample.shape RectangleClass 0 0) pro.y more.sizes
              (mkFace [0; 1; 2; 3] (vec 0 0 1)) 0)
    as (rl & cs & Hrl & Hcs & Hrun).
  - apply wfb_wf. reflexivity.
  - reflexivity.
  - reflexivity.
  - reflexivity.
  - apply list_elem_of_here.
  - simpl. lia.
  - injection Hrl as <-. vm_compute in Hcs. injection Hcs as <-.
    destruct Hrun as (ctx' & out & Hsplit & _ & Hface & _ & _ & Hrem); [simpl; lia|].
    exists ctx', out. split; [exact Hsplit|]. split; [exact Hface|exact Hrem].
Defined.

(** the rectangle split into one part *)
Lemma split_few_cuts_witness :
  @Rectangle.split sample.imports (sample.ctx sample.lot)
    (sample.shape RectangleClass 0 0) pro.x [(1%Q, 7)] = Raise ValueError.
Proof.
  destruct (@split_few_cuts sample.imports (sample.ctx sample.lot)
              (sample.shape RectangleClass 0 0) pro.x [(1%Q, 7)]
              (mkFace [0; 1; 2; 3] (vec 0 0 1)) 0 1 2 3)
    as (rl & cs & Hrl & Hcs & Hraise).
  - apply wfb_wf. reflexivity.
  - reflexivity.
  - reflexivity.
  - reflexivity.
  - reflexivity.
  - exists 0. split; reflexivity.
  - exists 1. split; reflexivity.
  - exists 2. split; reflexivity.
  - injection Hrl as <-. vm_compute in Hcs. injection Hcs as <-.
    apply Hraise. simpl. lia.
Defined.

(** the rectangle split in three along x, and its parts along y *)
Lemma split_again_witness :
  exists ctx' out,
    @Rectangle.split sample.imports (sample.ctx sample.lot)
      (sample.shape RectangleClass 0 0) pro.x more.sizes = Ok (ctx', out) /\
    length out = 3.
Proof.
  destruct (@split_again sample.imports (sample.ctx sample.lot)
              (sample.shape RectangleClass 0 0) pro.x more.sizes
              (mkFace [0; 1; 2; 3] (vec 0 0 1)) 0 1 2 3 0 0 1 2 3
              pro.y more.sizes)
    as (cs & Hcs & Hrun).
  - apply wfb_wf. reflexivity.
  - reflexivity.
  - reflexivity.
  - reflexivity.
  - simpl. lia.
  - exists 0. split; reflexivity.
  - exists 1. split; reflexivity.
  - exists 2. split; reflexivity.
  - exists 3. split; reflexivity.
  - reflexivity.
  - vm_compute in Hcs. injection Hcs as <-.
    destruct Hrun as (ctx' & out & Hsplit & Hlen & _); [simpl; lia|].
    exists ctx', out. split; [exact Hsplit|exact Hlen].
Defined.

(** the normal of the rectangle from its first two edges *)
Lemma getNormal_first_edges_witness :
  @Shape2d.getNormal sample.imports sample.lot (sample.shape Shape2dClass 0 0)
  = Ok (@Vector_normalize sample.imports
          (cross (sub (vec 10 0 0) (vec 0 0 0)) (sub (vec 10 4 0) (vec 10 0 0)))).
Proof.
  refine (proj1 (@getNormal_first_edges sample.imports sample.lot
                   (sample.shape Shape2dClass 0 0) 0
                   (mkFace [0; 1; 2; 3] (vec 0 0 1)) 0 1 2
                   (vec 0 0 0) (vec 10 0 0) (vec 10 4 0) _ _ _ _ _ _ _ _)).
  - reflexivity.
  - apply NoDup_4; lia.
  - reflexivity.
  - exists 0. split; reflexivity.
  - exists 1. split; reflexivity.
  - reflexivity.
  - reflexivity.
  - reflexivity.
Defined.
